(** * Code_Compiler.py: the analysis and report-compilation pipeline

    A shallow embedding of [CodeCompiler] (src/Code_Compiler.py): the
    directory walk with its include/exclude filter, the per-file analysis,
    the directory-tree renderer and the report generator, followed by the
    properties of the pipeline that the specification states.

    Conventions of the embedding.
    - A Python [str] is a [string]; a character is an [ascii].  The box
      drawing glyphs of the tree renderer stand as their UTF-8 bytes.
    - A [pathlib.Path] is a record of an anchor and a list of components.
    - A Python [dict] with free keys ([report_types], [Counter]) is a
      [gmap string _]; a dict with fixed keys is a record.
    - Methods that log, drive the progress bar, print or write a file
      are computations in the monad [M] over a [World]; an exception is
      the left summand of the result.
    - The libraries the program calls but does not contain (the tiktoken
      tokenizer and the character classes of [re] and [str.strip]) are
      the fields of the class [Runtime]. *)

From Stdlib Require Import Ascii String DecimalString.
From stdpp Require Import gmap strings list fin_maps.

Set Warnings "-register-all".

Local Open Scope string_scope.
Local Open Scope list_scope.
Local Open Scope nat_scope.

(** ** Text *)

Module Text.

Definition chars (s : string) : list ascii := list_ascii_of_string s.
Definition of_chars (l : list ascii) : string := string_of_list_ascii l.

(** [str(n)] for a non-negative integer. *)
Definition str_nat (n : nat) : string := NilZero.string_of_uint (Nat.to_uint n).
Definition str_N (n : N) : string := NilZero.string_of_uint (N.to_uint n).

(** [''.join(ls)] *)
Fixpoint join (ls : list string) : string :=
  match ls with
  | [] => ""
  | s :: ls' => s +:+ join ls'
  end.

(** [str(ls)] for a list of strings without quotes or backslashes. *)
Definition repr_list (ls : list string) : string :=
  "[" +:+ String.concat ", " ((λ s, "'" +:+ s +:+ "'") <$> ls) +:+ "]".

Definition is_lower (c : ascii) : bool :=
  let n := nat_of_ascii c in ((97 <=? n) && (n <=? 122))%nat.
Definition is_upper (c : ascii) : bool :=
  let n := nat_of_ascii c in ((65 <=? n) && (n <=? 90))%nat.
Definition upper (c : ascii) : ascii :=
  if is_lower c then ascii_of_nat (nat_of_ascii c - 32) else c.
Definition lower (c : ascii) : ascii :=
  if is_upper c then ascii_of_nat (nat_of_ascii c + 32) else c.

(** [s.capitalize()]: first character upper-cased, the others
    lower-cased (letters outside a-z and A-Z are left as they are). *)
Definition capitalize (s : string) : string :=
  match s with
  | EmptyString => EmptyString
  | String c s' => String (upper c) (of_chars (lower <$> chars s'))
  end.

(** [s.split(sep)] for a one-character separator: always at least one
    segment. *)
Fixpoint split_on (sep : ascii) (s : list ascii) : list (list ascii) :=
  match s with
  | [] => [[]]
  | c :: s' =>
      if decide (c = sep) then [] :: split_on sep s'
      else match split_on sep s' with
           | [] => [[c]]
           | seg :: segs => (c :: seg) :: segs
           end
  end.

Fixpoint lstrip (space : ascii → bool) (s : list ascii) : list ascii :=
  match s with
  | c :: s' => if space c then lstrip space s' else s
  | [] => []
  end.

(** [s.strip()] *)
Definition strip (space : ascii → bool) (s : list ascii) : list ascii :=
  rev (lstrip space (rev (lstrip space s))).

(** [s.startswith(c)] for a one-character prefix. *)
Definition startswith (c : ascii) (s : list ascii) : bool :=
  match s with
  | x :: _ => bool_decide (x = c)
  | [] => false
  end.

End Text.

(** ** Paths (pathlib.PurePosixPath)

    [anchor] is "/" for an absolute path and empty for a relative one;
    [parts] are the components after it. *)

Record Path := mkPath { anchor : string; parts : list string }.

Global Instance Path_eq_dec : EqDecision Path.
Proof. solve_decision. Defined.

(** [p / name], for a [name] that is a single component, as the names
    [iterdir] produces are. *)
Definition joinpath (p : Path) (name : string) : Path :=
  {| anchor := anchor p; parts := parts p ++ [name] |}.

Notation "p // name" := (joinpath p name) (at level 40, left associativity).

(** [p] extended by several components. *)
Definition under (p : Path) (rel : list string) : Path :=
  {| anchor := anchor p; parts := parts p ++ rel |}.

(** [p.name] *)
Definition path_name (p : Path) : string := List.last (parts p) "".

(** [str(p)] *)
Definition str_path (p : Path) : string :=
  match parts p with
  | [] => if decide (anchor p = "") then "." else anchor p
  | first :: others => anchor p +:+ String.concat "/" (first :: others)
  end.

Fixpoint rfind (c : ascii) (s : list ascii) (i : nat) : option nat :=
  match s with
  | [] => None
  | x :: s' =>
      match rfind c s' (S i) with
      | Some j => Some j
      | None => if decide (x = c) then Some i else None
      end
  end.

(** [PurePath.suffix] of a final component: the text from the last dot
    on, unless that dot starts or ends the name. *)
Definition name_suffix (name : string) : string :=
  let cs := Text.chars name in
  match rfind "."%char cs 0 with
  | Some i =>
      if ((0 <? i) && (i <? length cs - 1))%nat
      then Text.of_chars (drop i cs) else ""
  | None => ""
  end.

(** [p.suffix] *)
Definition suffix (p : Path) : string := name_suffix (path_name p).

Fixpoint strip_prefix (pre l : list string) : option (list string) :=
  match pre, l with
  | [], _ => Some l
  | x :: pre', y :: l' => if decide (x = y) then strip_prefix pre' l' else None
  | _ :: _, [] => None
  end.

(** [p.relative_to(base)]: [None] stands for its [ValueError]. *)
Definition relative_to (p base : Path) : option Path :=
  if decide (anchor p = anchor base)
  then mkPath "" <$> strip_prefix (parts base) (parts p)
  else None.

(** ** The libraries behind the program *)

Class Runtime := {
  (** [len(encoding.encode(text, disallowed_special=()))] *)
  tokenizer : string → N;
  (** the class [\w] *)
  is_word_char : ascii → bool;
  (** the class [\s], also the characters [str.strip] removes *)
  is_space_char : ascii → bool
}.

(** ** Regular expressions

    The four patterns of [analyze_file] are sequences of a word boundary,
    literal characters and greedy repetitions of a character class.
    [match_here] is the backtracking matcher of [re] on that fragment:
    a repetition first takes the longest run and gives characters back
    one at a time until the rest of the pattern matches. *)

Module Re.

Inductive cclass := Word | Space.

Inductive item :=
| Boundary                   (* \b *)
| Lit (c : ascii)            (* a literal character *)
| Plus (k : cclass)          (* \w+ or \s+ *)
| Star (k : cclass).         (* \w* or \s* *)

Definition regex := list item.

Definition lit (s : string) : regex := Lit <$> Text.chars s.

Section Matcher.
Context `{Runtime}.

Definition in_class (k : cclass) (c : ascii) : bool :=
  match k with
  | Word => is_word_char c
  | Space => is_space_char c
  end.

Definition word_at (c : option ascii) : bool :=
  match c with
  | Some x => is_word_char x
  | None => false
  end.

(** [\b]: exactly one of the two neighbours is a word character; the
    ends of the text count as non-word. *)
Definition at_boundary (prev : option ascii) (s : list ascii) : bool :=
  xorb (word_at prev) (word_at (head s)).

Fixpoint run_length (k : cclass) (s : list ascii) : nat :=
  match s with
  | c :: s' => if in_class k c then S (run_length k s') else 0
  | [] => 0
  end.

(** The character before the position reached after [n] more
    characters of [s]. *)
Definition prev_after (n : nat) (prev : option ascii) (s : list ascii)
  : option ascii :=
  List.last (Some <$> take n s) prev.

(** Try the continuation [k] after [n], [n - 1], ..., [lo] characters
    of the run. *)
Fixpoint backtrack (k : option ascii → list ascii → option nat)
    (lo : nat) (prev : option ascii) (s : list ascii) (n : nat)
  : option nat :=
  let attempt :=
    if (lo <=? n)%nat then (λ r, n + r) <$> k (prev_after n prev s) (drop n s)
    else None in
  match attempt with
  | Some r => Some r
  | None => match n with
            | 0 => None
            | S n' => backtrack k lo prev s n'
            end
  end.

(** The length of the match of [p] that starts here, if there is one;
    [prev] is the character before the position. *)
Fixpoint match_here (p : regex) (prev : option ascii) (s : list ascii)
  : option nat :=
  match p with
  | [] => Some 0
  | Boundary :: p' =>
      if at_boundary prev s then match_here p' prev s else None
  | Lit c :: p' =>
      match s with
      | x :: s' =>
          if decide (x = c) then S <$> match_here p' (Some x) s' else None
      | [] => None
      end
  | Plus k :: p' => backtrack (match_here p') 1 prev s (run_length k s)
  | Star k :: p' => backtrack (match_here p') 0 prev s (run_length k s)
  end.

(** The scan of [re.findall]: at a free position try the pattern; a
    match of length [n] is recorded and the next [n - 1] positions
    are inside it ([skip]); otherwise move on by one character. *)
Fixpoint findall_at (p : regex) (prev : option ascii) (s : list ascii)
    (skip : nat) {struct s} : list (list ascii) :=
  match skip with
  | S k =>
      match s with
      | [] => []
      | c :: s' => findall_at p (Some c) s' k
      end
  | 0 =>
      let rest n :=
        match s with
        | [] => []
        | c :: s' => findall_at p (Some c) s' n
        end in
      match match_here p prev s with
      | Some n => take n s :: rest (pred n)
      | None => rest 0
      end
  end.

(** [re.findall(p, text)] for a pattern without groups. *)
Definition findall (p : regex) (text : string) : list (list ascii) :=
  findall_at p None (Text.chars text) 0.

(** The lengths [p] can match here in any way, greedy or not. *)
Inductive matches : regex → option ascii → list ascii → nat → Prop :=
| matches_nil prev s : matches [] prev s 0
| matches_boundary p prev s n :
    at_boundary prev s = true →
    matches p prev s n → matches (Boundary :: p) prev s n
| matches_lit c p prev s n :
    matches p (Some c) s n → matches (Lit c :: p) prev (c :: s) (S n)
| matches_plus k p prev s j n :
    1 ≤ j → j ≤ run_length k s →
    matches p (prev_after j prev s) (drop j s) n →
    matches (Plus k :: p) prev s (j + n)
| matches_star k p prev s j n :
    j ≤ run_length k s →
    matches p (prev_after j prev s) (drop j s) n →
    matches (Star k :: p) prev s (j + n).

(** No match of [p] starts at any of the next [n] positions. *)
Fixpoint no_start (p : regex) (n : nat) (prev : option ascii) (s : list ascii)
  : Prop :=
  match n, s with
  | S n', c :: s' => match_here p prev s = None ∧ no_start p n' (Some c) s'
  | _, _ => True
  end.

End Matcher.

(** r'\bdef\s+\w+\s*\(' *)
Definition function_pattern : regex :=
  [Boundary] ++ lit "def" ++ [Plus Space; Plus Word; Star Space] ++ lit "(".
(** r'\bclass\s+\w+' *)
Definition class_pattern : regex :=
  [Boundary] ++ lit "class" ++ [Plus Space; Plus Word].
(** r'\bdef\s+\w+\s*\(self' *)
Definition method_pattern : regex :=
  [Boundary] ++ lit "def" ++ [Plus Space; Plus Word; Star Space] ++ lit "(self".
(** r'\b\w+\s*=' *)
Definition variable_pattern : regex :=
  [Boundary; Plus Word; Star Space] ++ lit "=".

End Re.

(** ** Configuration *)

(** One entry of [report_types]; either key may be missing from the
    YAML document. *)
Record ReportConfig := {
  name : option string;
  file_types : option (list string)
}.

Record Config := {
  supported_types : list string;
  include_folders : list string;
  exclude_folders : list string;
  max_file_size : N;
  max_token_count : option N;      (* the key is optional *)
  report_types : gmap string ReportConfig;
  results_dir : Path;
  repo_dir : Path
}.

Definition DEFAULT_CONFIG : Config := {|
  supported_types := [".py"; ".ts"; ".js"; ".md"; ".txt"];
  include_folders := [];
  exclude_folders := [".git"; "node_modules"; "venv"; "__pycache__"; ".venv"];
  max_file_size := 1000000;
  max_token_count := None;
  report_types :=
    <["1" := {| name := Some "All Supported File Types";
                file_types := Some ["py"; "ts"; "js"; "md"; "txt"] |}]>
    (<["2" := {| name := Some "Python, TypeScript, JavaScript";
                 file_types := Some ["py"; "ts"; "js"] |}]> ∅);
  results_dir := mkPath "" ["output"];
  repo_dir := mkPath "" ["repos"]
|}.

(** ** The file system the run reads

    A snapshot of the tree at the scan root.  A regular file is what the
    program can observe of it: its size and what opening it in text mode
    with a given encoding yields.  A directory has its entries in the
    order [iterdir] lists them and says whether it can be listed. *)

(** The exceptions of the operating system: [PermissionError] and any
    other [OSError]. *)
Inductive exn :=
| PermissionError (filename : Path)
| OSError (errno : nat) (strerror : string) (filename : Path).

(** [str(e)] *)
Definition str_exn (e : exn) : string :=
  match e with
  | PermissionError p =>
      "[Errno 13] Permission denied: '" +:+ str_path p +:+ "'"
  | OSError n text p =>
      "[Errno " +:+ Text.str_nat n +:+ "] " +:+ text +:+ ": '" +:+ str_path p
      +:+ "'"
  end.

Inductive encoding := utf_8 | latin_1 | ascii_codec.

Inductive read_outcome :=
| Decoded (text : string)
| UnicodeDecodeError
| ReadError (e : exn).

Record FileData := {
  st_size : N;
  open_read : encoding → read_outcome
}.

Inductive access :=
| Listable
| Denied                                   (* listing: PermissionError *)
| Failing (errno : nat) (strerror : string).   (* listing: another OSError *)

Inductive node :=
| File (entry_name : string) (f : FileData)
| Dir (entry_name : string) (a : access) (entries : list node)
| Other (entry_name : string).       (* neither a file nor a directory *)

Definition node_name (n : node) : string :=
  match n with
  | File x _ | Dir x _ _ | Other x => x
  end.

Definition is_dir (n : node) : bool :=
  match n with Dir _ _ _ => true | _ => false end.

Definition is_file (n : node) : bool :=
  match n with File _ _ => true | _ => false end.

(** What [directory.iterdir()] raises when [d], which is what is at
    [directory], is not a directory that can be listed. *)
Definition iterdir_error (directory : Path) (d : node) : exn :=
  match d with
  | Dir _ Denied _ => PermissionError directory
  | Dir _ (Failing n text) _ => OSError n text directory
  | _ => OSError 20 "Not a directory" directory
  end.

Record Filesystem := {
  mount : Path;            (* where the snapshot sits *)
  tree : option node       (* what is there; [None]: nothing *)
}.

(** Resolution of the components [rel] below [d]. *)
Fixpoint descend (d : node) (rel : list string) : option node :=
  match rel with
  | [] => Some d
  | x :: rel' =>
      match d with
      | Dir _ _ entries =>
          match List.find (λ n, bool_decide (node_name n = x)) entries with
          | Some child => descend child rel'
          | None => None
          end
      | _ => None
      end
  end.

(** What [stat] finds at [p]. *)
Definition lookup_path (fs : Filesystem) (p : Path) : option node :=
  match relative_to p (mount fs) with
  | Some rel => tree fs ≫= λ d, descend d (parts rel)
  | None => None
  end.

(** ** Effects *)

Inductive level := DEBUG | INFO | WARNING | ERROR.

Record LogRecord := { asctime : nat; levelname : level; message : string }.

(** A task of the [rich] progress display. *)
Record Task := {
  task_id : nat;
  description : string;
  total : nat;
  completed : nat
}.

Record World := {
  clock : nat → nat;       (* what the n-th reading of the wall clock gives *)
  readings : nat;          (* how often the clock was read *)
  log : list LogRecord;    (* newest first *)
  console : list string;   (* newest first *)
  tasks : list Task;
  next_task : nat;
  writable : Path → bool;  (* whether opening the path for writing succeeds *)
  mkdir_error : Path → option exn;  (* what making the directory raises *)
  written : list (Path * string)
}.

Definition M (A : Type) : Type := World → (exn + A) * World.

Global Instance M_ret : MRet M := λ A a w, (inr a, w).

Global Instance M_bind : MBind M := λ A B f m w,
  match m w with
  | (inr a, w') => f a w'
  | (inl e, w') => (inl e, w')
  end.

(** A computation without effects that may raise. *)
Definition lift {A} (r : exn + A) : M A := λ w, (r, w).

Definition emit (l : level) (msg : string) : M unit := λ w,
  (inr (),
   {| clock := clock w; readings := S (readings w);
      log := {| asctime := clock w (readings w); levelname := l; message := msg |}
             :: log w;
      console := console w; tasks := tasks w; next_task := next_task w;
      writable := writable w; mkdir_error := mkdir_error w;
      written := written w |}).

Definition logger_info : string → M unit := emit INFO.
Definition logger_warning : string → M unit := emit WARNING.
Definition logger_error : string → M unit := emit ERROR.

Definition console_print (text : string) : M unit := λ w,
  (inr (),
   {| clock := clock w; readings := readings w; log := log w;
      console := text :: console w; tasks := tasks w; next_task := next_task w;
      writable := writable w; mkdir_error := mkdir_error w;
      written := written w |}).

Definition set_tasks (ts : list Task) (next : nat) (w : World) : World :=
  {| clock := clock w; readings := readings w; log := log w;
     console := console w; tasks := ts; next_task := next;
     writable := writable w; mkdir_error := mkdir_error w;
     written := written w |}.

(** [self.progress.add_task(description, total=total)] *)
Definition progress_add_task (descr : string) (n : nat) : M nat := λ w,
  (inr (next_task w),
   set_tasks ({| task_id := next_task w; description := descr;
                 total := n; completed := 0 |} :: tasks w)
             (S (next_task w)) w).

Definition update_task (id : nat) (f : nat → nat) (t : Task) : Task :=
  if decide (task_id t = id)
  then {| task_id := id; description := description t; total := total t;
          completed := f (completed t) |}
  else t.

(** [self.progress.update(task, advance=1)] *)
Definition progress_advance (id : nat) : M unit := λ w,
  (inr (), set_tasks (update_task id S <$> tasks w) (next_task w) w).

(** [self.progress.update(task, completed=n)] *)
Definition progress_complete (id n : nat) : M unit := λ w,
  (inr (), set_tasks (update_task id (λ _, n) <$> tasks w) (next_task w) w).

(** [self.progress.remove_task(task)] *)
Definition progress_remove_task (id : nat) : M unit := λ w,
  (inr (),
   set_tasks (List.filter (λ t, bool_decide (task_id t ≠ id)) (tasks w))
             (next_task w) w).

(** [with open(path, "w") as f: f.write(text)]: the file is written, or
    opening it raises. *)
Definition write_text (path : Path) (text : string) : M unit := λ w,
  if writable w path
  then (inr (),
        {| clock := clock w; readings := readings w; log := log w;
           console := console w; tasks := tasks w; next_task := next_task w;
           writable := writable w; mkdir_error := mkdir_error w;
           written := (path, text) :: written w |})
  else (inl (PermissionError path), w).

(** [path.mkdir(exist_ok=True)]: the directory is there afterwards, or
    making it raises ([FileNotFoundError] without the parent,
    [FileExistsError] on a file of that name, [PermissionError]). *)
Definition mkdir (path : Path) : M unit := λ w,
  match mkdir_error w path with
  | Some e => (inl e, w)
  | None => (inr (), w)
  end.

(** [try: body  except OSError as e: handler(e)] *)
Definition try_except {A} (body : M A) (handler : exn → M A) : M A := λ w,
  match body w with
  | (inr a, w') => (inr a, w')
  | (inl e, w') => handler e w'
  end.

(** [try: body  finally: final] *)
Definition try_finally {A} (body : M A) (final : M unit) : M A := λ w,
  match body w with
  | (r, w') =>
      match final w' with
      | (inr _, w'') => (r, w'')
      | (inl e, w'') => (inl e, w'')
      end
  end.

(** A [for] loop that carries the variables it updates. *)
Fixpoint for_each {A S} (l : list A) (body : A → S → M S) (s : S) : M S :=
  match l with
  | [] => mret s
  | a :: l' => s' ← body a s; for_each l' body s'
  end.

Definition nl : string := String (ascii_of_nat 10) "".

(** ** CodeCompiler

    The methods take the fields of [self] they read ([config],
    [base_directory]) and the file system as arguments. *)

Section CodeCompiler.
Context `{Runtime}.

(** [count_tokens] *)
Definition count_tokens (text : string) : N := tokenizer text.

Definition encodings : list encoding := [utf_8; latin_1; ascii_codec].

(** The loop over [encodings] of [read_file_content]: the first
    encoding that decodes the file wins, a decoding error moves on to
    the next one, an [OSError] ends the loop; when no encoding is left
    [content] is still empty. *)
Fixpoint read_with (f : FileData) (encs : list encoding) : read_outcome :=
  match encs with
  | [] => Decoded ""
  | enc :: encs' =>
      match open_read f enc with
      | Decoded text => Decoded text
      | UnicodeDecodeError => read_with f encs'
      | ReadError e => ReadError e
      end
  end.

(** [token_count > self.config.get('max_token_count', float('inf'))] *)
Definition over_token_limit (cfg : Config) (token_count : N) : bool :=
  match max_token_count cfg with
  | Some limit => (limit <? token_count)%N
  | None => false
  end.

Definition read_file_content (cfg : Config) (fs : Filesystem) (file_path : Path)
  : M string :=
  match lookup_path fs file_path with
  | Some (File _ f) =>
      if (max_file_size cfg <? st_size f)%N then
        logger_warning ("File " +:+ str_path file_path
                        +:+ " exceeds max size limit. Skipping.");;
        mret ""
      else
        match read_with f encodings with
        | ReadError e =>
            logger_error ("Error reading file " +:+ str_path file_path
                          +:+ ": " +:+ str_exn e);;
            mret ""
        | UnicodeDecodeError => mret ""
        | Decoded content =>
            if decide (content = "") then mret content
            else
              let token_count := count_tokens content in
              if over_token_limit cfg token_count then
                logger_warning ("File " +:+ str_path file_path
                                +:+ " exceeds max token count limit. Skipping.");;
                mret ""
              else mret content
        end
  | _ =>
      logger_warning ("Not a file: " +:+ str_path file_path);;
      mret ""
  end.

(** The dictionary [analyze_file] returns. *)
Record FileRecord := {
  file : string;
  language : string;
  content : string;
  lines : nat;
  characters : nat;
  functions : nat;
  classes : nat;
  methods : nat;
  variables : nat;
  comments : nat
}.

(** [s[1:]] *)
Definition tail_str (s : string) : string :=
  match s with
  | EmptyString => EmptyString
  | String _ s' => s'
  end.

(** The dictionary [analyze_file] builds from a non-empty [content]. *)
Definition record_of (file_path : Path) (content : string) : FileRecord :=
  let lines := Text.split_on (ascii_of_nat 10) (Text.chars content) in
  {| file := str_path file_path;
     language := tail_str (suffix file_path);
     content := content;
     lines := length lines;
     characters := String.length content;
     functions := length (Re.findall Re.function_pattern content);
     classes := length (Re.findall Re.class_pattern content);
     methods := length (Re.findall Re.method_pattern content);
     variables := length (Re.findall Re.variable_pattern content);
     comments :=
       length (List.filter
                 (λ line, Text.startswith "#" (Text.strip is_space_char line))
                 lines) |}.

(** [None] is the empty dictionary. *)
Definition analyze_file (cfg : Config) (fs : Filesystem) (file_path : Path)
  : M (option FileRecord) :=
  content ← read_file_content cfg fs file_path;
  if decide (content = "") then mret None
  else mret (Some (record_of file_path content)).

(** [any(x in path_parts for x in folders)] *)
Definition any_in (folders path_parts : list string) : bool :=
  existsb (λ x, bool_decide (x ∈ path_parts)) folders.

Definition should_include_path (cfg : Config) (base_directory path : Path)
  : M bool :=
  match relative_to path base_directory with
  | None =>
      logger_warning ("Path " +:+ str_path path
                      +:+ " is not relative to base directory "
                      +:+ str_path base_directory);;
      mret false
  | Some relative_path =>
      let path_parts := parts relative_path in
      (* Check if path is in excluded folder *)
      if any_in (exclude_folders cfg) path_parts then mret false
      (* If include_folders is empty, include all folders except excluded ones *)
      else if bool_decide (include_folders cfg = []) then mret true
      (* Check if path is in included folder *)
      else mret (any_in (include_folders cfg) path_parts)
  end.

(** [scan_directory(directory)], [d] being what is at [directory].  The
    generator is run to its end; the paths come in the order they are
    yielded.  Only [iterdir] raises inside the [try]: the first case is
    the loop over what it lists, the other two are the [except]
    clauses. *)
Fixpoint scan_directory (cfg : Config) (base_directory directory : Path)
    (d : node) {struct d} : M (list Path) :=
  match d with
  | Dir _ Listable entries =>
      (fix each (items : list node) : M (list Path) :=
         match items with
         | [] => mret []
         | n :: items' =>
             let item := directory // node_name n in
             enter ← (if is_dir n
                      then should_include_path cfg base_directory item
                      else mret false);
             found ←
               (if enter : bool then
                  logger_info ("Scanning directory: " +:+ str_path item);;
                  scan_directory cfg base_directory item n
                else
                  keep ← (if is_file n
                             && bool_decide (suffix item ∈ supported_types cfg)
                          then should_include_path cfg base_directory item
                          else mret false);
                  if keep : bool then
                    logger_info ("Found file: " +:+ str_path item);;
                    mret [item]
                  else mret []);
             more ← each items';
             mret (found ++ more)
         end) entries
  | Dir _ Denied _ =>
      logger_warning ("Permission denied: unable to access "
                      +:+ str_path directory);;
      mret []
  | _ =>
      logger_error ("Error scanning directory " +:+ str_path directory
                    +:+ ": " +:+ str_exn (iterdir_error directory d));;
      mret []
  end.

(** What listing a path that does not exist raises. *)
Definition not_found (p : Path) : exn := OSError 2 "No such file or directory" p.

(** [list(self.scan_directory(directory))] for a path. *)
Definition scan_path (cfg : Config) (fs : Filesystem)
    (base_directory directory : Path) : M (list Path) :=
  match lookup_path fs directory with
  | Some d => scan_directory cfg base_directory directory d
  | None =>
      logger_error ("Error scanning directory " +:+ str_path directory
                    +:+ ": " +:+ str_exn (not_found directory));;
      mret []
  end.

Definition compile_directory (cfg : Config) (fs : Filesystem)
    (base_directory directory : Path) : M (list FileRecord) :=
  files ← scan_path cfg fs base_directory directory;
  let total_files := length files in
  logger_info ("Found " +:+ Text.str_nat total_files +:+ " files to analyze");;
  analyze_task ← progress_add_task "[cyan]Analyzing files..." total_files;
  results ← for_each files (λ file_path results,
    file_analysis ← analyze_file cfg fs file_path;
    results ← match file_analysis with
              | Some r =>
                  logger_info ("Analyzed file: " +:+ str_path file_path);;
                  mret (results ++ [r])
              | None =>
                  logger_warning ("Failed to analyze file: "
                                  +:+ str_path file_path);;
                  mret results
              end;
    progress_advance analyze_task;;
    mret results) [];
  progress_remove_task analyze_task;;
  logger_info ("Completed analysis. Found " +:+ Text.str_nat (length results)
               +:+ " valid files.");;
  mret results.

(** [collections.Counter(keys)] *)
Definition Counter (keys : list string) : gmap string nat :=
  foldl (λ counts k, <[k := S (default 0 (counts !! k))]> counts) ∅ keys.

(** The keys of [Counter(keys)] in the order a dictionary keeps them:
    that of their first occurrence. *)
Definition keys_in_order (keys : list string) : list string :=
  foldl (λ seen k, if decide (k ∈ seen) then seen else seen ++ [k]) [] keys.

Definition sum_N (l : list N) : N := foldr N.add 0%N l.

(** The key of [sorted(..., key=lambda x: (x.is_file(), x.name))] and
    the order of such pairs: [False] before [True], then the names by
    code point. *)
Definition sort_key (n : node) : bool * string := (is_file n, node_name n).

Definition key_le (a b : bool * string) : bool :=
  match a.1, b.1 with
  | false, true => true
  | true, false => false
  | _, _ => String.leb a.2 b.2
  end.

Fixpoint insert_by {A} (key : A → bool * string) (x : A) (l : list A) : list A :=
  match l with
  | [] => [x]
  | y :: l' =>
      if key_le (key x) (key y) then x :: l else y :: insert_by key x l'
  end.

(** [sorted(l, key=key)]: a stable insertion sort. *)
Definition sorted {A} (key : A → bool * string) (l : list A) : list A :=
  foldr (insert_by key) [] l.

(** [generate_directory_structure(directory, prefix)], [d] being what
    is at [directory].  [iterdir] is not guarded here: what it raises is
    the result.  Each entry carries the rendering of its own subtree
    through the sort, which keeps the recursion structural; the loop
    asks for it where the source makes the recursive call. *)
Fixpoint generate_directory_structure (cfg : Config) (directory : Path)
    (d : node) (prefix : string) {struct d} : exn + string :=
  match d with
  | Dir _ Listable entries =>
      let items :=
        sorted (λ x, sort_key x.1)
          ((λ n, (n, generate_directory_structure cfg (directory // node_name n) n))
             <$> entries) in
      (fix each (index : nat) (rest : list (node * (string → exn + string)))
           (structure : string) : exn + string :=
         match rest with
         | [] => inr structure
         | (item, subtree) :: rest' =>
             if bool_decide (node_name item ∈ exclude_folders cfg)
             then each (S index) rest' structure
             else
               let is_last := bool_decide (index = length items - 1) in
               let structure :=
                 structure +:+ prefix +:+ (if is_last then "└── " else "├── ")
                 +:+ node_name item +:+ nl in
               if is_dir item then
                 match subtree (prefix +:+ (if is_last then "    " else "│   ")) with
                 | inr below => each (S index) rest' (structure +:+ below)
                 | inl e => inl e
                 end
               else each (S index) rest' structure
         end) 0 items ""
  | _ => inl (iterdir_error directory d)
  end.

Definition get_readme_content (cfg : Config) (fs : Filesystem) (directory : Path)
  : M string :=
  let readme_path := directory // "README.md" in
  if bool_decide (is_Some (lookup_path fs readme_path))
  then read_file_content cfg fs readme_path
  else mret "".

(** [len(text.splitlines())]: a line ends at a line feed, carriage
    return (with the line feed after it), vertical tab, form feed, file,
    group or record separator, or next-line character. *)
Definition is_linebreak (c : ascii) : bool :=
  bool_decide (nat_of_ascii c ∈ [10; 11; 12; 13; 28; 29; 30; 133]).

Fixpoint count_lines (s : list ascii) (pending : bool) : nat :=
  match s with
  | [] => if pending then 1 else 0
  | c :: s' =>
      if is_linebreak c then
        match s' with
        | x :: s'' =>
            if bool_decide (nat_of_ascii c = 13) && bool_decide (nat_of_ascii x = 10)
            then S (count_lines s'' false)
            else S (count_lines s' false)
        | [] => 1
        end
      else count_lines s' true
  end.

Definition splitlines_len (text : string) : nat :=
  count_lines (Text.chars text) false.

(** The two lines [generate_report] adds for a file. *)
Definition header_line (file_count total_files : nat) (result : FileRecord)
    (file_tokens : N) : string :=
  "### " +:+ Text.str_nat file_count +:+ "/" +:+ Text.str_nat total_files
  +:+ ": " +:+ file result +:+ " " +:+ language result +:+ " "
  +:+ "[" +:+ Text.str_nat (lines result) +:+ " "
  +:+ Text.str_nat (characters result) +:+ " "
  +:+ Text.str_nat (functions result) +:+ " "
  +:+ Text.str_nat (classes result) +:+ " "
  +:+ Text.str_nat (methods result) +:+ " "
  +:+ Text.str_nat (variables result) +:+ " "
  +:+ Text.str_nat (comments result) +:+ " | Tokens: "
  +:+ Text.str_N file_tokens +:+ "]" +:+ nl.

Definition fenced_content (result : FileRecord) : string :=
  "```" +:+ language result +:+ nl +:+ content result +:+ nl
  +:+ "```" +:+ nl +:+ nl.

(** [not report_config]: the key is missing or its entry is empty. *)
Definition is_falsy (report_config : option ReportConfig) : bool :=
  match report_config with
  | None => true
  | Some rc => bool_decide (name rc = None ∧ file_types rc = None)
  end.

(** [report_type] is [str(report_type)], which is how the method uses
    its argument throughout. *)
Definition generate_report (cfg : Config) (fs : Filesystem)
    (base_directory : Path) (results : list FileRecord)
    (directory_name report_type : string) : M string :=
  logger_info ("Generating report for " +:+ Text.str_nat (length results)
               +:+ " files");;
  (* Add README.md content at the top of the report *)
  readme_content ← get_readme_content cfg fs base_directory;
  let report := "# Project: " +:+ directory_name +:+ nl +:+ nl in
  let report :=
    if decide (readme_content = "") then report
    else report +:+ "## README" +:+ nl +:+ nl +:+ readme_content +:+ nl +:+ nl in
  let report := report +:+ "## Codebase Overview" +:+ nl +:+ nl in
  (* Add total token count *)
  let total_tokens := sum_N ((λ result, count_tokens (content result)) <$> results) in
  let report := report +:+ "Total Tokens: " +:+ Text.str_N total_tokens +:+ nl +:+ nl in
  (* Add file type counts *)
  let file_type_counts := Counter (language <$> results) in
  let report := report +:+ "### File Type Counts:" +:+ nl in
  let report_config := report_types cfg !! report_type in
  if is_falsy report_config then
    logger_error ("Report type " +:+ report_type +:+ " not found in configuration");;
    mret ("Error: Report type " +:+ report_type +:+ " not found in configuration")
  else
    let file_types := default [] (report_config ≫= file_types) in
    logger_info ("File types in config: " +:+ Text.repr_list file_types);;
    logger_info ("File types found: "
                 +:+ Text.repr_list (keys_in_order (language <$> results)));;
    report ← for_each file_types (λ file_type report,
      let count := default 0 (file_type_counts !! file_type) in
      let report := report +:+ Text.capitalize file_type +:+ ": "
                    +:+ Text.str_nat count +:+ nl in
      logger_info ("Adding to report: " +:+ Text.capitalize file_type +:+ ": "
                   +:+ Text.str_nat count);;
      mret report) report;
    (* Add directory structure *)
    let report := report +:+ nl +:+ "## Directory Structure" +:+ nl in
    structure ← lift (match lookup_path fs base_directory with
                      | Some d => generate_directory_structure cfg base_directory d ""
                      | None => inl (not_found base_directory)
                      end);
    let report := report +:+ structure in
    (* Add detailed file contents *)
    let report := report +:+ nl +:+ "## Detailed File Contents" +:+ nl in
    report_task ← progress_add_task "[cyan]Generating report..." (length results);
    report ← for_each file_types (λ file_type report,
      let report := report +:+ nl +:+ "## " +:+ Text.capitalize file_type
                    +:+ " File by File" +:+ nl in
      let file_count := 0 in
      let total_files :=
        length (List.filter (λ result, bool_decide (language result = file_type))
                            results) in
      '(report, _) ← for_each results (λ result '(report, file_count),
        let '(report, file_count) :=
          if bool_decide (language result = file_type) then
            let file_count := file_count + 1 in
            let file_tokens := count_tokens (content result) in
            let report := report +:+ header_line file_count total_files result file_tokens in
            let report := report +:+ fenced_content result in
            (report, file_count)
          else (report, file_count) in
        progress_advance report_task;;
        mret (report, file_count)) (report, file_count);
      mret report) report;
    progress_remove_task report_task;;
    logger_info ("Report generated with " +:+ Text.str_nat (splitlines_len report)
                 +:+ " lines and " +:+ Text.str_N total_tokens +:+ " tokens");;
    mret report.

(** [save_report].  Making the results directory is outside the [try]:
    what it raises leaves the method.  An [OSError] from opening the
    file is printed and dropped. *)
Definition save_report (cfg : Config) (report directory_name report_type : string)
  : M unit :=
  let results_dir := results_dir cfg in
  mkdir results_dir;;
  let filename := directory_name +:+ "_report_" +:+ report_type +:+ ".md" in
  let filepath := results_dir // filename in
  save_task ← progress_add_task "[cyan]Saving report..." 100;
  try_finally
    (try_except
       (write_text filepath report;;
        progress_complete save_task 100;;
        logger_info ("Report saved to " +:+ str_path filepath);;
        console_print ("Report saved to " +:+ str_path filepath))
       (λ e, console_print ("Error saving report: " +:+ str_exn e)))
    (progress_remove_task save_task).

(** [run_report(source, report_type)] for a [source] that is a local
    path; fetching a repository is not part of the pipeline. *)
Definition run_report (cfg : Config) (fs : Filesystem) (source : Path)
    (report_type : string) : M unit :=
  (* Step 1: Determine the directory to analyze *)
  let directory_path := source in
  match lookup_path fs directory_path with
  | Some (Dir _ _ _) =>
      (* Step 2: Compile the directory *)
      console_print "[bold cyan]Analyzing files...[/bold cyan]";;
      let base_directory := directory_path in
      results ← compile_directory cfg fs base_directory directory_path;
      (* Step 3: Generate the report *)
      if bool_decide (results ≠ []) then
        logger_info ("Passing " +:+ Text.str_nat (length results)
                     +:+ " results to generate_report");;
        console_print "[bold cyan]Generating report...[/bold cyan]";;
        report ← generate_report cfg fs base_directory results
                   (path_name directory_path) report_type;
        logger_info ("Generated report has "
                     +:+ Text.str_nat (splitlines_len report) +:+ " lines");;
        (* Step 4: Save the report *)
        console_print "[bold cyan]Saving report...[/bold cyan]";;
        save_report cfg report (path_name directory_path) report_type
      else
        logger_warning "No supported files found in the directory";;
        console_print "No supported files found in the directory"
  | _ =>
      logger_error ("Invalid directory: " +:+ str_path directory_path);;
      console_print ("Invalid directory: " +:+ str_path directory_path)
  end.

End CodeCompiler.

(** ** What the methods compute

    The value of each method as a function of its arguments and the file
    system, and the document a report renders.  The methods are shown to
    compute these values whatever the state of the log, the clock, the
    console and the progress display. *)

(** The world after a computation holds the files it held before. *)
Definition same_disk (w w' : World) : Prop :=
  written w' = written w ∧ writable w' = writable w
  ∧ mkdir_error w' = mkdir_error w.

(** [m] yields [r] in every world and writes no file. *)
Definition computes {A} (m : M A) (r : exn + A) : Prop :=
  ∀ w, (m w).1 = r ∧ same_disk w (m w).2.

(** [m] returns in every world, possibly a value that depends on the
    world, and writes no file. *)
Definition succeeds {A} (m : M A) : Prop :=
  ∀ w, (∃ a, (m w).1 = inr a) ∧ same_disk w (m w).2.

(** A file at [target] in the directory [dir] can be saved: the
    directory can be made and the file opened. *)
Definition can_save (w : World) (dir target : Path) : bool :=
  match mkdir_error w dir with
  | None => writable w target
  | Some _ => false
  end.

(** [m] writes the files [out], all at [target] in [dir], when a file
    can be saved there, and nothing else. *)
Definition writes {A} (dir target : Path) (m : M A) (out : list (Path * string))
  : Prop :=
  ∀ w, written (m w).2 = (if can_save w dir target then out else []) ++ written w
       ∧ writable (m w).2 = writable w
       ∧ mkdir_error (m w).2 = mkdir_error w.

Section Values.
Context `{Runtime}.

Definition included (cfg : Config) (base_directory path : Path) : bool :=
  match relative_to path base_directory with
  | None => false
  | Some rel =>
      negb (any_in (exclude_folders cfg) (parts rel))
      && (bool_decide (include_folders cfg = [])
          || any_in (include_folders cfg) (parts rel))
  end.

(** What the walk does with one entry [n] of [directory], given the walk
    [below] of the entry's own subtree. *)
Definition scan_entry (cfg : Config) (base_directory directory : Path)
    (n : node) (below : list Path) : list Path :=
  let item := directory // node_name n in
  if is_dir n && included cfg base_directory item then below
  else if is_file n && bool_decide (suffix item ∈ supported_types cfg)
          && included cfg base_directory item
  then [item]
  else [].

Fixpoint scan_paths (cfg : Config) (base_directory directory : Path) (d : node)
  : list Path :=
  match d with
  | Dir _ Listable entries =>
      (fix each (items : list node) : list Path :=
         match items with
         | [] => []
         | n :: items' =>
             scan_entry cfg base_directory directory n
               (scan_paths cfg base_directory (directory // node_name n) n)
             ++ each items'
         end) entries
  | _ => []
  end.

Definition file_text (cfg : Config) (fs : Filesystem) (file_path : Path) : string :=
  match lookup_path fs file_path with
  | Some (File _ f) =>
      if (max_file_size cfg <? st_size f)%N then ""
      else match read_with f encodings with
           | Decoded text =>
               if over_token_limit cfg (count_tokens text) then "" else text
           | _ => ""
           end
  | _ => ""
  end.

Definition analysis (cfg : Config) (fs : Filesystem) (file_path : Path)
  : option FileRecord :=
  let text := file_text cfg fs file_path in
  if decide (text = "") then None else Some (record_of file_path text).

Definition scanned (cfg : Config) (fs : Filesystem)
    (base_directory directory : Path) : list Path :=
  match lookup_path fs directory with
  | Some d => scan_paths cfg base_directory directory d
  | None => []
  end.

Definition compiled (cfg : Config) (fs : Filesystem)
    (base_directory directory : Path) : list FileRecord :=
  omap (analysis cfg fs) (scanned cfg fs base_directory directory).

(** *** The lines of the directory tree *)

Record TreeLine := {
  line_prefix : string;
  line_last : bool;        (* drawn with the last-sibling glyph *)
  line_item : Path
}.

Definition line_text (l : TreeLine) : string :=
  line_prefix l +:+ (if line_last l then "└── " else "├── ")
  +:+ path_name (line_item l) +:+ nl.

Definition lines_text (ls : list TreeLine) : string :=
  Text.join (line_text <$> ls).

(** The lines [generate_directory_structure] draws, in order; a
    directory that cannot be listed has none. *)
Fixpoint tree_lines (cfg : Config) (directory : Path) (d : node)
    (prefix : string) {struct d} : list TreeLine :=
  match d with
  | Dir _ Listable entries =>
      let items :=
        sorted (λ x, sort_key x.1)
          ((λ n, (n, tree_lines cfg (directory // node_name n) n)) <$> entries) in
      (fix each (index : nat) (rest : list (node * (string → list TreeLine)))
         : list TreeLine :=
         match rest with
         | [] => []
         | (item, subtree) :: rest' =>
             if bool_decide (node_name item ∈ exclude_folders cfg)
             then each (S index) rest'
             else
               let is_last := bool_decide (index = length items - 1) in
               {| line_prefix := prefix; line_last := is_last;
                  line_item := directory // node_name item |}
               :: (if is_dir item
                   then subtree (prefix +:+ (if is_last then "    " else "│   "))
                   else [])
               ++ each (S index) rest'
         end) 0 items
  | _ => []
  end.

(** *** The report document *)

Record Header := {
  ordinal : nat;
  of_total : nat;
  subject : FileRecord;
  tokens : N
}.

Record Section := { tag : string; headers : list Header }.

Record ReportDocument := {
  title : string;
  readme : string;                      (* empty: no README section *)
  total_tokens : N;
  type_counts : list (string * nat);
  structure : string;
  sections : list Section
}.

Definition render_header (h : Header) : string :=
  header_line (ordinal h) (of_total h) (subject h) (tokens h)
  +:+ fenced_content (subject h).

Definition render_section (s : Section) : string :=
  nl +:+ "## " +:+ Text.capitalize (tag s) +:+ " File by File" +:+ nl
  +:+ Text.join (render_header <$> headers s).

Definition render_count (c : string * nat) : string :=
  Text.capitalize c.1 +:+ ": " +:+ Text.str_nat c.2 +:+ nl.

Definition render_overview (doc : ReportDocument) : string :=
  "# Project: " +:+ title doc +:+ nl +:+ nl
  +:+ (if decide (readme doc = "") then ""
       else "## README" +:+ nl +:+ nl +:+ readme doc +:+ nl +:+ nl)
  +:+ "## Codebase Overview" +:+ nl +:+ nl
  +:+ "Total Tokens: " +:+ Text.str_N (total_tokens doc) +:+ nl +:+ nl
  +:+ "### File Type Counts:" +:+ nl.

Definition render (doc : ReportDocument) : string :=
  render_overview doc
  +:+ Text.join (render_count <$> type_counts doc)
  +:+ nl +:+ "## Directory Structure" +:+ nl
  +:+ structure doc
  +:+ nl +:+ "## Detailed File Contents" +:+ nl
  +:+ Text.join (render_section <$> sections doc).

Definition of_language (file_type : string) (results : list FileRecord)
  : list FileRecord :=
  List.filter (λ result, bool_decide (language result = file_type)) results.

(** The headers of one section: the files of the language in the order
    of [results], numbered from [k]. *)
Fixpoint number_from (k total : nat) (l : list FileRecord) : list Header :=
  match l with
  | [] => []
  | r :: l' =>
      {| ordinal := k; of_total := total; subject := r;
         tokens := count_tokens (content r) |}
      :: number_from (S k) total l'
  end.

Definition section_of (results : list FileRecord) (file_type : string) : Section :=
  let mine := of_language file_type results in
  {| tag := file_type; headers := number_from 1 (length mine) mine |}.

Definition readme_text (cfg : Config) (fs : Filesystem) (directory : Path)
  : string :=
  if bool_decide (is_Some (lookup_path fs (directory // "README.md")))
  then file_text cfg fs (directory // "README.md")
  else "".

Definition document (cfg : Config) (fs : Filesystem) (base_directory : Path)
    (results : list FileRecord) (directory_name : string)
    (file_types : list string) (tree_text : string) : ReportDocument :=
  {| title := directory_name;
     readme := readme_text cfg fs base_directory;
     total_tokens := sum_N ((λ r, count_tokens (content r)) <$> results);
     type_counts :=
       (λ ft, (ft, default 0 (Counter (language <$> results) !! ft)))
         <$> file_types;
     structure := tree_text;
     sections := section_of results <$> file_types |}.

Definition structure_at (cfg : Config) (fs : Filesystem) (directory : Path)
  : exn + string :=
  match lookup_path fs directory with
  | Some d => generate_directory_structure cfg directory d ""
  | None => inl (not_found directory)
  end.

Definition configured_types (cfg : Config) (report_type : string) : list string :=
  default [] (report_types cfg !! report_type ≫= file_types).

Definition error_text (report_type : string) : string :=
  "Error: Report type " +:+ report_type +:+ " not found in configuration".

(** What [generate_report] returns. *)
Definition report_value (cfg : Config) (fs : Filesystem) (base_directory : Path)
    (results : list FileRecord) (directory_name report_type : string)
  : exn + string :=
  if is_falsy (report_types cfg !! report_type) then inr (error_text report_type)
  else
    match structure_at cfg fs base_directory with
    | inl e => inl e
    | inr tree_text =>
        inr (render (document cfg fs base_directory results directory_name
                       (configured_types cfg report_type) tree_text))
    end.

(** The token counts the headers of a document print. *)
Definition printed_tokens (doc : ReportDocument) : list N :=
  s ← sections doc; tokens <$> headers s.

(** Where [save_report] writes. *)
Definition report_path (cfg : Config) (directory_name report_type : string)
  : Path :=
  results_dir cfg // (directory_name +:+ "_report_" +:+ report_type +:+ ".md").

(** What [run_report] hands to [save_report]. *)
Definition run_output (cfg : Config) (fs : Filesystem) (source : Path)
    (report_type : string) : list (Path * string) :=
  match lookup_path fs source with
  | Some (Dir _ _ _) =>
      let results := compiled cfg fs source source in
      if bool_decide (results ≠ []) then
        match report_value cfg fs source results (path_name source) report_type with
        | inr report => [(report_path cfg (path_name source) report_type, report)]
        | inl _ => []
        end
      else []
  | _ => []
  end.

End Values.

(** *** Trees as the walk sees them *)

(** Resolution through directories that can be listed. *)
Fixpoint reach (d : node) (rel : list string) : option node :=
  match rel with
  | [] => Some d
  | x :: rel' =>
      match d with
      | Dir _ Listable entries =>
          match List.find (λ n, bool_decide (node_name n = x)) entries with
          | Some child => reach child rel'
          | None => None
          end
      | _ => None
      end
  end.

(** No directory has two entries of one name. *)
Fixpoint unique_names (d : node) : bool :=
  match d with
  | Dir _ _ entries =>
      bool_decide (NoDup (node_name <$> entries)) && forallb unique_names entries
  | _ => true
  end.

(** The character classes of [re] have nothing in common; the letters of
    the keywords are word characters and the parenthesis is neither. *)
Record classes_sane `{Runtime} : Prop := {
  word_not_space : ∀ c, is_word_char c = true → is_space_char c = false;
  word_d : is_word_char "d" = true;
  word_e : is_word_char "e" = true;
  word_f : is_word_char "f" = true;
  paren_not_word : is_word_char "(" = false;
  paren_not_space : is_space_char "(" = false
}.

(** ** A small project to run the pipeline on *)

Module Sample.

(** The ASCII part of the classes [\w] and [\s]. *)
Definition ascii_word (c : ascii) : bool :=
  let n := nat_of_ascii c in
  (48 <=? n) && (n <=? 57) || (65 <=? n) && (n <=? 90)
  || (97 <=? n) && (n <=? 122) || (n =? 95).

Definition ascii_space (c : ascii) : bool :=
  let n := nat_of_ascii c in
  (9 <=? n) && (n <=? 13) || (28 <=? n) && (n <=? 32).

(** A stand-in for the tokenizer: one token for each character. *)
Definition runtime : Runtime := {|
  tokenizer := λ text, N.of_nat (String.length text);
  is_word_char := ascii_word;
  is_space_char := ascii_space
|}.

(** A file of ASCII text, which every encoding decodes. *)
Definition text_file (x text : string) : node :=
  File x {| st_size := N.of_nat (String.length text);
            open_read := λ _, Decoded text |}.

Definition a_py : string :=
  "class A:" +:+ nl +:+ "    def f(self, x):" +:+ nl +:+ "        y = x" +:+ nl
  +:+ "# c" +:+ nl +:+ "def g (a): pass" +:+ nl.

(** repos/proj, with a virtual environment beside the sources. *)
Definition proj : Path := mkPath "" ["repos"; "proj"].

Definition project : node :=
  Dir "proj" Listable
    [ text_file "b.md" "hello";
      Dir "venv" Listable [text_file "x.py" "zz"];
      Dir "src" Listable [text_file "a.py" a_py; Other "sock"];
      text_file "README.md" "read me" ].

Definition fs : Filesystem := {| mount := proj; tree := Some project |}.

(** A project of two directories, the last of them excluded. *)
Definition two_dirs : node :=
  Dir "proj" Listable [Dir "src" Listable []; Dir "venv" Listable []].

Definition quiet_world : World := {|
  clock := λ n, n; readings := 0; log := []; console := [];
  tasks := []; next_task := 0; writable := λ _, true;
  mkdir_error := λ _, None; written := []
|}.

Definition with_folders (include exclude : list string) : Config := {|
  supported_types := supported_types DEFAULT_CONFIG;
  include_folders := include;
  exclude_folders := exclude;
  max_file_size := max_file_size DEFAULT_CONFIG;
  max_token_count := None;
  report_types := report_types DEFAULT_CONFIG;
  results_dir := results_dir DEFAULT_CONFIG;
  repo_dir := repo_dir DEFAULT_CONFIG
|}.

Definition with_limits (size : N) (token_count : option N) : Config := {|
  supported_types := supported_types DEFAULT_CONFIG;
  include_folders := [];
  exclude_folders := exclude_folders DEFAULT_CONFIG;
  max_file_size := size;
  max_token_count := token_count;
  report_types := report_types DEFAULT_CONFIG;
  results_dir := results_dir DEFAULT_CONFIG;
  repo_dir := repo_dir DEFAULT_CONFIG
|}.

End Sample.

From Stdlib Require DecimalNat Sorted.

(** ** More of what the methods compute *)

(** [m] yields [r] in every world, whatever else it does; [r] may depend
    on what making the directory [dir] raises. *)
Definition returns {A} (dir : Path) (m : M A) (r : option exn → exn + A)
  : Prop :=
  ∀ w, (m w).1 = r (mkdir_error w dir).

(** The tree below [d] cannot be drawn: [d] is not a directory that can
    be listed, or a directory that the tree shows below it is not. *)
Fixpoint blocked (cfg : Config) (d : node) : bool :=
  match d with
  | Dir _ Listable entries =>
      existsb (λ n, negb (bool_decide (node_name n ∈ exclude_folders cfg))
                    && is_dir n && blocked cfg n)
              entries
  | _ => true
  end.

(** The loop of [generate_directory_structure] over the sorted entries,
    each with the rendering of its subtree, from position [index] of
    [len]. *)
Fixpoint draw_loop (cfg : Config) (prefix : string) (len index : nat)
    (rest : list (node * (string → exn + string))) (structure : string)
  : exn + string :=
  match rest with
  | [] => inr structure
  | (item, subtree) :: rest' =>
      if bool_decide (node_name item ∈ exclude_folders cfg)
      then draw_loop cfg prefix len (S index) rest' structure
      else
        let is_last := bool_decide (index = len - 1) in
        let structure :=
          structure +:+ prefix +:+ (if is_last then "└── " else "├── ")
          +:+ node_name item +:+ nl in
        if is_dir item then
          match subtree (prefix +:+ (if is_last then "    " else "│   ")) with
          | inr below => draw_loop cfg prefix len (S index) rest' (structure +:+ below)
          | inl e => inl e
          end
        else draw_loop cfg prefix len (S index) rest' structure
  end.

(** The same loop of [tree_lines]. *)
Fixpoint lines_loop (cfg : Config) (directory : Path) (prefix : string)
    (len index : nat) (rest : list (node * (string → list TreeLine)))
  : list TreeLine :=
  match rest with
  | [] => []
  | (item, subtree) :: rest' =>
      if bool_decide (node_name item ∈ exclude_folders cfg)
      then lines_loop cfg directory prefix len (S index) rest'
      else
        let is_last := bool_decide (index = len - 1) in
        {| line_prefix := prefix; line_last := is_last;
           line_item := directory // node_name item |}
        :: (if is_dir item
            then subtree (prefix +:+ (if is_last then "    " else "│   "))
            else [])
        ++ lines_loop cfg directory prefix len (S index) rest'
  end.



(** What [run_report] returns or raises, [made] being what making the
    results directory raises. *)
Definition run_value `{Runtime} (cfg : Config) (fs : Filesystem) (source : Path)
    (report_type : string) (made : option exn) : exn + unit :=
  match lookup_path fs source with
  | Some (Dir _ _ _) =>
      let results := compiled cfg fs source source in
      if bool_decide (results ≠ []) then
        match report_value cfg fs source results (path_name source) report_type with
        | inr _ => match made with Some e => inl e | None => inr () end
        | inl e => inl e
        end
      else inr ()
  | _ => inr ()
  end.

(** ** More projects to run the pipeline on *)

Module More.

(** A project with a directory that cannot be listed. *)
Definition locked_project : node :=
  Dir "proj" Listable
    [ Sample.text_file "a.py" "x = 1"; Dir "locked" Denied [] ].

Definition locked_fs : Filesystem :=
  {| mount := Sample.proj; tree := Some locked_project |}.

End More.

(** ** The menus and the endpoint

    The interactive functions, as functions of what the prompts return:
    [Prompt.ask] with [choices] returns one of the choices, and the
    answers to the free prompts are the strings of the constructors
    below.  What the menus print between the prompts is left out. *)

(** [answer.split(',')] *)
Definition split_commas (answer : string) : list string :=
  Text.of_chars <$> Text.split_on "," (Text.chars answer).

(** [Path(text)]: one leading slash or more than two make the root "/",
    exactly two make it "//"; empty components and "." are dropped. *)
Definition Path_of (text : string) : Path :=
  let cs := Text.chars text in
  let is_sep := λ c : ascii, bool_decide (c = "/"%char) in
  let leading := length cs - length (Text.lstrip is_sep cs) in
  {| anchor := if leading =? 0 then "" else if leading =? 2 then "//" else "/";
     parts :=
       List.filter (λ x, negb (bool_decide (x = "")) && negb (bool_decide (x = ".")))
                   (Text.of_chars <$> Text.split_on "/" cs) |}.

(** One round of [modify_report_types]: the choices 1 to 3 with the
    answers to their prompts; choice 4 ends the rounds. *)
Inductive edit :=
| AddType (name file_types : string)
| ModifyType (report_type name file_types : string)
| DeleteType (report_type : string).

Definition modify_round (types : gmap string ReportConfig) (e : edit)
  : gmap string ReportConfig :=
  match e with
  | AddType new_name new_types =>
      let report_type := Text.str_nat (size types + 1) in
      <[report_type := {| name := Some new_name;
                          file_types := Some (split_commas new_types) |}]> types
  | ModifyType report_type new_name new_types =>
      match types !! report_type with
      | Some rc =>
          let rc := if decide (new_name = "") then rc
                    else {| name := Some new_name; file_types := file_types rc |} in
          let rc := if decide (new_types = "") then rc
                    else {| name := name rc;
                            file_types := Some (split_commas new_types) |} in
          <[report_type := rc]> types
      | None => types
      end
  | DeleteType report_type =>
      match types !! report_type with
      | Some _ => delete report_type types
      | None => types
      end
  end.

(** [modify_report_types(config)], on the rounds up to "Back". *)
Definition modify_report_types (types : gmap string ReportConfig)
    (rounds : list edit) : gmap string ReportConfig :=
  foldl modify_round types rounds.

(** One round of [display_settings_menu]: the choices 1 to 8 with what
    their prompts return; the integers are taken non-negative. *)
Inductive setting :=
| SupportedTypes (answer : string)
| IncludeFolders (answer : string)
| ExcludeFolders (answer : string)
| MaxFileSize (answer : N)
| MaxTokenCount (answer : N)
| ReportTypes (rounds : list edit)
| ResultsDir (answer : string)
| RepoDir (answer : string).

Definition settings_round (cfg : Config) (s : setting) : Config :=
  {| supported_types :=
       match s with SupportedTypes a => split_commas a | _ => supported_types cfg end;
     include_folders :=
       match s with IncludeFolders a => split_commas a | _ => include_folders cfg end;
     exclude_folders :=
       match s with ExcludeFolders a => split_commas a | _ => exclude_folders cfg end;
     max_file_size :=
       match s with MaxFileSize n => n | _ => max_file_size cfg end;
     max_token_count :=
       match s with MaxTokenCount n => Some n | _ => max_token_count cfg end;
     report_types :=
       match s with
       | ReportTypes rounds => modify_report_types (report_types cfg) rounds
       | _ => report_types cfg
       end;
     results_dir :=
       match s with ResultsDir a => Path_of a | _ => results_dir cfg end;
     repo_dir :=
       match s with RepoDir a => Path_of a | _ => repo_dir cfg end |}.

(** [display_settings_menu(config)], on the rounds up to "Back". *)
Definition display_settings_menu (cfg : Config) (rounds : list setting) : Config :=
  foldl settings_round cfg rounds.

(** What [main] does with a choice. *)
Inductive action :=
| Exit
| Settings
| StartApi
| RunReport (report_type : string).

(** The lines of [display_menu], each with what it announces; the
    report types are the entries of the dictionary. *)
Definition menu_lines (cfg : Config) : list (string * action) :=
  let settings_option := size (report_types cfg) + 1 in
  let exit_option := settings_option + 1 in
  let api_option := exit_option + 1 in
  ((λ entry, (entry.1, RunReport entry.1)) <$> map_to_list (report_types cfg))
  ++ [ (Text.str_nat settings_option, Settings);
       (Text.str_nat api_option, StartApi);
       (Text.str_nat exit_option, Exit) ].

(** The choices [display_menu] accepts. *)
Definition menu_choices (cfg : Config) : list string :=
  Text.str_nat <$> seq 1 (size (report_types cfg) + 3).

(** The branch of the loop of [main] for [choice]; [int(choice)] is
    printed back as [choice] where the report type is used. *)
Definition main_choice (cfg : Config) (choice : string) : action :=
  let exit_option := Text.str_nat (size (report_types cfg) + 2) in
  let settings_option := Text.str_nat (size (report_types cfg) + 1) in
  let api_option := Text.str_nat (size (report_types cfg) + 3) in
  if bool_decide (choice = exit_option) || bool_decide (choice = "") then Exit
  else if bool_decide (choice = settings_option) then Settings
  else if bool_decide (choice = api_option) then StartApi
  else RunReport choice.

(** The report types are numbered from 1 without a gap, as the menu
    takes them to be. *)
Definition numbered (types : gmap string ReportConfig) : Prop :=
  dom types = list_to_set (Text.str_nat <$> seq 1 (size types)).

(** The round is a deletion. *)
Definition is_delete (e : edit) : bool :=
  match e with DeleteType _ => true | _ => false end.

(** [source.startswith(("http://", "https://"))] *)
Definition is_url (source : string) : bool :=
  String.prefix "http://" source || String.prefix "https://" source.

(** The body and the status of a reply of the endpoint. *)
Inductive Body :=
| ErrorBody (error : string)
| MessageBody (message : string).

Section Endpoint.
Context `{Runtime}.

(** [run_report] for a source that is a URL, which the embedding does
    not look into. *)
Variable run_report_url : string → string → M unit.

(** [run_report(source, report_type)] for the text of a source. *)
Definition run_report_text (cfg : Config) (fs : Filesystem)
    (source report_type : string) : M unit :=
  if is_url source then run_report_url source report_type
  else run_report cfg fs (Path_of source) report_type.

(** [api_analyze], [source] and [report_type] being the fields of the
    request when they are strings and [None] when they are missing or
    null. *)
Definition api_analyze (cfg : Config) (fs : Filesystem)
    (source report_type : option string) : M (Body * nat) :=
  match source, report_type with
  | Some source, Some report_type =>
      if bool_decide (source = "") || bool_decide (report_type = "")
      then mret (ErrorBody "Source and report_type are required.", 400)
      else
        try_except
          (run_report_text cfg fs source report_type;;
           mret (MessageBody "Report generated successfully.", 200))
          (λ e, mret (ErrorBody (str_exn e), 500))
  | _, _ => mret (ErrorBody "Source and report_type are required.", 400)
  end.

End Endpoint.

(** * The embedding analysed *)

(** ** The matcher *)

Module ReFacts.
Import Re.

Section Matcher.
Context `{Runtime}.

Lemma last_cons_default {A} (a d : A) (l : list A) :
  List.last (a :: l) d = List.last l a.
Proof.
  revert a d. induction l as [|b l IH]; intros a d; [done|].
  change (List.last (b :: l) d = List.last (b :: l) a).
  by rewrite !IH.
Qed.

Lemma prev_after_0 prev s : prev_after 0 prev s = prev.
Proof. unfold prev_after. by rewrite take_0. Qed.

Lemma prev_after_S n prev c s :
  prev_after (S n) prev (c :: s) = prev_after n (Some c) s.
Proof. unfold prev_after. simpl. apply last_cons_default. Qed.

Lemma backtrack_sound k lo prev s m r :
  backtrack k lo prev s m = Some r →
  ∃ j n, lo ≤ j ∧ j ≤ m ∧ k (prev_after j prev s) (drop j s) = Some n ∧ r = j + n.
Proof.
  induction m as [|m IH]; simpl.
  - destruct (lo <=? 0) eqn:Hlo; [|done].
    destruct (k _ _) as [n|] eqn:Hk; simpl; [|done].
    intros [= <-]. apply Nat.leb_le in Hlo. exists 0, n. by rewrite Hk.
  - destruct (lo <=? S m) eqn:Hlo.
    + destruct (k _ _) as [n|] eqn:Hk; simpl.
      * intros [= <-]. apply Nat.leb_le in Hlo. exists (S m), n. by rewrite Hk.
      * intros (j & n & ? & ? & ? & ?)%IH. exists j, n. repeat split; auto with lia.
    + intros (j & n & ? & ? & ? & ?)%IH. exists j, n. repeat split; auto with lia.
Qed.

Lemma backtrack_complete k lo prev s m j n :
  lo ≤ j → j ≤ m → k (prev_after j prev s) (drop j s) = Some n →
  is_Some (backtrack k lo prev s m).
Proof.
  intros Hlo Hm Hk. induction m as [|m IH]; simpl.
  - assert (j = 0) as -> by lia. assert (lo = 0) as -> by lia.
    simpl. rewrite Hk. by eexists.
  - destruct (decide (j = S m)) as [->|Hne].
    + apply Nat.leb_le in Hlo. rewrite Hlo, Hk. by eexists.
    + destruct (lo <=? S m).
      * destruct (k (prev_after (S m) prev s) (drop (S m) s)); simpl.
        -- by eexists.
        -- apply IH; lia.
      * apply IH; lia.
Qed.

Lemma match_here_sound p prev s n :
  match_here p prev s = Some n → matches p prev s n.
Proof.
  revert prev s n. induction p as [|i p IH]; intros prev s n; simpl.
  - intros [= <-]. constructor.
  - destruct i as [|c|k|k].
    + destruct (at_boundary prev s) eqn:Hb; [|done].
      intros Hm. by constructor; [|apply IH].
    + destruct s as [|x s]; [done|]. destruct (decide (x = c)) as [->|]; [|done].
      destruct (match_here p (Some c) s) as [n'|] eqn:Hm; simpl; [|done].
      intros [= <-]. constructor. by apply IH.
    + intros (j & n' & ? & ? & Hm & ->)%backtrack_sound.
      apply matches_plus; auto.
    + intros (j & n' & ? & ? & Hm & ->)%backtrack_sound.
      apply matches_star; auto.
Qed.

Lemma match_here_complete p prev s n :
  matches p prev s n → is_Some (match_here p prev s).
Proof.
  induction 1 as [| p prev s n Hb _ IH | c p prev s n _ IH
                  | k p prev s j n ? ? _ IH | k p prev s j n ? _ IH]; simpl.
  - by eexists.
  - by rewrite Hb.
  - rewrite decide_True by done. destruct IH as [n' ->]. by eexists.
  - destruct IH as [n' Hn']. by eapply backtrack_complete.
  - destruct IH as [n' Hn']. eapply backtrack_complete; [| |done]; lia.
Qed.

(** A pattern that matches with more after it matches on its own. *)
Lemma matches_app_l p q prev s n :
  matches (p ++ q) prev s n → ∃ n', matches p prev s n'.
Proof.
  revert prev s n. induction p as [|i p IH]; intros prev s n; simpl.
  - intros _. exists 0. constructor.
  - inversion 1; subst.
    + edestruct IH as [n' ?]; [done|]. exists n'. by constructor.
    + edestruct IH as [n' ?]; [done|]. exists (S n'). by constructor.
    + edestruct IH as [n' ?]; [done|]. exists (j + n'). by constructor.
    + edestruct IH as [n' ?]; [done|]. exists (j + n'). by constructor.
Qed.

Lemma run_length_take k j s :
  j ≤ run_length k s →
  Forall (λ c, in_class k c = true) (take j s) ∧ length (take j s) = j.
Proof.
  revert s. induction j as [|j IH]; intros s Hj.
  - rewrite take_0. by split.
  - destruct s as [|c s]; simpl in Hj; [lia|].
    destruct (in_class k c) eqn:Hc; [|lia].
    destruct (IH s) as [? ?]; [lia|]. simpl. split; [by constructor|by f_equal].
Qed.

Lemma run_length_app k l t :
  Forall (λ c, in_class k c = true) l →
  (∀ c t', t = c :: t' → in_class k c = false) →
  run_length k (l ++ t) = length l.
Proof.
  intros Hl Ht. induction Hl as [|c l Hc _ IH]; simpl.
  - destruct t as [|c t']; [done|]. simpl. by rewrite (Ht c t').
  - by rewrite Hc, IH.
Qed.

(** ** The function and method heuristics *)

Section Heuristics.
Hypothesis sane : classes_sane.


Lemma method_pattern_split :
  method_pattern = function_pattern ++ lit "self".
Proof. reflexivity. Qed.

Lemma space_not_word c : is_space_char c = true → is_word_char c = false.
Proof.
  intros Hs. destruct (is_word_char c) eqn:Hw; [|done].
  apply (word_not_space sane) in Hw. congruence.
Qed.

Lemma function_shape prev s n :
  matches function_pattern prev s n →
  word_at prev = false ∧
  ∃ S W S' rest,
    s = "d"%char :: "e"%char :: "f"%char :: S ++ W ++ S' ++ "("%char :: rest ∧
    Forall (λ c, is_space_char c = true) S ∧ S ≠ [] ∧ Forall (λ c, is_word_char c = true) W ∧ W ≠ [] ∧
    Forall (λ c, is_space_char c = true) S' ∧ n = 4 + length S + length W + length S'.
Proof.
  unfold function_pattern. cbn.
  intros Hm.
  repeat match goal with
         | Hm : matches (_ :: _) _ _ _ |- _ => inversion Hm; clear Hm; subst
         | Hm : matches [] _ _ _ |- _ => inversion Hm; clear Hm; subst
         end.
  match goal with
  | Hb : at_boundary _ _ = true |- _ =>
      unfold at_boundary in Hb; simpl in Hb;
      rewrite (word_d sane) in Hb
  end.
  split; [by destruct (word_at prev)|].
  match goal with
  | H1 : ?j1 ≤ run_length Space ?s1,
    H2 : ?j2 ≤ run_length Word (drop ?j1 ?s1),
    H3 : ?j3 ≤ run_length Space (drop ?j2 (drop ?j1 ?s1)),
    H4 : _ :: ?rest = drop ?j3 _ |- _ =>
      destruct (run_length_take _ _ _ H1) as [HS HlS];
      destruct (run_length_take _ _ _ H2) as [HW HlW];
      destruct (run_length_take _ _ _ H3) as [HS' HlS'];
      exists (take j1 s1), (take j2 (drop j1 s1)),
             (take j3 (drop j2 (drop j1 s1))), rest;
      rewrite H4, !take_drop
  end.
  repeat split; try done.
  - intros E. rewrite E in HlS. simpl in HlS. lia.
  - intros E. rewrite E in HlW. simpl in HlW. lia.
  - rewrite HlS, HlW, HlS'. lia.
Qed.

(** A match of the method pattern starts where one of the function
    pattern does. *)
Lemma method_start_is_function_start prev s n :
  match_here method_pattern prev s = Some n →
  is_Some (match_here function_pattern prev s).
Proof.
  intros Hm%match_here_sound. rewrite method_pattern_split in Hm.
  apply matches_app_l in Hm as [n' Hn']. by eapply match_here_complete.
Qed.

Lemma function_needs_d prev c s :
  c ≠ "d"%char → match_here function_pattern prev (c :: s) = None.
Proof.
  intros Hc. unfold function_pattern. cbn.
  destruct (at_boundary prev (c :: s)); [|done].
  by rewrite decide_False.
Qed.

Lemma function_needs_boundary prev s :
  word_at prev = true → match_here function_pattern prev s = None.
Proof.
  intros Hp. destruct s as [|c s].
  - unfold function_pattern. cbn. by destruct (at_boundary prev []).
  - destruct (decide (c = "d"%char)) as [->|]; [|by apply function_needs_d].
    unfold function_pattern. cbn. unfold at_boundary. simpl.
    by rewrite Hp, (word_d sane).
Qed.

Lemma function_not_at_word prev W S' rest :
  Forall (λ c, is_word_char c = true) W → Forall (λ c, is_space_char c = true) S' →
  match_here function_pattern prev (W ++ S' ++ "("%char :: rest) = None.
Proof.
  intros HW HS'.
  destruct (match_here function_pattern prev _) as [n|] eqn:Hm; [|done].
  exfalso. apply match_here_sound, function_shape in Hm
    as (_ & S2 & W2 & S2' & rest2 & Heq & HS2 & HS2n & HW2 & HW2n & _ & _).
  (* the run of word characters at the start has one length *)
  assert (run_length Word (W ++ S' ++ "("%char :: rest) = length W) as Hl.
  { apply run_length_app; [done|]. intros c t' Ht. simpl.
    destruct S' as [|x S'']; simplify_eq/=.
    - apply (paren_not_word sane).
    - apply space_not_word. by inversion HS'. }
  assert (run_length Word ("d"%char :: "e"%char :: "f"%char
                           :: S2 ++ W2 ++ S2' ++ "("%char :: rest2) = 3) as Hr.
  { apply (run_length_app Word ["d"%char; "e"%char; "f"%char]).
    - repeat constructor; simpl;
        [apply (word_d sane)
        |apply (word_e sane)
        |apply (word_f sane)].
    - intros c t' Ht. destruct S2 as [|x S2'']; [done|]. simplify_eq/=.
      apply space_not_word. by inversion HS2. }
  rewrite Heq, Hr in Hl.
  destruct W as [|w1 [|w2 [|w3 [|w4 W]]]]; try done.
  injection Heq as -> -> -> Heq.
  (* and so has the run of spaces after it *)
  assert (run_length Space (S' ++ "("%char :: rest) = length S') as Hl'.
  { apply run_length_app; [done|]. intros c t' [= <- <-].
    apply (paren_not_space sane). }
  assert (run_length Space (S2 ++ W2 ++ S2' ++ "("%char :: rest2) = length S2)
    as Hr'.
  { apply run_length_app; [done|]. intros c t' Ht.
    destruct W2 as [|x W2'']; [done|]. simplify_eq/=.
    destruct (is_space_char c) eqn:Hc; [|done].
    apply space_not_word in Hc. inversion HW2; congruence. }
  rewrite <- Heq, Hl' in Hr'.
  apply (f_equal (drop (length S'))) in Heq.
  rewrite drop_app_length in Heq. rewrite Hr', drop_app_length in Heq.
  destruct W2 as [|x W2'']; [done|]. simplify_eq/=.
  inversion HW2 as [|?? Hx]; subst.
  rewrite (paren_not_word sane) in Hx. done.
Qed.

Lemma no_start_skip m prev A t :
  Forall (λ c, c ≠ "d"%char) A →
  no_start function_pattern m (List.last (Some <$> A) prev) t →
  no_start function_pattern (length A + m) prev (A ++ t).
Proof.
  intros HA. revert prev. induction HA as [|c A Hc _ IH]; intros prev Hm; [done|].
  change (Some <$> c :: A) with (Some c :: (Some <$> A)) in Hm.
  rewrite last_cons_default in Hm.
  split; [by apply function_needs_d|by apply IH].
Qed.

Lemma no_start_inside_word m prev W t :
  Forall (λ c, is_word_char c = true) W → word_at prev = true →
  no_start function_pattern m (List.last (Some <$> W) prev) t →
  no_start function_pattern (length W + m) prev (W ++ t).
Proof.
  intros HW. revert prev.
  induction HW as [|c W Hc _ IH]; intros prev Hp Hm; [done|].
  change (Some <$> c :: W) with (Some c :: (Some <$> W)) in Hm.
  rewrite last_cons_default in Hm.
  split; [by apply function_needs_boundary|by apply IH].
Qed.

Lemma spaces_not_d S : Forall (λ c, is_space_char c = true) S → Forall (λ c, c ≠ "d"%char) S.
Proof.
  intros HS. eapply Forall_impl; [done|]. intros c Hc ->. apply space_not_word in Hc.
  rewrite (word_d sane) in Hc. done.
Qed.

(** No match of the function pattern starts inside another one. *)
Lemma function_matches_apart prev c s n :
  match_here function_pattern prev (c :: s) = Some n →
  no_start function_pattern (pred n) (Some c) s.
Proof.
  intros (_ & S & W & S' & rest & Heq & HS & _ & HW & HWn & HS' & ->)
    %match_here_sound%function_shape.
  injection Heq as -> ->.
  destruct W as [|w W]; [done|]. inversion HW as [|?? Hw HW']; subst.
  replace (pred (4 + length S + length (w :: W) + length S'))
    with (length ["e"%char; "f"%char]
          + (length S + (1 + (length W + (length S' + (1 + 0)))))) by (simpl; lia).
  change ("e"%char :: "f"%char :: S ++ (w :: W) ++ S' ++ "("%char :: rest)
    with (["e"%char; "f"%char] ++ S ++ [w] ++ W ++ S' ++ ["("%char] ++ rest).
  apply no_start_skip; [by repeat constructor|].
  apply no_start_skip; [by apply spaces_not_d|].
  simpl. split.
  { apply (function_not_at_word _ (w :: W) S' rest); [by constructor|done]. }
  apply (no_start_inside_word _ (Some w) W _ HW' Hw).
  apply no_start_skip; [by apply spaces_not_d|].
  split; [|done].
  apply function_needs_d. intros E.
  pose proof (paren_not_word sane) as Hp.
  rewrite E, (word_d sane) in Hp. done.
Qed.

Lemma method_not_at_end prev : match_here method_pattern prev [] = None.
Proof. unfold method_pattern. cbn. by destruct (at_boundary prev []). Qed.

(** The scan for methods never finds more than the scan for functions,
    whatever part of a match either scan is in. *)
Lemma findall_methods_le s prev km kf :
  no_start function_pattern kf prev s →
  length (findall_at method_pattern prev s km)
  ≤ length (findall_at function_pattern prev s kf).
Proof.
  revert prev km kf. induction s as [|c s IH]; intros prev km kf Hq.
  - destruct km as [|km]; [cbn [findall_at]; rewrite method_not_at_end|];
      simpl; lia.
  - assert (∀ km', length (findall_at method_pattern (Some c) s km')
                   ≤ length (findall_at function_pattern prev (c :: s) kf))
      as Hrest.
    { intros km'. destruct kf as [|kf]; cbn [findall_at].
      - destruct (match_here function_pattern prev (c :: s)) as [n|] eqn:Hf.
        + apply function_matches_apart in Hf. cbn [length].
          specialize (IH (Some c) km' (pred n) Hf). lia.
        + by apply IH.
      - destruct Hq as [_ Hq]. by apply IH. }
    destruct km as [|km]; [|apply Hrest].
    cbn [findall_at].
    destruct (match_here method_pattern prev (c :: s)) as [n|] eqn:Hm;
      [|apply Hrest].
    destruct (method_start_is_function_start _ _ _ Hm) as [nf Hf].
    destruct kf as [|kf]; [|destruct Hq as [Hq _]; congruence].
    cbn [findall_at]. rewrite Hf. cbn [length].
    apply function_matches_apart in Hf.
    apply le_n_S, IH, Hf.
Qed.

Lemma methods_le_functions (text : string) :
  length (findall method_pattern text) ≤ length (findall function_pattern text).
Proof. apply findall_methods_le. done. Qed.

End Heuristics.
End Matcher.
End ReFacts.

(** ** Computations that only log *)

Create HintDb computes.

Lemma same_disk_refl w : same_disk w w.
Proof. by repeat split. Qed.

Lemma same_disk_trans w1 w2 w3 :
  same_disk w1 w2 → same_disk w2 w3 → same_disk w1 w3.
Proof. intros (? & ? & ?) (? & ? & ?). repeat split; congruence. Qed.

Lemma computes_ret {A} (a : A) : computes (mret a) (inr a).
Proof. intros w. split; [done|apply same_disk_refl]. Qed.

Lemma computes_ret_eq {A} (a b : A) : a = b → computes (mret a) (inr b).
Proof. intros ->. apply computes_ret. Qed.

Lemma computes_lift {A} (r : exn + A) : computes (lift r) r.
Proof. intros w. split; [done|apply same_disk_refl]. Qed.

Lemma computes_bind {A B} (m : M A) (f : A → M B) a r :
  computes m (inr a) → computes (f a) r → computes (m ≫= f) r.
Proof.
  intros Hm Hf w. destruct (Hm w) as [Hv Hd].
  unfold mbind, M_bind. destruct (m w) as [[e|a'] w']; simplify_eq/=.
  destruct (Hf w') as [? ?]. split; [done|by eapply same_disk_trans].
Qed.

Lemma computes_bind_raise {A B} (m : M A) (f : A → M B) e :
  computes m (inl e) → computes (m ≫= f) (inl e).
Proof.
  intros Hm w. destruct (Hm w) as [Hv Hd].
  unfold mbind, M_bind. by destruct (m w) as [[e'|a'] w']; simplify_eq/=.
Qed.

Lemma succeeds_bind {A B} (m : M A) (f : A → M B) r :
  succeeds m → (∀ a, computes (f a) r) → computes (m ≫= f) r.
Proof.
  intros Hm Hf w. destruct (Hm w) as [[a Hv] Hd].
  unfold mbind, M_bind. destruct (m w) as [[e|a'] w']; simplify_eq/=.
  destruct (Hf a w') as [? ?]. split; [done|by eapply same_disk_trans].
Qed.

Lemma computes_emit l msg : computes (emit l msg) (inr ()).
Proof. by intros w. Qed.

Lemma computes_logger_info msg : computes (logger_info msg) (inr ()).
Proof. apply computes_emit. Qed.

Lemma computes_logger_warning msg : computes (logger_warning msg) (inr ()).
Proof. apply computes_emit. Qed.

Lemma computes_logger_error msg : computes (logger_error msg) (inr ()).
Proof. apply computes_emit. Qed.

Lemma computes_console_print text : computes (console_print text) (inr ()).
Proof. by intros w. Qed.

Lemma computes_progress_advance id : computes (progress_advance id) (inr ()).
Proof. by intros w. Qed.

Lemma computes_progress_complete id n :
  computes (progress_complete id n) (inr ()).
Proof. by intros w. Qed.

Lemma computes_progress_remove_task id :
  computes (progress_remove_task id) (inr ()).
Proof. by intros w. Qed.

Lemma succeeds_progress_add_task descr n : succeeds (progress_add_task descr n).
Proof. intros w. split; [by eexists|done]. Qed.

#[global] Hint Resolve computes_ret computes_lift computes_logger_info
  computes_logger_warning computes_logger_error computes_console_print
  computes_progress_advance computes_progress_complete
  computes_progress_remove_task succeeds_progress_add_task : computes.

(** One step of a computation: its value, or the next statement. *)
Ltac run_step :=
  first
    [ apply computes_ret
    | apply computes_lift
    | eapply computes_bind; [solve [eauto with computes]|cbv beta]
    | eapply succeeds_bind; [solve [eauto with computes]|intros ?; cbv beta] ].

Ltac run := repeat run_step.

Lemma computes_for_each {A S} (l : list A) (body : A → S → M S)
    (g : S → A → S) (s : S) :
  (∀ a s, computes (body a s) (inr (g s a))) →
  computes (for_each l body s) (inr (foldl g s l)).
Proof.
  intros Hbody. revert s. induction l as [|a l IH]; intros s; simpl.
  - apply computes_ret.
  - eapply computes_bind; [apply Hbody|apply IH].
Qed.

(** The value of a computation does not depend on the world it runs in. *)
Lemma computes_same_value {A} (m : M A) r w1 w2 :
  computes m r → (m w1).1 = (m w2).1.
Proof. intros Hm. destruct (Hm w1) as [-> _], (Hm w2) as [-> _]. done. Qed.

(** ** The walk *)

Lemma node_ind_deep (P : node → Prop) :
  (∀ x f, P (File x f)) →
  (∀ x a entries, Forall P entries → P (Dir x a entries)) →
  (∀ x, P (Other x)) →
  ∀ n, P n.
Proof.
  intros HFile HDir HOther. fix IH 1. intros [x f|x a entries|x].
  - apply HFile.
  - apply HDir. induction entries as [|n entries IHe]; constructor; [apply IH|done].
  - apply HOther.
Qed.

Section Walk.
Context `{Runtime}.

Lemma should_include_path_value cfg base path :
  computes (should_include_path cfg base path) (inr (included cfg base path)).
Proof.
  unfold should_include_path, included.
  destruct (relative_to path base) as [rel|]; [|run].
  destruct (any_in (exclude_folders cfg) (parts rel)); simpl; [run|].
  destruct (bool_decide (include_folders cfg = [])); simpl; run.
Qed.

Lemma computes_and (b : bool) (m : M bool) v :
  computes m (inr v) →
  computes (if b then m else mret false) (inr (b && v)).
Proof. destruct b; [done|intros _; apply computes_ret]. Qed.

Lemma scan_directory_value cfg base directory d :
  computes (scan_directory cfg base directory d)
           (inr (scan_paths cfg base directory d)).
Proof.
  revert directory. induction d as [x f|x a entries IH|x] using node_ind_deep;
    intros directory; [simpl; run| |simpl; run].
  destruct a; [|simpl; run..]. simpl.
  induction IH as [|n entries Hn _ IHe]; [run|].
  eapply computes_bind; [apply computes_and, should_include_path_value|].
  eapply computes_bind; [|eapply computes_bind; [apply IHe|run]].
  unfold scan_entry.
  destruct (is_dir n && included cfg base (directory // node_name n)).
  { run. apply Hn. }
  eapply computes_bind; [apply computes_and, should_include_path_value|].
  destruct (_ && _ && _); run.
Qed.

End Walk.

(** ** Paths *)

Lemma strip_prefix_app pre rel : strip_prefix pre (pre ++ rel) = Some rel.
Proof. induction pre as [|x pre IH]; simpl; [done|]. by rewrite decide_True. Qed.

Lemma relative_to_under base rel :
  relative_to (under base rel) base = Some (mkPath "" rel).
Proof.
  unfold relative_to, under. simpl. rewrite decide_True by done.
  by rewrite strip_prefix_app.
Qed.

Lemma under_nil p : under p [] = p.
Proof. destruct p. unfold under. simpl. by rewrite app_nil_r. Qed.

Lemma under_join p rel x : under p rel // x = under p (rel ++ [x]).
Proof. unfold joinpath, under. simpl. by rewrite app_assoc. Qed.

Lemma under_under p rel rel' : under (under p rel) rel' = under p (rel ++ rel').
Proof. unfold under. simpl. by rewrite app_assoc. Qed.

Lemma join_as_under p x : p // x = under p [x].
Proof. done. Qed.

Lemma under_inj p rel rel' : under p rel = under p rel' → rel = rel'.
Proof. unfold under. intros [= E]. by apply app_inv_head in E. Qed.

Lemma path_name_under p rel x : path_name (under p (rel ++ [x])) = x.
Proof.
  unfold path_name, under. simpl. rewrite app_assoc. apply last_last.
Qed.

Lemma any_in_false folders path_parts :
  any_in folders path_parts = false ↔ ∀ x, x ∈ folders → x ∉ path_parts.
Proof.
  unfold any_in. induction folders as [|y folders IH]; simpl.
  - split; [intros _ x Hx; by apply elem_of_nil in Hx|done].
  - rewrite orb_false_iff, IH, bool_decide_eq_false. split.
    + intros [Hy Hf] x [->|Hx]%elem_of_cons; auto.
    + intros Hall. split; [apply Hall; left|intros x Hx; apply Hall; by right].
Qed.

Lemma any_in_true folders path_parts :
  any_in folders path_parts = true ↔ ∃ x, x ∈ folders ∧ x ∈ path_parts.
Proof.
  unfold any_in. induction folders as [|y folders IH]; simpl.
  - split; [done|]. intros (x & Hx & _). by apply elem_of_nil in Hx.
  - rewrite orb_true_iff, IH, bool_decide_eq_true. split.
    + intros [Hy|(x & ? & ?)]; [exists y; split; [left|done]|].
      exists x. split; [by right|done].
    + intros (x & [->|Hx]%elem_of_cons & ?); [by left|right; eauto].
Qed.

(** ** The filter *)

Lemma included_spec cfg base path :
  included cfg base path = true ↔
  ∃ rel, relative_to path base = Some rel
         ∧ (∀ x, x ∈ exclude_folders cfg → x ∉ parts rel)
         ∧ (include_folders cfg = []
            ∨ ∃ x, x ∈ include_folders cfg ∧ x ∈ parts rel).
Proof.
  unfold included. destruct (relative_to path base) as [rel|].
  - rewrite andb_true_iff, negb_true_iff, any_in_false, orb_true_iff,
      bool_decide_eq_true, any_in_true.
    split; [intros [? ?]; by exists rel|].
    by intros (? & [= <-] & ? & ?).
  - split; [done|]. by intros (? & ? & _).
Qed.

Section WalkFacts.
Context `{Runtime}.

Lemma scan_entry_elem cfg base directory n below p :
  p ∈ scan_entry cfg base directory n below →
  (is_dir n = true ∧ included cfg base (directory // node_name n) = true
   ∧ p ∈ below)
  ∨ (is_file n = true ∧ p = directory // node_name n
     ∧ suffix p ∈ supported_types cfg ∧ included cfg base p = true).
Proof.
  unfold scan_entry.
  destruct (is_dir n && included cfg base _) eqn:Hd.
  { apply andb_true_iff in Hd as [? ?]. by left. }
  destruct (is_file n && bool_decide _ && included cfg base _) eqn:Hf.
  - apply andb_true_iff in Hf as [[? ?%bool_decide_eq_true]%andb_true_iff ?].
    intros ->%list_elem_of_singleton. by right.
  - by intros ?%elem_of_nil.
Qed.

(** Every path the walk yields passed the filter. *)
Lemma scan_paths_included cfg base directory d p :
  p ∈ scan_paths cfg base directory d → included cfg base p = true.
Proof.
  revert directory. induction d as [x f|x a entries IH|x] using node_ind_deep;
    intros directory; simpl; [by intros ?%elem_of_nil| |by intros ?%elem_of_nil].
  destruct a; [|by intros ?%elem_of_nil..].
  induction IH as [|n entries Hn _ IHe]; [by intros ?%elem_of_nil|].
  intros [Hp|Hp]%elem_of_app; [|by apply IHe].
  apply scan_entry_elem in Hp as [(_ & _ & Hp)|(_ & _ & _ & ?)]; [|done].
  by eapply Hn.
Qed.

(** Every path the walk yields lies below the directory walked. *)
Lemma scan_paths_below cfg base directory d p :
  p ∈ scan_paths cfg base directory d →
  ∃ x rest, p = under directory (x :: rest).
Proof.
  revert directory. induction d as [x f|x a entries IH|x] using node_ind_deep;
    intros directory; simpl; [by intros ?%elem_of_nil| |by intros ?%elem_of_nil].
  destruct a; [|by intros ?%elem_of_nil..].
  induction IH as [|n entries Hn _ IHe]; [by intros ?%elem_of_nil|].
  intros [Hp|Hp]%elem_of_app; [|by apply IHe].
  apply scan_entry_elem in Hp as [(_ & _ & Hp)|(_ & -> & _)].
  - apply Hn in Hp as (y & rest & ->). exists (node_name n), (y :: rest).
    rewrite join_as_under, under_under. done.
  - by exists (node_name n), [].
Qed.

Lemma scan_entry_below cfg base directory n p :
  p ∈ scan_entry cfg base directory n
        (scan_paths cfg base (directory // node_name n) n) →
  ∃ rest, p = under directory (node_name n :: rest).
Proof.
  intros [(_ & _ & Hp)|(_ & -> & _)]%scan_entry_elem; [|by exists []].
  apply scan_paths_below in Hp as (y & rest & ->). exists (y :: rest).
  by rewrite join_as_under, under_under.
Qed.

End WalkFacts.

Section WalkCount.
Context `{Runtime}.

Lemma scan_paths_dir cfg base directory x entries :
  scan_paths cfg base directory (Dir x Listable entries)
  = flat_map (λ n, scan_entry cfg base directory n
                     (scan_paths cfg base (directory // node_name n) n))
             entries.
Proof. simpl. induction entries as [|n entries IH]; simpl; [done|]. by rewrite IH. Qed.

Lemma find_name_spec y entries child :
  List.find (λ n, bool_decide (node_name n = y)) entries = Some child →
  node_name child = y ∧ child ∈ entries.
Proof.
  intros Hf. apply find_some in Hf as [Hin Hy].
  apply bool_decide_eq_true in Hy. by apply list_elem_of_In in Hin.
Qed.

Lemma reach_file_name d rel x f :
  reach d rel = Some (File x f) → rel ≠ [] → List.last rel "" = x.
Proof.
  revert d. induction rel as [|y rel IH]; intros d Hr Hne; [done|].
  simpl in Hr. destruct d as [|? [] entries|]; try done.
  destruct (List.find _ entries) as [child|] eqn:Hf; [|done].
  apply find_name_spec in Hf as [Hy _].
  destruct rel as [|z rel]; [by simplify_eq/=|].
  change (List.last (z :: rel) "" = x). by eapply IH.
Qed.

Lemma count_occ_zero (l : list Path) p :
  p ∉ l → count_occ Path_eq_dec l p = 0.
Proof. rewrite list_elem_of_In. apply count_occ_not_In. Qed.

(** Among the entries of a directory only the one named [y] yields
    paths that start with [y]. *)
Lemma count_in_entries cfg base directory entries y rest child :
  NoDup (node_name <$> entries) →
  List.find (λ n, bool_decide (node_name n = y)) entries = Some child →
  count_occ Path_eq_dec
    (flat_map (λ n, scan_entry cfg base directory n
                      (scan_paths cfg base (directory // node_name n) n))
              entries)
    (under directory (y :: rest))
  = count_occ Path_eq_dec
      (scan_entry cfg base directory child
         (scan_paths cfg base (directory // node_name child) child))
      (under directory (y :: rest)).
Proof.
  assert (∀ n, node_name n ≠ y →
    count_occ Path_eq_dec
      (scan_entry cfg base directory n
         (scan_paths cfg base (directory // node_name n) n))
      (under directory (y :: rest)) = 0) as Hother.
  { intros n Hn. apply count_occ_zero.
    intros (rest' & [= E _]%under_inj)%scan_entry_below. done. }
  induction entries as [|n entries IH]; [done|].
  intros [Hn Hnd]%NoDup_cons. simpl. rewrite count_occ_app.
  destruct (bool_decide (node_name n = y)) eqn:Hy.
  - intros [= <-]. apply bool_decide_eq_true in Hy.
    rewrite (count_occ_zero (flat_map _ _)); [lia|].
    intros (m & Hm & Hp)%list_elem_of_In%in_flat_map.
    apply list_elem_of_In in Hp.
    apply scan_entry_below in Hp as (rest' & [= E _]%under_inj).
    change (node_name n ∉ node_name <$> entries) in Hn.
    apply Hn. rewrite Hy, E. apply list_elem_of_fmap. exists m.
    split; [done|by apply list_elem_of_In].
  - intros Hf. apply bool_decide_eq_false in Hy.
    rewrite Hother by done. by rewrite IH.
Qed.

Lemma included_under cfg base rel :
  include_folders cfg = [] →
  (∀ c, c ∈ rel → c ∉ exclude_folders cfg) →
  included cfg base (under base rel) = true.
Proof.
  intros Hinc Hex. apply included_spec. exists (mkPath "" rel).
  split; [apply relative_to_under|]. split; [|by left].
  intros x Hx Hin. by apply (Hex x).
Qed.

(** With no include list, a file the walk can reach, of a supported
    type and with no excluded component, is yielded once. *)
Lemma scan_paths_once cfg base rel : ∀ d pre x f,
  include_folders cfg = [] →
  unique_names d = true →
  is_dir d = true →
  reach d rel = Some (File x f) →
  (∀ c, c ∈ pre ++ rel → c ∉ exclude_folders cfg) →
  name_suffix x ∈ supported_types cfg →
  count_occ Path_eq_dec (scan_paths cfg base (under base pre) d)
            (under base (pre ++ rel)) = 1.
Proof.
  induction rel as [|y rel IH]; intros d pre x f Hinc Hu Hd Hr Hex Hsup.
  { simpl in Hr. by simplify_eq. }
  simpl in Hr. destruct d as [|dn [] entries|]; try done.
  destruct (List.find _ entries) as [child|] eqn:Hf; [|done].
  simpl in Hu. apply andb_true_iff in Hu as [Hnd%bool_decide_eq_true Hall].
  rewrite scan_paths_dir, <- under_under.
  rewrite (count_in_entries _ _ _ _ _ _ child) by done.
  destruct (find_name_spec _ _ _ Hf) as [Hname Hin].
  assert (unique_names child = true) as Huc.
  { rewrite forallb_forall in Hall. apply Hall. by apply list_elem_of_In. }
  assert (included cfg base (under base pre // node_name child) = true) as Hi.
  { rewrite under_join. apply included_under; [done|].
    intros c Hc. apply Hex. rewrite Hname in Hc.
    apply elem_of_app in Hc as [Hc|Hc]; apply elem_of_app; [by left|].
    apply list_elem_of_singleton in Hc as ->. right. left. }
  unfold scan_entry. rewrite Hi, !andb_true_r.
  destruct rel as [|z rel].
  - simpl in Hr. simplify_eq/=.
    rewrite bool_decide_true.
    + rewrite under_under, <- under_join. by rewrite count_occ_cons_eq.
    + unfold suffix. by rewrite under_join, path_name_under.
  - assert (is_dir child = true) as Hdc.
    { simpl in Hr. by destruct child as [|? [] ?|]. }
    rewrite Hdc, under_under, Hname, under_join.
    replace (pre ++ y :: z :: rel) with ((pre ++ [y]) ++ z :: rel)
      by (by rewrite <- app_assoc).
    eapply IH; try done.
    intros c Hc. apply Hex. by rewrite <- app_assoc in Hc.
Qed.

End WalkCount.

(** ** Strings *)

Lemma append_assoc (a b c : string) : (a +:+ b) +:+ c = a +:+ (b +:+ c).
Proof.
  induction a as [|x a IH]; [done|].
  change (String x ((a +:+ b) +:+ c) = String x (a +:+ (b +:+ c))).
  by rewrite IH.
Qed.

Lemma append_nil_r (a : string) : a +:+ "" = a.
Proof.
  induction a as [|x a IH]; [done|].
  change (String x (a +:+ "") = String x a). by rewrite IH.
Qed.

Lemma join_app (l k : list string) :
  Text.join (l ++ k) = Text.join l +:+ Text.join k.
Proof.
  induction l as [|s l IH]; simpl; [done|]. by rewrite IH, append_assoc.
Qed.

(** ** The directory tree *)

Lemma insert_by_attach {A B} (key : A → bool * string) (f : A → B) x l :
  insert_by (λ y, key y.1) (x, f x) ((λ n, (n, f n)) <$> l)
  = (λ n, (n, f n)) <$> insert_by key x l.
Proof.
  induction l as [|y l IH]; [done|].
  rewrite fmap_cons. cbn [insert_by fst].
  destruct (key_le (key x) (key y)); [done|].
  by rewrite IH, fmap_cons.
Qed.

(** Sorting the entries with something attached to each is sorting the
    entries. *)
Lemma sorted_attach {A B} (key : A → bool * string) (f : A → B) l :
  sorted (λ y, key y.1) ((λ n, (n, f n)) <$> l)
  = (λ n, (n, f n)) <$> sorted key l.
Proof.
  unfold sorted. induction l as [|x l IH]; [done|].
  rewrite fmap_cons. cbn [foldr]. rewrite IH. apply insert_by_attach.
Qed.

Lemma insert_by_perm {A} (key : A → bool * string) x l :
  insert_by key x l ≡ₚ x :: l.
Proof.
  induction l as [|y l IH]; simpl; [done|].
  destruct (key_le (key x) (key y)); [done|]. by rewrite IH, Permutation_swap.
Qed.

Lemma sorted_perm {A} (key : A → bool * string) l : sorted key l ≡ₚ l.
Proof.
  unfold sorted. induction l as [|x l IH]; simpl; [done|].
  by rewrite insert_by_perm, IH.
Qed.

Lemma path_name_join p x : path_name (p // x) = x.
Proof. unfold path_name, joinpath. simpl. apply last_last. Qed.

Lemma lines_text_nil : lines_text [] = "".
Proof. done. Qed.

Lemma lines_text_cons l ls : lines_text (l :: ls) = line_text l +:+ lines_text ls.
Proof. done. Qed.

Lemma lines_text_app ls ks : lines_text (ls ++ ks) = lines_text ls +:+ lines_text ks.
Proof. unfold lines_text. by rewrite fmap_app, join_app. Qed.

#[global] Arguments lines_text : simpl never.

Section Tree.
Context `{Runtime}.

(** The loop of [generate_directory_structure] over the sorted entries
    [L], from position [index] of [len]. *)
Lemma structure_loop cfg directory prefix len L :
  Forall (λ n, ∀ directory prefix text,
            generate_directory_structure cfg directory n prefix = inr text →
            text = lines_text (tree_lines cfg directory n prefix)) L →
  ∀ index structure text,
  (fix each (index : nat) (rest : list (node * (string → exn + string)))
       (structure : string) : exn + string :=
     match rest with
     | [] => inr structure
     | (item, subtree) :: rest' =>
         if bool_decide (node_name item ∈ exclude_folders cfg)
         then each (S index) rest' structure
         else
           let is_last := bool_decide (index = len - 1) in
           let structure :=
             structure +:+ prefix +:+ (if is_last then "└── " else "├── ")
             +:+ node_name item +:+ nl in
           if is_dir item then
             match subtree (prefix +:+ (if is_last then "    " else "│   ")) with
             | inr below => each (S index) rest' (structure +:+ below)
             | inl e => inl e
             end
           else each (S index) rest' structure
     end) index
    ((λ n, (n, generate_directory_structure cfg (directory // node_name n) n)) <$> L)
    structure = inr text →
  text = structure +:+ lines_text
    ((fix each (index : nat) (rest : list (node * (string → list TreeLine)))
       : list TreeLine :=
       match rest with
       | [] => []
       | (item, subtree) :: rest' =>
           if bool_decide (node_name item ∈ exclude_folders cfg)
           then each (S index) rest'
           else
             let is_last := bool_decide (index = len - 1) in
             {| line_prefix := prefix; line_last := is_last;
                line_item := directory // node_name item |}
             :: (if is_dir item
                 then subtree (prefix +:+ (if is_last then "    " else "│   "))
                 else [])
             ++ each (S index) rest'
       end) index
      ((λ n, (n, tree_lines cfg (directory // node_name n) n)) <$> L)).
Proof.
  induction 1 as [|n L Hn _ IH]; intros index structure text; simpl.
  { intros [= <-]. by rewrite lines_text_nil, append_nil_r. }
  destruct (bool_decide (node_name n ∈ exclude_folders cfg)); [apply IH|].
  rewrite lines_text_cons, lines_text_app. unfold line_text. simpl.
  rewrite path_name_join.
  destruct (is_dir n).
  - destruct (generate_directory_structure _ _ n _) as [e|below] eqn:Hb; [done|].
    intros Ht%IH. apply Hn in Hb. rewrite Ht, Hb. by rewrite !append_assoc.
  - intros Ht%IH. rewrite Ht, lines_text_nil. by rewrite !append_assoc.
Qed.

(** The text of the tree is its lines, one after the other. *)
Lemma structure_lines cfg directory d prefix text :
  generate_directory_structure cfg directory d prefix = inr text →
  text = lines_text (tree_lines cfg directory d prefix).
Proof.
  revert directory prefix text.
  induction d as [x f|x a entries IH|x] using node_ind_deep;
    intros directory prefix text; [done| |done].
  destruct a; [|done..]. simpl.
  rewrite !sorted_attach, !length_fmap.
  intros Ht. eapply structure_loop in Ht; [by rewrite Ht|].
  by rewrite sorted_perm.
Qed.

(** No line of the tree is for an entry whose name is excluded. *)
Lemma tree_lines_not_excluded cfg directory d prefix l :
  l ∈ tree_lines cfg directory d prefix →
  path_name (line_item l) ∉ exclude_folders cfg.
Proof.
  revert directory prefix.
  induction d as [x f|x a entries IH|x] using node_ind_deep;
    intros directory prefix; simpl; [by intros ?%elem_of_nil| |by intros ?%elem_of_nil].
  destruct a; [|by intros ?%elem_of_nil..].
  rewrite sorted_attach, length_fmap.
  assert (Forall (λ n, ∀ directory prefix,
            l ∈ tree_lines cfg directory n prefix →
            path_name (line_item l) ∉ exclude_folders cfg)
          (sorted sort_key entries)) as HL by (by rewrite sorted_perm).
  generalize (length (sorted sort_key entries) - 1). intros last_index.
  generalize 0 as index.
  induction HL as [|n L Hn _ IHL]; intros index; simpl;
    [by intros ?%elem_of_nil|].
  destruct (bool_decide (node_name n ∈ exclude_folders cfg)) eqn:Hex;
    [apply IHL|].
  apply bool_decide_eq_false in Hex.
  intros [->|[Hl|Hl]%elem_of_app]%elem_of_cons.
  - simpl. by rewrite path_name_join.
  - destruct (is_dir n); [by eapply Hn|by apply elem_of_nil in Hl].
  - by eapply IHL.
Qed.

End Tree.

(** ** Reading and analysing *)

Section Analysis.
Context `{Runtime}.

Lemma read_file_content_value cfg fs file_path :
  computes (read_file_content cfg fs file_path)
           (inr (file_text cfg fs file_path)).
Proof.
  unfold read_file_content, file_text.
  destruct (lookup_path fs file_path) as [[x f|x a entries|x]|]; [|run..].
  destruct (max_file_size cfg <? st_size f)%N; [run|].
  destruct (read_with f encodings) as [text| |e]; [|run..].
  destruct (decide (text = "")) as [->|Hne].
  { destruct (over_token_limit cfg (count_tokens "")); run. }
  destruct (over_token_limit cfg (count_tokens text)); run.
Qed.

Lemma analyze_file_value cfg fs file_path :
  computes (analyze_file cfg fs file_path) (inr (analysis cfg fs file_path)).
Proof.
  unfold analyze_file, analysis.
  eapply computes_bind; [apply read_file_content_value|].
  destruct (decide (file_text cfg fs file_path = "")); run.
Qed.

Lemma scan_path_value cfg fs base directory :
  computes (scan_path cfg fs base directory)
           (inr (scanned cfg fs base directory)).
Proof.
  unfold scan_path, scanned.
  destruct (lookup_path fs directory); [apply scan_directory_value|run].
Qed.

Lemma foldl_collect {A B} (f : A → option B) (l : list A) (acc : list B) :
  foldl (λ acc a, match f a with Some b => acc ++ [b] | None => acc end) acc l
  = acc ++ omap f l.
Proof.
  revert acc. induction l as [|a l IH]; intros acc; simpl.
  - by rewrite app_nil_r.
  - rewrite IH. destruct (f a); [by rewrite <- app_assoc|done].
Qed.

Lemma compile_directory_value cfg fs base directory :
  computes (compile_directory cfg fs base directory)
           (inr (compiled cfg fs base directory)).
Proof.
  unfold compile_directory, compiled.
  eapply computes_bind; [apply scan_path_value|].
  run. eapply computes_bind.
  { apply (computes_for_each _ _
      (λ acc p, match analysis cfg fs p with
                | Some r => acc ++ [r]
                | None => acc
                end)).
    intros p acc. eapply computes_bind; [apply analyze_file_value|].
    destruct (analysis cfg fs p); run. }
  rewrite foldl_collect. run.
Qed.

Lemma get_readme_content_value cfg fs directory :
  computes (get_readme_content cfg fs directory)
           (inr (readme_text cfg fs directory)).
Proof.
  unfold get_readme_content, readme_text.
  destruct (bool_decide _); [apply read_file_content_value|run].
Qed.

End Analysis.

(** ** The report *)

Lemma append_nil_l (a : string) : "" +:+ a = a.
Proof. done. Qed.

Lemma foldl_append {A} (h : A → string) (l : list A) (acc : string) :
  foldl (λ acc a, acc +:+ h a) acc l = acc +:+ Text.join (h <$> l).
Proof.
  revert acc. induction l as [|a l IH]; intros acc; simpl.
  - by rewrite append_nil_r.
  - by rewrite IH, append_assoc.
Qed.

Section Report.
Context `{Runtime}.

Lemma render_header_eq k total r toks :
  render_header {| ordinal := k; of_total := total; subject := r; tokens := toks |}
  = header_line k total r toks +:+ fenced_content r.
Proof. done. Qed.

(** The inner loop of [generate_report]: the files of one type, counted
    from [file_count]. *)
Lemma section_loop file_type total results report file_count :
  (foldl (λ '(report, file_count) result,
            if bool_decide (language result = file_type) then
              ((report +:+ header_line (file_count + 1) total result
                             (count_tokens (content result)))
               +:+ fenced_content result, file_count + 1)
            else (report, file_count))
         (report, file_count) results).1
  = report +:+ Text.join (render_header <$>
      number_from (S file_count) total (of_language file_type results)).
Proof.
  revert report file_count.
  induction results as [|r results IH]; intros report file_count; simpl.
  - by rewrite append_nil_r.
  - destruct (bool_decide (language r = file_type)); simpl.
    + rewrite IH, render_header_eq.
      by rewrite Nat.add_1_r, !append_assoc.
    + apply IH.
Qed.

Lemma generate_report_value cfg fs base results directory_name report_type :
  computes (generate_report cfg fs base results directory_name report_type)
           (report_value cfg fs base results directory_name report_type).
Proof.
  unfold generate_report, report_value.
  run. eapply computes_bind; [apply get_readme_content_value|].
  destruct (is_falsy (report_types cfg !! report_type)); [run|].
  fold (configured_types cfg report_type).
  run. eapply computes_bind.
  { apply (computes_for_each _ _
      (λ report ft, report +:+ render_count
         (ft, default 0 (Counter (language <$> results) !! ft)))).
    intros ft report. run. }
  fold (structure_at cfg fs base).
  destruct (structure_at cfg fs base) as [e|tree_text].
  { apply computes_bind_raise. run. }
  run. eapply computes_bind.
  { apply (computes_for_each _ _
      (λ report ft, report +:+ render_section (section_of results ft))).
    intros ft report. eapply computes_bind.
    { apply (computes_for_each _ _
        (λ '(report, file_count) result,
           if bool_decide (language result = ft) then
             ((report +:+ header_line (file_count + 1)
                 (length (of_language ft results)) result
                 (count_tokens (content result)))
              +:+ fenced_content result, file_count + 1)
           else (report, file_count))).
      intros r [report' cnt]. destruct (bool_decide (language r = ft)); run. }
    match goal with
    | |- context [foldl ?g (?r, 0) results] =>
        pose proof (section_loop ft (length (of_language ft results)) results r 0)
          as Hloop;
        destruct (foldl g (r, 0) results) as [report' cnt]
    end.
    simpl in Hloop. subst report'. unfold render_section, section_of. simpl.
    rewrite !append_assoc. run. }
  run. apply computes_ret_eq. rewrite !foldl_append.
  unfold render, render_overview, document.
  cbn [title readme total_tokens type_counts structure sections].
  rewrite <- !list_fmap_compose.
  destruct (decide (readme_text cfg fs base = "")) as [?|?];
    by rewrite !append_assoc, ?append_nil_l.
Qed.

End Report.

(** ** Saving and running *)

Lemma writes_quiet {A} dir target (m : M A) r :
  computes m r → writes dir target m [].
Proof.
  intros Hm w. destruct (Hm w) as [_ (-> & -> & ->)].
  by destruct (can_save w dir target).
Qed.

Lemma writes_bind {A B} dir target (m : M A) (f : A → M B) a out :
  computes m (inr a) → writes dir target (f a) out →
  writes dir target (m ≫= f) out.
Proof.
  intros Hm Hf w. destruct (Hm w) as [Hv (Hw & Hwr & Hmk)].
  unfold mbind, M_bind. destruct (m w) as [[e|a'] w']; simplify_eq/=.
  destruct (Hf w') as (-> & -> & ->). unfold can_save.
  by rewrite Hw, Hwr, Hmk.
Qed.

Lemma writes_bind_raise {A B} dir target (m : M A) (f : A → M B) e :
  computes m (inl e) → writes dir target (m ≫= f) [].
Proof. intros Hm. eapply writes_quiet. by apply computes_bind_raise. Qed.

Section Run.
Context `{Runtime}.

(** [save_report] raises what making the results directory raises, and
    nothing else: a file that cannot be opened is reported and passed
    over. *)
Lemma save_report_returns cfg report directory_name report_type w :
  (save_report cfg report directory_name report_type w).1
  = match mkdir_error w (results_dir cfg) with
    | Some e => inl e
    | None => inr ()
    end.
Proof.
  unfold save_report, mkdir, try_finally, try_except, write_text, mbind, M_bind,
    progress_add_task. simpl.
  destruct (mkdir_error w (results_dir cfg)); [done|]. simpl.
  by destruct (writable w _).
Qed.

Lemma save_report_writes cfg report directory_name report_type :
  writes (results_dir cfg) (report_path cfg directory_name report_type)
         (save_report cfg report directory_name report_type)
         [(report_path cfg directory_name report_type, report)].
Proof.
  intros w.
  unfold save_report, report_path, can_save, mkdir, try_finally, try_except,
    write_text, mbind, M_bind, progress_add_task. simpl.
  destruct (mkdir_error w (results_dir cfg)); [done|]. simpl.
  by destruct (writable w _).
Qed.

Lemma run_report_writes cfg fs source report_type :
  writes (results_dir cfg) (report_path cfg (path_name source) report_type)
         (run_report cfg fs source report_type)
         (run_output cfg fs source report_type).
Proof.
  unfold run_report, run_output.
  destruct (lookup_path fs source) as [[x f|x a entries|x]|];
    try (eapply writes_quiet; run).
  eapply writes_bind; [auto with computes|].
  eapply writes_bind; [apply compile_directory_value|].
  destruct (bool_decide (compiled cfg fs source source ≠ []));
    [|eapply writes_quiet; run].
  eapply writes_bind; [auto with computes|].
  eapply writes_bind; [auto with computes|].
  pose proof (generate_report_value cfg fs source (compiled cfg fs source source)
                (path_name source) report_type) as Hgen.
  destruct (report_value cfg fs source _ _ _) as [e|report].
  { by eapply writes_bind_raise. }
  eapply writes_bind; [done|].
  eapply writes_bind; [auto with computes|].
  eapply writes_bind; [auto with computes|].
  apply save_report_writes.
Qed.

End Run.

(** ** Sums of token counts *)

Lemma sum_N_cons (x : N) (l : list N) : sum_N (x :: l) = (x + sum_N l)%N.
Proof. done. Qed.

Lemma sum_N_app (l k : list N) : sum_N (l ++ k) = (sum_N l + sum_N k)%N.
Proof.
  induction l as [|x l IH]; [done|].
  rewrite <- app_comm_cons, !sum_N_cons, IH. lia.
Qed.

Lemma sum_N_pointwise {A} (f g : A → N) (l : list A) :
  sum_N ((λ a, f a + g a)%N <$> l) = (sum_N (f <$> l) + sum_N (g <$> l))%N.
Proof.
  induction l as [|x l IH]; [done|].
  rewrite !fmap_cons, !sum_N_cons, IH. lia.
Qed.

Section Tokens.
Context `{Runtime}.

Lemma tokens_number_from k total l :
  tokens <$> number_from k total l = (λ r, count_tokens (content r)) <$> l.
Proof. revert k. induction l as [|r l IH]; intros k; simpl; [done|]. by rewrite IH. Qed.

Lemma subject_number_from k total l h :
  h ∈ number_from k total l →
  subject h ∈ l ∧ tokens h = count_tokens (content (subject h)).
Proof.
  revert k. induction l as [|r l IH]; intros k; simpl; [by intros ?%elem_of_nil|].
  intros [->|Hh]%elem_of_cons; [split; [left|done]|].
  destruct (IH _ Hh) as [? ?]. split; [by right|done].
Qed.

Lemma sum_of_language ft results :
  sum_N ((λ r, count_tokens (content r)) <$> of_language ft results)
  = sum_N ((λ r, if bool_decide (language r = ft)
                 then count_tokens (content r) else 0%N) <$> results).
Proof.
  unfold of_language. induction results as [|r results IH]; [done|].
  rewrite fmap_cons, sum_N_cons, <- IH. cbn [List.filter].
  destruct (bool_decide (language r = ft)); [by rewrite fmap_cons, sum_N_cons|done].
Qed.

(** The counts the headers print add up to each file's count taken as
    often as its language is listed. *)
Lemma printed_tokens_sum cfg fs base results directory_name fts tree_text :
  sum_N (printed_tokens
           (document cfg fs base results directory_name fts tree_text))
  = sum_N ((λ r, N.of_nat (count_occ string_dec fts (language r))
                 * count_tokens (content r))%N <$> results).
Proof.
  unfold printed_tokens, document. cbn [sections].
  induction fts as [|ft fts IH].
  - transitivity 0%N; [done|].
    induction results as [|r results IHr]; [done|].
    by rewrite fmap_cons, sum_N_cons, <- IHr.
  - rewrite fmap_cons, bind_cons, sum_N_app, IH. clear IH.
    unfold section_of at 1. cbn [headers].
    rewrite tokens_number_from, sum_of_language, <- sum_N_pointwise.
    f_equal. apply list_fmap_ext. intros _ r _.
    destruct (bool_decide (language r = ft)) eqn:Hft.
    + apply bool_decide_eq_true in Hft. rewrite count_occ_cons_eq by done. lia.
    + apply bool_decide_eq_false in Hft.
      rewrite count_occ_cons_neq by congruence. lia.
Qed.

End Tokens.

Lemma descend_file_name d rel x f :
  descend d rel = Some (File x f) → rel ≠ [] → List.last rel "" = x.
Proof.
  revert d. induction rel as [|y rel IH]; intros d Hr Hne; [done|].
  simpl in Hr. destruct d as [|? ? entries|]; try done.
  destruct (List.find _ entries) as [child|] eqn:Hf; [|done].
  apply find_some in Hf as [_ Hy%bool_decide_eq_true].
  destruct rel as [|z rel]; [by simplify_eq/=|].
  change (List.last (z :: rel) "" = x). by eapply IH.
Qed.

Lemma last_elem_of (l : list string) : l ≠ [] → List.last l "" ∈ l.
Proof.
  intros Hne. destruct (exists_last Hne) as (l' & x & ->).
  rewrite last_last. apply elem_of_app. right. left.
Qed.

(** * The properties the specification states *)

(** ** Unknown report type *)

(** C1, as the code has it.  When the report-type key is not a key of
    [report_types], [generate_report] raises nothing: it logs the error
    and returns the text "Error: Report type <key> not found in
    configuration" in place of a report, writing no file itself. *)
Theorem unknown_report_type_returns_error_text `{Runtime}
    cfg fs base results directory_name report_type w :
  report_types cfg !! report_type = None →
  let after := generate_report cfg fs base results directory_name report_type w in
  after.1 = inr ("Error: Report type " +:+ report_type
                 +:+ " not found in configuration")
  ∧ (∃ t older,
       log after.2
       = {| asctime := t; levelname := ERROR;
            message := "Report type " +:+ report_type
                       +:+ " not found in configuration" |} :: older)
  ∧ written after.2 = written w.
Proof.
  intros Hkey. cbn zeta.
  pose proof (generate_report_value cfg fs base results directory_name
                report_type w) as [Hv [Hw _]].
  unfold report_value in Hv. rewrite Hkey in Hv. simpl in Hv.
  split; [exact Hv|]. split; [|exact Hw].
  unfold generate_report. rewrite Hkey. cbn [is_falsy].
  unfold mbind, M_bind. cbn [logger_info emit].
  match goal with
  | |- context [get_readme_content cfg fs base ?w1] =>
      destruct (get_readme_content_value cfg fs base w1) as [Hr _];
      destruct (get_readme_content cfg fs base w1) as [[e|text] w2];
      [discriminate Hr|]
  end.
  simpl. by eexists _, _.
Qed.

(** The same on the sample project. *)
Lemma unknown_report_type_returns_error_text_witness :
  let after :=
    generate_report (H := Sample.runtime) DEFAULT_CONFIG Sample.fs Sample.proj
      [] "proj" "99" Sample.quiet_world in
  after.1 = inr "Error: Report type 99 not found in configuration"
  ∧ (∃ t older,
       log after.2
       = {| asctime := t; levelname := ERROR;
            message := "Report type 99 not found in configuration" |} :: older)
  ∧ written after.2 = [].
Proof.
  apply (unknown_report_type_returns_error_text (H := Sample.runtime)
           DEFAULT_CONFIG Sample.fs Sample.proj [] "proj" "99"
           Sample.quiet_world).
  vm_compute. reflexivity.
Defined.

(** C1 fails as stated: with the default configuration and the key "99"
    a run over a project with files raises nothing and saves the error
    text as the report file. *)
Lemma unknown_report_type_is_saved :
  report_types DEFAULT_CONFIG !! "99" = None
  ∧ let after :=
      run_report (H := Sample.runtime) DEFAULT_CONFIG Sample.fs Sample.proj
        "99" Sample.quiet_world in
    after.1 = inr ()
    ∧ written after.2
      = [(mkPath "" ["output"; "proj_report_99.md"],
          "Error: Report type 99 not found in configuration")].
Proof. vm_compute. done. Qed.

(** ** Exclusion *)

(** C2.  A path with a component listed in [exclude_folders] is refused
    by the filter, whatever [include_folders] holds, and is in no walk's
    output. *)
Theorem excluded_component_never_scanned cfg base path rel x :
  relative_to path base = Some rel →
  x ∈ exclude_folders cfg →
  x ∈ parts rel →
  computes (should_include_path cfg base path) (inr false)
  ∧ ∀ directory d w, ∃ paths,
      (scan_directory cfg base directory d w).1 = inr paths ∧ path ∉ paths.
Proof.
  intros Hrel Hx Hin.
  assert (included cfg base path = false) as Hinc.
  { unfold included. rewrite Hrel.
    replace (any_in (exclude_folders cfg) (parts rel)) with true; [done|].
    symmetry. apply any_in_true. eauto. }
  split.
  - rewrite <- Hinc. apply should_include_path_value.
  - intros directory d w. exists (scan_paths cfg base directory d).
    split; [apply scan_directory_value|].
    intros Hp%scan_paths_included. congruence.
Qed.

(** The same on the sample project. *)
Lemma excluded_component_never_scanned_witness :
  let cfg := Sample.with_folders ["venv"] ["venv"] in
  let path := under Sample.proj ["venv"; "x.py"] in
  computes (should_include_path cfg Sample.proj path) (inr false)
  ∧ ∀ directory d w, ∃ paths,
      (scan_directory cfg Sample.proj directory d w).1 = inr paths
      ∧ path ∉ paths.
Proof.
  apply (excluded_component_never_scanned
           (Sample.with_folders ["venv"] ["venv"]) Sample.proj
           (under Sample.proj ["venv"; "x.py"])
           (mkPath "" ["venv"; "x.py"]) "venv").
  - vm_compute. reflexivity.
  - simpl. repeat constructor.
  - simpl. repeat constructor.
Defined.

(** ** The stored path *)

Lemma compiled_from_scan `{Runtime} cfg fs base r :
  r ∈ compiled cfg fs base base →
  ∃ p, p ∈ scanned cfg fs base base
       ∧ analysis cfg fs p = Some r
       ∧ r = record_of p (file_text cfg fs p).
Proof.
  unfold compiled. intros (p & Hp & Ha)%list_elem_of_omap.
  exists p. split; [done|]. split; [done|].
  unfold analysis in Ha. destruct (decide (file_text cfg fs p = "")); [done|].
  congruence.
Qed.

Lemma scanned_below cfg fs base p :
  p ∈ scanned cfg fs base base → ∃ x rest, p = under base (x :: rest).
Proof.
  unfold scanned. destruct (lookup_path fs base) as [d|]; [|by intros ?%elem_of_nil].
  apply scan_paths_below.
Qed.

Lemma concat_app sep (l1 l2 : list string) :
  l1 ≠ [] → l2 ≠ [] →
  String.concat sep (l1 ++ l2)
  = String.concat sep l1 +:+ sep +:+ String.concat sep l2.
Proof.
  intros Hl1 Hl2. induction l1 as [|x l1 IH]; [done|].
  destruct l1 as [|y l1].
  - destruct l2 as [|z l2]; [done|]. reflexivity.
  - change (String.concat sep ((x :: y :: l1) ++ l2))
      with (x +:+ sep +:+ String.concat sep ((y :: l1) ++ l2)).
    rewrite IH by done.
    change (String.concat sep (x :: y :: l1))
      with (x +:+ sep +:+ String.concat sep (y :: l1)).
    by rewrite !append_assoc.
Qed.

(** The text of a path below [base]: that of [base], a slash, and the
    components below it. *)
Lemma str_path_under base rel :
  parts base ≠ [] → rel ≠ [] →
  str_path (under base rel)
  = str_path base +:+ "/" +:+ str_path (mkPath "" rel).
Proof.
  intros Hb Hrel. destruct base as [a ps]. simpl in Hb.
  destruct ps as [|b bs]; [done|]. destruct rel as [|x rel]; [done|].
  change (str_path (under (mkPath a (b :: bs)) (x :: rel)))
    with (a +:+ String.concat "/" ((b :: bs) ++ x :: rel)).
  change (str_path (mkPath a (b :: bs))) with (a +:+ String.concat "/" (b :: bs)).
  change (str_path (mkPath "" (x :: rel))) with (String.concat "/" (x :: rel)).
  rewrite concat_app by done. by rewrite !append_assoc.
Qed.

(** C3, as the code has it.  Every record is the one [analyze_file]
    returns for a path the walk yielded, its content what
    [read_file_content] read there, and the path it stores is the text
    of that path: the scan root as it was given, followed by the
    components of the file below the root.  For a root with components
    of its own that is the text of the root, a slash and the relative
    path; only for the root "." is it the relative path.  The header the
    report prints for a record prints the text of that path. *)
Theorem stored_path_is_walk_path `{Runtime} cfg fs base w results :
  (compile_directory cfg fs base base w).1 = inr results →
  ∃ paths,
    (scan_path cfg fs base base w).1 = inr paths
    ∧ (∀ r, r ∈ results →
         ∃ p rel,
           p ∈ paths
           ∧ (analyze_file cfg fs p w).1 = inr (Some r)
           ∧ (read_file_content cfg fs p w).1 = inr (content r)
           ∧ rel ≠ []
           ∧ p = under base rel
           ∧ relative_to p base = Some (mkPath "" rel)
           ∧ file r = str_path p
           ∧ (parts base ≠ [] →
              file r = str_path base +:+ "/" +:+ str_path (mkPath "" rel))
           ∧ (base = mkPath "" [] → file r = str_path (mkPath "" rel)))
    ∧ ∀ directory_name report_type tree_text,
        is_falsy (report_types cfg !! report_type) = false →
        structure_at cfg fs base = inr tree_text →
        let doc := document cfg fs base results directory_name
                     (configured_types cfg report_type) tree_text in
        (generate_report cfg fs base results directory_name report_type w).1
        = inr (render doc)
        ∧ ∀ s h, s ∈ sections doc → h ∈ headers s →
            ∃ p,
              p ∈ paths
              ∧ (analyze_file cfg fs p w).1 = inr (Some (subject h))
              ∧ render_header h
                = "### " +:+ Text.str_nat (ordinal h) +:+ "/"
                  +:+ Text.str_nat (of_total h) +:+ ": "
                  +:+ str_path p +:+ " " +:+ language (subject h) +:+ " "
                  +:+ "[" +:+ Text.str_nat (lines (subject h)) +:+ " "
                  +:+ Text.str_nat (characters (subject h)) +:+ " "
                  +:+ Text.str_nat (functions (subject h)) +:+ " "
                  +:+ Text.str_nat (classes (subject h)) +:+ " "
                  +:+ Text.str_nat (methods (subject h)) +:+ " "
                  +:+ Text.str_nat (variables (subject h)) +:+ " "
                  +:+ Text.str_nat (comments (subject h)) +:+ " | Tokens: "
                  +:+ Text.str_N (tokens h) +:+ "]" +:+ nl
                  +:+ fenced_content (subject h).
Proof.
  intros Hrun.
  destruct (compile_directory_value cfg fs base base w) as [Hv _].
  rewrite Hv in Hrun. injection Hrun as <-.
  exists (scanned cfg fs base base).
  split; [apply scan_path_value|].
  assert (∀ r, r ∈ compiled cfg fs base base →
            ∃ p rel,
              p ∈ scanned cfg fs base base
              ∧ (analyze_file cfg fs p w).1 = inr (Some r)
              ∧ (read_file_content cfg fs p w).1 = inr (content r)
              ∧ rel ≠ []
              ∧ p = under base rel
              ∧ relative_to p base = Some (mkPath "" rel)
              ∧ file r = str_path p) as Hrec.
  { intros r (p & Hp & Ha & Hr)%compiled_from_scan.
    pose proof (scanned_below _ _ _ _ Hp) as (x & rest & Hq).
    exists p, (x :: rest). split; [done|]. split.
    { destruct (analyze_file_value cfg fs p w) as [-> _]. by rewrite Ha. }
    split.
    { destruct (read_file_content_value cfg fs p w) as [-> _]. by rewrite Hr. }
    split; [done|]. split; [done|].
    split; [rewrite Hq; apply relative_to_under|]. by rewrite Hr. }
  split.
  - intros r Hr. destruct (Hrec r Hr) as (p & rel & Hp & Ha & Hc & Hne & Hq & Hrel & Hf).
    exists p, rel. repeat (split; [done|]). split.
    + intros Hb. rewrite Hf, Hq. by apply str_path_under.
    + intros ->. rewrite Hf, Hq. unfold under. simpl. done.
  - intros directory_name report_type tree_text Hkey Htree doc. split.
    + destruct (generate_report_value cfg fs base (compiled cfg fs base base)
                  directory_name report_type w) as [-> _].
      unfold report_value. by rewrite Hkey, Htree.
    + intros s h Hs Hh. unfold doc, document in Hs. cbn [sections] in Hs.
      apply list_elem_of_fmap in Hs as (ft & -> & _).
      unfold section_of in Hh. cbn [headers] in Hh.
      apply subject_number_from in Hh as [Hin _].
      unfold of_language in Hin. apply list_elem_of_In in Hin.
      apply filter_In in Hin as [Hin _]. apply list_elem_of_In in Hin.
      destruct (Hrec _ Hin) as (p & rel & Hp & Ha & _ & _ & _ & _ & Hf).
      exists p. split; [done|]. split; [done|].
      unfold render_header, header_line. by rewrite Hf, !append_assoc.
Qed.

(** The same on the sample project: the record of src/a.py stores
    "repos/proj/src/a.py". *)
Lemma stored_path_is_walk_path_witness :
  let results := compiled (H := Sample.runtime) DEFAULT_CONFIG Sample.fs
                   Sample.proj Sample.proj in
  ∃ paths,
    (scan_path DEFAULT_CONFIG Sample.fs Sample.proj Sample.proj
       Sample.quiet_world).1 = inr paths
    ∧ (∀ r, r ∈ results →
         ∃ p rel,
           p ∈ paths
           ∧ (analyze_file (H := Sample.runtime) DEFAULT_CONFIG Sample.fs p
                Sample.quiet_world).1 = inr (Some r)
           ∧ (read_file_content (H := Sample.runtime) DEFAULT_CONFIG Sample.fs p
                Sample.quiet_world).1 = inr (content r)
           ∧ rel ≠ []
           ∧ p = under Sample.proj rel
           ∧ relative_to p Sample.proj = Some (mkPath "" rel)
           ∧ file r = str_path p
           ∧ (parts Sample.proj ≠ [] →
              file r = str_path Sample.proj +:+ "/" +:+ str_path (mkPath "" rel))
           ∧ (Sample.proj = mkPath "" [] → file r = str_path (mkPath "" rel)))
    ∧ ∀ directory_name report_type tree_text,
        is_falsy (report_types DEFAULT_CONFIG !! report_type) = false →
        structure_at DEFAULT_CONFIG Sample.fs Sample.proj = inr tree_text →
        let doc := document (H := Sample.runtime) DEFAULT_CONFIG Sample.fs
                     Sample.proj results directory_name
                     (configured_types DEFAULT_CONFIG report_type) tree_text in
        (generate_report (H := Sample.runtime) DEFAULT_CONFIG Sample.fs
           Sample.proj results directory_name report_type Sample.quiet_world).1
        = inr (render doc)
        ∧ ∀ s h, s ∈ sections doc → h ∈ headers s →
            ∃ p,
              p ∈ paths
              ∧ (analyze_file (H := Sample.runtime) DEFAULT_CONFIG Sample.fs p
                   Sample.quiet_world).1 = inr (Some (subject h))
              ∧ render_header h
                = "### " +:+ Text.str_nat (ordinal h) +:+ "/"
                  +:+ Text.str_nat (of_total h) +:+ ": "
                  +:+ str_path p +:+ " " +:+ language (subject h) +:+ " "
                  +:+ "[" +:+ Text.str_nat (lines (subject h)) +:+ " "
                  +:+ Text.str_nat (characters (subject h)) +:+ " "
                  +:+ Text.str_nat (functions (subject h)) +:+ " "
                  +:+ Text.str_nat (classes (subject h)) +:+ " "
                  +:+ Text.str_nat (methods (subject h)) +:+ " "
                  +:+ Text.str_nat (variables (subject h)) +:+ " "
                  +:+ Text.str_nat (comments (subject h)) +:+ " | Tokens: "
                  +:+ Text.str_N (tokens h) +:+ "]" +:+ nl
                  +:+ fenced_content (subject h).
Proof.
  apply (stored_path_is_walk_path (H := Sample.runtime) DEFAULT_CONFIG Sample.fs
           Sample.proj Sample.quiet_world
           (compiled (H := Sample.runtime) DEFAULT_CONFIG Sample.fs
              Sample.proj Sample.proj)).
  vm_compute. reflexivity.
Defined.

(** C3 fails as stated: for the project at repos/proj the record of b.md
    stores "repos/proj/b.md", while its path relative to the scanned
    root is "b.md". *)
Lemma stored_path_keeps_the_root :
  let b_md := Sample.proj // "b.md" in
  ∃ r, (analyze_file (H := Sample.runtime) DEFAULT_CONFIG Sample.fs b_md
          Sample.quiet_world).1 = inr (Some r)
       ∧ file r = "repos/proj/b.md"
       ∧ str_path <$> relative_to b_md Sample.proj = Some "b.md"
       ∧ file r ≠ "b.md".
Proof. eexists. vm_compute. repeat split; [reflexivity..|discriminate]. Qed.

(** ** The size and token limits *)

(** C4.  For a file whose text is decoded and not empty: at exactly
    [max_file_size] bytes it is analysed (when its tokens are within the
    limit) and one byte above it is not; with a token limit configured
    and the size within bounds, at exactly [max_token_count] tokens it
    is analysed and one token above it is not. *)
Theorem limits_are_inclusive `{Runtime} cfg fs file_path x f text :
  lookup_path fs file_path = Some (File x f) →
  read_with f encodings = Decoded text →
  text ≠ "" →
  (st_size f = max_file_size cfg →
   over_token_limit cfg (count_tokens text) = false →
   computes (analyze_file cfg fs file_path)
            (inr (Some (record_of file_path text))))
  ∧ (st_size f = (max_file_size cfg + 1)%N →
     computes (analyze_file cfg fs file_path) (inr None))
  ∧ ∀ limit,
      max_token_count cfg = Some limit →
      (st_size f ≤ max_file_size cfg)%N →
      (count_tokens text = limit →
       computes (analyze_file cfg fs file_path)
                (inr (Some (record_of file_path text))))
      ∧ (count_tokens text = (limit + 1)%N →
         computes (analyze_file cfg fs file_path) (inr None)).
Proof.
  intros Hlook Hread Hne.
  pose proof (analyze_file_value cfg fs file_path) as Hv.
  unfold analysis, file_text in Hv. rewrite Hlook, Hread in Hv.
  split; [|split].
  - intros Hsize Htok. rewrite Hsize, N.ltb_irrefl, Htok in Hv.
    by rewrite decide_False in Hv.
  - intros Hsize.
    replace (max_file_size cfg <? st_size f)%N with true in Hv
      by (symmetry; apply N.ltb_lt; lia).
    done.
  - intros limit Hlimit Hsize.
    replace (max_file_size cfg <? st_size f)%N with false in Hv
      by (symmetry; apply N.ltb_ge; lia).
    unfold over_token_limit in Hv. rewrite Hlimit in Hv. split.
    + intros Htok. rewrite Htok, N.ltb_irrefl in Hv.
      by rewrite decide_False in Hv.
    + intros Htok.
      replace (limit <? count_tokens text)%N with true in Hv
        by (symmetry; apply N.ltb_lt; lia).
      done.
Qed.

(** The same on the sample project. *)
Lemma limits_are_inclusive_witness :
  let b_md := Sample.proj // "b.md" in
  let analysed cfg :=
    computes (analyze_file (H := Sample.runtime) cfg Sample.fs b_md)
             (inr (Some (record_of (H := Sample.runtime) b_md "hello"))) in
  let skipped cfg :=
    computes (analyze_file (H := Sample.runtime) cfg Sample.fs b_md)
             (inr None) in
  analysed (Sample.with_limits 5 None)
  ∧ skipped (Sample.with_limits 4 None)
  ∧ analysed (Sample.with_limits 100 (Some 5%N))
  ∧ skipped (Sample.with_limits 100 (Some 4%N)).
Proof.
  pose (b_md := Sample.proj // "b.md").
  pose (hello := {| st_size := 5; open_read := λ _, Decoded "hello" |}).
  assert (lookup_path Sample.fs b_md = Some (File "b.md" hello)) as Hlook
    by (vm_compute; reflexivity).
  assert (read_with hello encodings = Decoded "hello") as Hread
    by (vm_compute; reflexivity).
  assert ("hello" ≠ "") as Hne by discriminate.
  pose proof (λ cfg, limits_are_inclusive (H := Sample.runtime) cfg Sample.fs
                       b_md "b.md" hello "hello" Hlook Hread Hne) as Hlimits.
  split; [|split; [|split]].
  - destruct (Hlimits (Sample.with_limits 5 None)) as (Hat & _ & _).
    apply Hat; vm_compute; reflexivity.
  - destruct (Hlimits (Sample.with_limits 4 None)) as (_ & Hover & _).
    apply Hover. vm_compute. reflexivity.
  - destruct (Hlimits (Sample.with_limits 100 (Some 5%N))) as (_ & _ & Htok).
    destruct (Htok 5%N) as [Hat _]; [reflexivity|vm_compute; discriminate|].
    apply Hat. vm_compute. reflexivity.
  - destruct (Hlimits (Sample.with_limits 100 (Some 4%N))) as (_ & _ & Htok).
    destruct (Htok 4%N) as [_ Hover]; [reflexivity|vm_compute; discriminate|].
    apply Hover. vm_compute. reflexivity.
Defined.

(** ** Token totals *)

(** C5, as the code has it.  The report is the rendering of a document
    whose Total Tokens is the sum of the tokenizer's count over every
    analysed record; every header prints the tokenizer's count of its
    own record; and the counts the headers print add up to each record's
    count taken as often as its language is listed in the report type's
    file types, hence to the total when every record's language is
    listed exactly once. *)
Theorem total_tokens_and_printed_counts `{Runtime}
    cfg fs base results directory_name report_type tree_text w :
  is_falsy (report_types cfg !! report_type) = false →
  structure_at cfg fs base = inr tree_text →
  let file_types := configured_types cfg report_type in
  let doc := document cfg fs base results directory_name file_types tree_text in
  (generate_report cfg fs base results directory_name report_type w).1
  = inr (render doc)
  ∧ total_tokens doc = sum_N ((λ r, count_tokens (content r)) <$> results)
  ∧ (∀ s h, s ∈ sections doc → h ∈ headers s →
       subject h ∈ results ∧ tokens h = count_tokens (content (subject h)))
  ∧ sum_N (printed_tokens doc)
    = sum_N ((λ r, N.of_nat (count_occ string_dec file_types (language r))
                   * count_tokens (content r))%N <$> results)
  ∧ ((∀ r, r ∈ results → count_occ string_dec file_types (language r) = 1) →
     sum_N (printed_tokens doc) = total_tokens doc).
Proof.
  intros Hkey Htree file_types doc.
  split; [|split; [|split; [|split]]].
  - destruct (generate_report_value cfg fs base results directory_name
                report_type w) as [-> _].
    unfold report_value. by rewrite Hkey, Htree.
  - done.
  - intros s h Hs Hh. unfold doc, document in Hs. cbn [sections] in Hs.
    apply list_elem_of_fmap in Hs as (ft & -> & _).
    unfold section_of in Hh. cbn [headers] in Hh.
    apply subject_number_from in Hh as [Hin ?]. split; [|done].
    unfold of_language in Hin. apply list_elem_of_In in Hin.
    apply filter_In in Hin as [Hin _]. by apply list_elem_of_In.
  - apply printed_tokens_sum.
  - intros Honce. unfold doc. rewrite printed_tokens_sum.
    unfold document. cbn [total_tokens]. f_equal.
    apply list_fmap_ext. intros i r Hr.
    rewrite Honce by (by eapply list_elem_of_lookup_2). lia.
Qed.

(** The same on the sample project. *)
Lemma total_tokens_and_printed_counts_witness :
  let results :=
    compiled (H := Sample.runtime) DEFAULT_CONFIG Sample.fs Sample.proj
      Sample.proj in
  ∃ tree_text doc,
    (generate_report (H := Sample.runtime) DEFAULT_CONFIG Sample.fs Sample.proj
       results "proj" "1" Sample.quiet_world).1 = inr (render doc)
    ∧ doc = document (H := Sample.runtime) DEFAULT_CONFIG Sample.fs Sample.proj
              results "proj" ["py"; "ts"; "js"; "md"; "txt"] tree_text
    ∧ sum_N (printed_tokens doc) = total_tokens doc.
Proof.
  intros results.
  destruct (structure_at DEFAULT_CONFIG Sample.fs Sample.proj)
    as [e|tree_text] eqn:Htree; [vm_compute in Htree; discriminate|].
  exists tree_text. eexists.
  destruct (total_tokens_and_printed_counts (H := Sample.runtime) DEFAULT_CONFIG
              Sample.fs Sample.proj results "proj" "1" tree_text
              Sample.quiet_world) as (Hrun & _ & _ & _ & Honce).
  - vm_compute. reflexivity.
  - exact Htree.
  - split; [exact Hrun|]. split; [reflexivity|].
    apply Honce. intros r Hr. apply list_elem_of_In in Hr.
    vm_compute in Hr. destruct Hr as [<-|[<-|[<-|[]]]]; vm_compute; reflexivity.
Defined.

(** C5 fails as stated: on the sample project the default report type
    "2" lists py, ts and js; the Markdown files are counted in Total
    Tokens (75) but have no header, and the headers print 63. *)
Lemma total_tokens_exceed_printed :
  let results :=
    compiled (H := Sample.runtime) DEFAULT_CONFIG Sample.fs Sample.proj
      Sample.proj in
  ∃ tree_text,
    let doc :=
      document (H := Sample.runtime) DEFAULT_CONFIG Sample.fs Sample.proj
        results "proj" ["py"; "ts"; "js"] tree_text in
    (generate_report (H := Sample.runtime) DEFAULT_CONFIG Sample.fs Sample.proj
       results "proj" "2" Sample.quiet_world).1 = inr (render doc)
    ∧ total_tokens doc = 75%N
    ∧ sum_N (printed_tokens doc) = 63%N.
Proof.
  intros results.
  destruct (structure_at DEFAULT_CONFIG Sample.fs Sample.proj)
    as [e|tree_text] eqn:Htree; [vm_compute in Htree; discriminate|].
  exists tree_text. injection Htree as <-. vm_compute. done.
Qed.

(** ** Completeness of the walk *)

(** C6.  With an empty [include_folders], a file the walk can reach
    below the root, whose extension is supported and none of whose
    components is excluded, is yielded by the walk exactly once. *)
Theorem supported_file_scanned_once cfg base d rel x f w :
  include_folders cfg = [] →
  is_dir d = true →
  unique_names d = true →
  reach d rel = Some (File x f) →
  name_suffix x ∈ supported_types cfg →
  (∀ c, c ∈ rel → c ∉ exclude_folders cfg) →
  ∃ paths,
    (scan_directory cfg base base d w).1 = inr paths
    ∧ count_occ Path_eq_dec paths (under base rel) = 1.
Proof.
  intros Hinc Hd Hu Hr Hsup Hex. exists (scan_paths cfg base base d).
  split; [apply scan_directory_value|].
  pose proof (scan_paths_once cfg base rel d [] x f Hinc Hu Hd Hr Hex Hsup) as Hc.
  by rewrite under_nil in Hc.
Qed.

(** The same on the sample project. *)
Lemma supported_file_scanned_once_witness :
  ∃ paths,
    (scan_directory DEFAULT_CONFIG Sample.proj Sample.proj Sample.project
       Sample.quiet_world).1 = inr paths
    ∧ count_occ Path_eq_dec paths (under Sample.proj ["src"; "a.py"]) = 1.
Proof.
  apply (supported_file_scanned_once DEFAULT_CONFIG Sample.proj Sample.project
           ["src"; "a.py"] "a.py"
           {| st_size := N.of_nat (String.length Sample.a_py);
              open_read := λ _, Decoded Sample.a_py |}).
  - reflexivity.
  - reflexivity.
  - vm_compute. reflexivity.
  - vm_compute. reflexivity.
  - simpl. repeat constructor.
  - intros c Hc Hex. apply list_elem_of_In in Hc, Hex. simpl in Hc, Hex.
    destruct Hc as [<-|[<-|[]]];
      repeat (destruct Hex as [Hex|Hex]; [discriminate Hex|]); exact Hex.
Defined.

(** ** Determinism *)

(** C7.  For a fixed file system, configuration and report type, the
    records [compile_directory] returns, the text [generate_report]
    returns and the file [run_report] saves, where the results directory
    can be made and the file opened, are the same in any two worlds: the
    clock, the log, the console and the progress display have no part in
    them. *)
Theorem report_is_deterministic `{Runtime} cfg fs source report_type :
  (∀ w1 w2,
     (compile_directory cfg fs source source w1).1
     = (compile_directory cfg fs source source w2).1)
  ∧ (∀ results directory_name w1 w2,
       (generate_report cfg fs source results directory_name report_type w1).1
       = (generate_report cfg fs source results directory_name report_type w2).1)
  ∧ ∃ saved, ∀ w,
      written (run_report cfg fs source report_type w).2
      = (if can_save w (results_dir cfg)
              (report_path cfg (path_name source) report_type)
         then saved else [])
        ++ written w.
Proof.
  split; [|split].
  - intros w1 w2. eapply computes_same_value, compile_directory_value.
  - intros results directory_name w1 w2.
    eapply computes_same_value, generate_report_value.
  - exists (run_output cfg fs source report_type). intros w.
    apply run_report_writes.
Qed.

(** ** The glyphs of the tree *)

(** C8 does not hold of the code.  In a directory whose entries are src
    and venv, venv being excluded, src is the only and therefore the
    last entry shown, yet it is drawn with the glyph of a non-last
    sibling: the position is compared with the number of all entries,
    not of those shown. *)
Theorem last_shown_entry_drawn_as_inner :
  generate_directory_structure DEFAULT_CONFIG Sample.proj Sample.two_dirs ""
  = inr ("├── src" +:+ nl)
  ∧ tree_lines DEFAULT_CONFIG Sample.proj Sample.two_dirs ""
    = [{| line_prefix := ""; line_last := false;
          line_item := Sample.proj // "src" |}].
Proof. vm_compute. done. Qed.

(** ** Methods and functions *)

(** C9.  In every record [analyze_file] returns, and so in every record
    of a compiled directory, the method count is at most the function
    count. *)
Theorem methods_at_most_functions `{Runtime} cfg fs :
  classes_sane →
  (∀ file_path w r,
     (analyze_file cfg fs file_path w).1 = inr (Some r) →
     methods r ≤ functions r)
  ∧ ∀ base directory w results r,
      (compile_directory cfg fs base directory w).1 = inr results →
      r ∈ results → methods r ≤ functions r.
Proof.
  intros sane.
  assert (∀ file_path r, analysis cfg fs file_path = Some r →
                         methods r ≤ functions r) as Hrec.
  { intros file_path r. unfold analysis.
    destruct (decide (file_text cfg fs file_path = "")); [done|].
    intros [= <-]. by apply ReFacts.methods_le_functions. }
  split.
  - intros file_path w r Hrun.
    destruct (analyze_file_value cfg fs file_path w) as [Hv _].
    rewrite Hv in Hrun. injection Hrun as Hr. by eapply Hrec.
  - intros base directory w results r Hrun Hin.
    destruct (compile_directory_value cfg fs base directory w) as [Hv _].
    rewrite Hv in Hrun. injection Hrun as <-.
    unfold compiled in Hin. apply list_elem_of_omap in Hin as (p & _ & Hp).
    by eapply Hrec.
Qed.

(** The ASCII classes are as the patterns need them. *)
Lemma sample_classes_sane : classes_sane (H := Sample.runtime).
Proof.
  split; try reflexivity.
  intros [[] [] [] [] [] [] [] []]; vm_compute; intros; congruence.
Defined.

(** The same on the sample project. *)
Lemma methods_at_most_functions_witness :
  ∃ r, (analyze_file (H := Sample.runtime) DEFAULT_CONFIG Sample.fs
          (under Sample.proj ["src"; "a.py"]) Sample.quiet_world).1
       = inr (Some r)
       ∧ methods r = 1 ∧ functions r = 2 ∧ methods r ≤ functions r.
Proof.
  eexists. split; [vm_compute; reflexivity|].
  split; [reflexivity|]. split; [reflexivity|].
  destruct (methods_at_most_functions (H := Sample.runtime) DEFAULT_CONFIG
              Sample.fs sample_classes_sane) as [Hfile _].
  apply (Hfile (under Sample.proj ["src"; "a.py"]) Sample.quiet_world).
  vm_compute. reflexivity.
Defined.

(** ** Files named like an excluded folder *)

(** C10.  A file whose own name is listed in [exclude_folders] is in no
    walk's output, and the tree, which is the text of its lines, has no
    line for it nor for any entry of its name. *)
Theorem file_named_as_excluded_is_left_out cfg base d rel x f :
  descend d rel = Some (File x f) →
  rel ≠ [] →
  x ∈ exclude_folders cfg →
  (∀ w, ∃ paths,
     (scan_directory cfg base base d w).1 = inr paths
     ∧ under base rel ∉ paths)
  ∧ ∀ prefix text,
      generate_directory_structure cfg base d prefix = inr text →
      text = lines_text (tree_lines cfg base d prefix)
      ∧ ∀ l, l ∈ tree_lines cfg base d prefix →
             path_name (line_item l) ≠ x ∧ line_item l ≠ under base rel.
Proof.
  intros Hfile Hne Hx.
  pose proof (descend_file_name _ _ _ _ Hfile Hne) as Hlast.
  split.
  - intros w. exists (scan_paths cfg base base d).
    split; [apply scan_directory_value|].
    intros Hp%scan_paths_included%included_spec.
    destruct Hp as (rel' & Hrel & Hex & _).
    rewrite relative_to_under in Hrel. injection Hrel as <-.
    apply (Hex x Hx). simpl. rewrite <- Hlast. by apply last_elem_of.
  - intros prefix text Htext. split; [by apply structure_lines|].
    intros l Hl%tree_lines_not_excluded.
    assert (path_name (line_item l) ≠ x) as Hname by congruence.
    split; [done|]. intros Heq. apply Hname.
    destruct (exists_last Hne) as (rel' & y & ->).
    rewrite last_last in Hlast. subst y.
    by rewrite Heq, path_name_under.
Qed.

(** The same on the sample project. *)
Lemma file_named_as_excluded_is_left_out_witness :
  let cfg := Sample.with_folders [] ["README.md"] in
  (∀ w, ∃ paths,
     (scan_directory cfg Sample.proj Sample.proj Sample.project w).1 = inr paths
     ∧ under Sample.proj ["README.md"] ∉ paths)
  ∧ ∀ prefix text,
      generate_directory_structure cfg Sample.proj Sample.project prefix
      = inr text →
      text = lines_text (tree_lines cfg Sample.proj Sample.project prefix)
      ∧ ∀ l, l ∈ tree_lines cfg Sample.proj Sample.project prefix →
             path_name (line_item l) ≠ "README.md"
             ∧ line_item l ≠ under Sample.proj ["README.md"].
Proof.
  apply (file_named_as_excluded_is_left_out
           (Sample.with_folders [] ["README.md"]) Sample.proj Sample.project
           ["README.md"] "README.md"
           {| st_size := 7; open_read := λ _, Decoded "read me" |}).
  - vm_compute. reflexivity.
  - discriminate.
  - simpl. repeat constructor.
Defined.

(** * Further properties of the pipeline *)

(** ** More about the walk *)

Lemma find_name_unique y entries n :
  NoDup (node_name <$> entries) → n ∈ entries → node_name n = y →
  List.find (λ m, bool_decide (node_name m = y)) entries = Some n.
Proof.
  induction entries as [|m entries IH]; [by intros _ ?%elem_of_nil|].
  rewrite fmap_cons. intros [Hm Hnd]%NoDup_cons Hin Hy. simpl.
  apply elem_of_cons in Hin as [->|Hin].
  - by rewrite bool_decide_true.
  - rewrite bool_decide_false; [by apply IH|].
    intros Hmy. apply Hm. rewrite Hmy, <- Hy.
    apply list_elem_of_fmap. by exists n.
Qed.

Lemma unique_names_dir x a entries :
  unique_names (Dir x a entries) = true →
  NoDup (node_name <$> entries) ∧ ∀ n, n ∈ entries → unique_names n = true.
Proof.
  simpl. intros [Hnd%bool_decide_eq_true Hall]%andb_true_iff. split; [done|].
  intros n Hn. rewrite forallb_forall in Hall. apply Hall.
  by apply list_elem_of_In.
Qed.

Lemma elem_of_scan_dir cfg base directory x entries p :
  p ∈ scan_paths cfg base directory (Dir x Listable entries) →
  ∃ n, n ∈ entries
       ∧ p ∈ scan_entry cfg base directory n
               (scan_paths cfg base (directory // node_name n) n).
Proof.
  rewrite scan_paths_dir. intros (n & Hn & Hp)%list_elem_of_In%in_flat_map.
  exists n. by rewrite !list_elem_of_In.
Qed.

(** Every path the walk yields is that of a regular file of the tree
    with a supported extension. *)
Lemma scan_paths_files cfg base d : ∀ pre p,
  unique_names d = true →
  p ∈ scan_paths cfg base (under base pre) d →
  ∃ rel x f,
    rel ≠ [] ∧ p = under base (pre ++ rel)
    ∧ reach d rel = Some (File x f)
    ∧ suffix p ∈ supported_types cfg.
Proof.
  induction d as [x f|x a entries IH|x] using node_ind_deep;
    intros pre p Hu; simpl; [by intros ?%elem_of_nil| |by intros ?%elem_of_nil].
  destruct a; [|by intros ?%elem_of_nil..].
  intros (n & Hn & Hp)%(elem_of_scan_dir _ _ _ x).
  apply unique_names_dir in Hu as [Hnd Hun].
  pose proof (find_name_unique (node_name n) entries n Hnd Hn eq_refl) as Hfind.
  apply scan_entry_elem in Hp as [(_ & _ & Hp)|(Hfile & -> & Hsup & _)].
  - rewrite Forall_forall in IH. rewrite under_join in Hp.
    apply (IH n Hn) in Hp as (rel & y & f & Hne & -> & Hr & Hsup); [|by apply Hun].
    exists (node_name n :: rel), y, f. split; [done|].
    split; [by rewrite <- app_assoc|]. split; [|done].
    cbn [reach]. by rewrite Hfind.
  - destruct n as [y f| |]; try done. simpl in Hfind.
    exists [y], y, f. split; [done|]. split; [by rewrite under_join|].
    split; [|done]. cbn [reach]. by rewrite Hfind.
Qed.

(** With a non-empty [include_folders] the first component of a
    yielded path is one of them. *)
Lemma scan_paths_first cfg base d p :
  include_folders cfg ≠ [] →
  p ∈ scan_paths cfg base base d →
  ∃ x rest, p = under base (x :: rest) ∧ x ∈ include_folders cfg.
Proof.
  intros Hinc Hp.
  destruct d as [|y [] entries|]; try by apply elem_of_nil in Hp.
  apply elem_of_scan_dir in Hp as (n & Hn & Hp).
  pose proof (scan_entry_below _ _ _ _ _ Hp) as (rest & ->).
  exists (node_name n), rest. split; [done|].
  assert (included cfg base (base // node_name n) = true) as Hi.
  { apply scan_entry_elem in Hp as [(_ & ? & _)|(_ & Hq & _ & Hi)]; [done|].
    by rewrite Hq in Hi. }
  apply included_spec in Hi as (rel & Hrel & _ & [?|(x & Hx & Hin)]); [done|].
  rewrite join_as_under, relative_to_under in Hrel. injection Hrel as <-.
  simpl in Hin. by apply list_elem_of_singleton in Hin as ->.
Qed.

Lemma head_app_cons {A} (pre : list A) y rest :
  head (pre ++ y :: rest) = head (pre ++ [y]).
Proof. by destruct pre. Qed.

Lemma head_elem_of {A} (l : list A) c : head l = Some c → c ∈ l.
Proof. destruct l; [done|]. intros [= ->]. left. Qed.

(** A supported file that can be reached, with nothing excluded on the
    way and the include folders satisfied at the top, is yielded. *)
Lemma scan_paths_reached cfg base rel : ∀ d pre x f,
  rel ≠ [] →
  reach d rel = Some (File x f) →
  name_suffix x ∈ supported_types cfg →
  (∀ c, c ∈ pre ++ rel → c ∉ exclude_folders cfg) →
  (include_folders cfg = []
   ∨ ∃ c, head (pre ++ rel) = Some c ∧ c ∈ include_folders cfg) →
  under base (pre ++ rel) ∈ scan_paths cfg base (under base pre) d.
Proof.
  induction rel as [|y rel IH]; intros d pre x f Hne Hr Hsup Hex Hinc; [done|].
  cbn [reach] in Hr. destruct d as [|z [] entries|]; try done.
  destruct (List.find _ entries) as [child|] eqn:Hfind; [|done].
  apply find_name_spec in Hfind as [<- Hin].
  assert (included cfg base (under base pre // node_name child) = true) as Hi.
  { apply included_spec. exists (mkPath "" (pre ++ [node_name child])).
    split; [by rewrite under_join, relative_to_under|]. split.
    - intros c Hc Hin'. apply (Hex c); [|done]. simpl in Hin'.
      apply elem_of_app in Hin' as [?| ->%list_elem_of_singleton];
        apply elem_of_app; [by left|right; left].
    - destruct Hinc as [?|(c & Hc & Hcin)]; [by left|right].
      exists c. split; [done|]. simpl.
      rewrite head_app_cons in Hc. by apply head_elem_of. }
  rewrite scan_paths_dir. apply list_elem_of_In, in_flat_map.
  exists child. split; [by apply list_elem_of_In|]. apply list_elem_of_In.
  unfold scan_entry. cbn zeta. rewrite Hi.
  destruct rel as [|z' rel].
  - simpl in Hr. injection Hr as ->. simpl.
    rewrite bool_decide_true
      by (unfold suffix; by rewrite path_name_join).
    simpl. rewrite under_join. left.
  - assert (is_dir child = true) as ->.
    { cbn [reach] in Hr. by destruct child as [|? [] ?|]. }
    simpl. rewrite under_join.
    replace (pre ++ node_name child :: z' :: rel)
      with ((pre ++ [node_name child]) ++ z' :: rel) by by rewrite <- app_assoc.
    eapply IH; [done|exact Hr|done|..].
    + intros c Hc. apply Hex. by rewrite <- app_assoc in Hc.
    + destruct Hinc as [?|(c & Hc & Hcin)]; [by left|right].
      exists c. split; [|done]. by rewrite <- app_assoc.
Qed.

(** X1.  What the walk yields, in full.  In a tree where no directory
    has two entries of one name, a path is yielded exactly when it is
    that of a regular file the walk can reach through directories it can
    list, the file's extension is a supported type, no component of the
    path below the root is excluded, and [include_folders] is empty or
    holds the first component below the root. *)
Theorem walk_yields_exactly_the_eligible_files cfg base d w p :
  unique_names d = true →
  (∃ paths, (scan_directory cfg base base d w).1 = inr paths ∧ p ∈ paths)
  ↔ ∃ rel x f,
      rel ≠ [] ∧ p = under base rel
      ∧ reach d rel = Some (File x f)
      ∧ name_suffix x ∈ supported_types cfg
      ∧ (∀ c, c ∈ rel → c ∉ exclude_folders cfg)
      ∧ (include_folders cfg = []
         ∨ ∃ c, head rel = Some c ∧ c ∈ include_folders cfg).
Proof.
  intros Hu.
  destruct (scan_directory_value cfg base base d w) as [Hv _].
  split.
  - intros (paths & Hrun & Hp). rewrite Hv in Hrun. injection Hrun as <-.
    pose proof (scan_paths_included _ _ _ _ _ Hp) as Hi.
    assert (include_folders cfg = []
            ∨ ∃ c rest, p = under base (c :: rest) ∧ c ∈ include_folders cfg)
      as Hinc.
    { destruct (decide (include_folders cfg = [])) as [?|Hn]; [by left|right].
      by apply (scan_paths_first cfg base d). }
    rewrite <- (under_nil base) in Hp at 2.
    apply scan_paths_files in Hp as (rel & x & f & Hne & Hq & Hr & Hsup); [|done].
    rewrite app_nil_l in Hq. subst p.
    exists rel, x, f. split; [done|]. split; [done|]. split; [done|].
    split; [|split].
    + unfold suffix in Hsup. destruct (exists_last Hne) as (rel' & y & ->).
      rewrite path_name_under in Hsup.
      apply reach_file_name in Hr; [|done]. rewrite last_last in Hr. by subst.
    + apply included_spec in Hi as (rel' & Hrel & Hex & _).
      rewrite relative_to_under in Hrel. injection Hrel as <-.
      intros c Hc Hexc. by apply (Hex c).
    + destruct Hinc as [?|(c & rest & ->%under_inj & Hc)]; [by left|right].
      by exists c.
  - intros (rel & x & f & Hne & -> & Hr & Hsup & Hex & Hinc).
    exists (scan_paths cfg base base d). split; [done|].
    pose proof (scan_paths_reached cfg base rel d [] x f Hne Hr Hsup Hex Hinc)
      as Hp.
    by rewrite under_nil in Hp.
Qed.

(** The source file of the sample project, with src the only include
    folder. *)
Lemma walk_yields_exactly_the_eligible_files_witness :
  (∃ paths,
     (scan_directory (Sample.with_folders ["src"] ["venv"]) Sample.proj
        Sample.proj Sample.project Sample.quiet_world).1 = inr paths
     ∧ under Sample.proj ["src"; "a.py"] ∈ paths)
  ↔ ∃ rel x f,
      rel ≠ [] ∧ under Sample.proj ["src"; "a.py"] = under Sample.proj rel
      ∧ reach Sample.project rel = Some (File x f)
      ∧ name_suffix x ∈ supported_types (Sample.with_folders ["src"] ["venv"])
      ∧ (∀ c, c ∈ rel → c ∉ exclude_folders (Sample.with_folders ["src"] ["venv"]))
      ∧ (include_folders (Sample.with_folders ["src"] ["venv"]) = []
         ∨ ∃ c, head rel = Some c
                ∧ c ∈ include_folders (Sample.with_folders ["src"] ["venv"])).
Proof.
  apply (walk_yields_exactly_the_eligible_files
           (Sample.with_folders ["src"] ["venv"]) Sample.proj Sample.project
           Sample.quiet_world (under Sample.proj ["src"; "a.py"])).
  vm_compute. reflexivity.
Defined.

(** X2.  With a non-empty [include_folders] every path the walk yields
    has its first component below the root in [include_folders]: an
    include folder that is not at the top of the tree is never
    reached. *)
Theorem include_list_is_matched_at_the_top cfg base d w paths p :
  include_folders cfg ≠ [] →
  (scan_directory cfg base base d w).1 = inr paths →
  p ∈ paths →
  ∃ x rest, p = under base (x :: rest) ∧ x ∈ include_folders cfg.
Proof.
  intros Hinc Hrun Hp.
  destruct (scan_directory_value cfg base base d w) as [Hv _].
  rewrite Hv in Hrun. injection Hrun as <-.
  by apply (scan_paths_first cfg base d).
Qed.

(** The same on the sample project, with src as the only include folder. *)
Lemma include_list_is_matched_at_the_top_witness :
  ∃ x rest,
    under Sample.proj ["src"; "a.py"] = under Sample.proj (x :: rest)
    ∧ x ∈ include_folders (Sample.with_folders ["src"] []).
Proof.
  apply (include_list_is_matched_at_the_top (Sample.with_folders ["src"] [])
           Sample.proj Sample.project Sample.quiet_world
           [under Sample.proj ["src"; "a.py"]]).
  - discriminate.
  - vm_compute. reflexivity.
  - constructor.
Defined.

Lemma NoDup_flat_map {A B} (f : A → list B) (l : list A) :
  (∀ a, a ∈ l → NoDup (f a)) →
  (∀ i j a b x, l !! i = Some a → l !! j = Some b → x ∈ f a → x ∈ f b → i = j) →
  NoDup (flat_map f l).
Proof.
  induction l as [|a l IH]; intros Hnd Hdis; simpl; [constructor|].
  apply NoDup_app. split; [apply Hnd; left|]. split.
  - intros x Hx (b & Hb & Hxb)%list_elem_of_In%in_flat_map.
    apply list_elem_of_In, list_elem_of_lookup in Hb as [j Hj].
    apply list_elem_of_In in Hxb.
    by specialize (Hdis 0 (S j) a b x eq_refl Hj Hx Hxb).
  - apply IH.
    + intros b Hb. apply Hnd. by right.
    + intros i j b c x Hi Hj Hb Hc.
      by specialize (Hdis (S i) (S j) b c x Hi Hj Hb Hc) as [= ->].
Qed.

Lemma scan_paths_NoDup cfg base d : ∀ directory,
  unique_names d = true → NoDup (scan_paths cfg base directory d).
Proof.
  induction d as [x f|x a entries IH|x] using node_ind_deep;
    intros directory Hu; [constructor| |constructor].
  destruct a; [|constructor..].
  apply unique_names_dir in Hu as [Hnd Hun].
  rewrite scan_paths_dir. apply NoDup_flat_map.
  - intros n Hn. unfold scan_entry.
    destruct (_ && _).
    + rewrite Forall_forall in IH. by apply IH; [|apply Hun].
    + destruct (_ && _); [apply NoDup_singleton|constructor].
  - intros i j n m p Hi Hj (r1 & ->)%scan_entry_below
      (r2 & [= Hnm _]%under_inj)%scan_entry_below.
    eapply NoDup_lookup; [exact Hnd| |];
      rewrite list_lookup_fmap; [by rewrite Hi|by rewrite Hj, Hnm].
Qed.

(** X3.  In a tree where no directory has two entries of one name the
    walk yields no path twice. *)
Theorem walk_yields_no_path_twice cfg base directory d w :
  unique_names d = true →
  ∃ paths,
    (scan_directory cfg base directory d w).1 = inr paths ∧ NoDup paths.
Proof.
  intros Hu. exists (scan_paths cfg base directory d).
  split; [apply scan_directory_value|by apply scan_paths_NoDup].
Qed.

(** The same on the sample project. *)
Lemma walk_yields_no_path_twice_witness :
  ∃ paths,
    (scan_directory DEFAULT_CONFIG Sample.proj Sample.proj Sample.project
       Sample.quiet_world).1 = inr paths
    ∧ NoDup paths.
Proof.
  apply (walk_yields_no_path_twice DEFAULT_CONFIG Sample.proj Sample.proj
           Sample.project Sample.quiet_world).
  vm_compute. reflexivity.
Defined.

Lemma flat_map_app_l {A B} (f : A → list B) (l k : list A) :
  flat_map f (l ++ k) = flat_map f l ++ flat_map f k.
Proof. induction l as [|a l IH]; simpl; [done|]. by rewrite IH, app_assoc. Qed.

(** X4.  A directory entry that is excluded, or that cannot be listed,
    contributes nothing and disturbs nothing: the walk does not raise
    and yields what it yields when the entry is not there. *)
Theorem skipped_directory_changes_nothing cfg base pre x y a below before after w :
  y ∈ exclude_folders cfg ∨ a ≠ Listable →
  ∃ paths,
    (scan_directory cfg base (under base pre)
       (Dir x Listable (before ++ Dir y a below :: after)) w).1 = inr paths
    ∧ (scan_directory cfg base (under base pre)
         (Dir x Listable (before ++ after)) w).1 = inr paths.
Proof.
  intros Hskip.
  exists (scan_paths cfg base (under base pre) (Dir x Listable (before ++ after))).
  split; [|apply scan_directory_value].
  destruct (scan_directory_value cfg base (under base pre)
              (Dir x Listable (before ++ Dir y a below :: after)) w) as [-> _].
  f_equal. rewrite !scan_paths_dir, !flat_map_app_l. f_equal. simpl.
  replace (scan_entry cfg base (under base pre) (Dir y a below) _) with (@nil Path);
    [done|].
  unfold scan_entry. simpl. destruct Hskip as [Hex|Ha].
  - replace (included cfg base (under base pre // y)) with false; [done|].
    symmetry. apply not_true_is_false.
    intros (rel & Hrel & Hno & _)%included_spec.
    rewrite under_join, relative_to_under in Hrel. injection Hrel as <-.
    apply (Hno y Hex). simpl. apply elem_of_app. right. left.
  - destruct (included cfg base (under base pre // y)); [|done].
    by destruct a.
Qed.

(** The same on the sample project, whose venv is excluded. *)
Lemma skipped_directory_changes_nothing_witness :
  ∃ paths,
    (scan_directory DEFAULT_CONFIG Sample.proj (under Sample.proj [])
       (Dir "proj" Listable
          ([Sample.text_file "b.md" "hello"]
           ++ Dir "venv" Listable [Sample.text_file "x.py" "zz"]
           :: [Sample.text_file "README.md" "read me"]))
       Sample.quiet_world).1 = inr paths
    ∧ (scan_directory DEFAULT_CONFIG Sample.proj (under Sample.proj [])
         (Dir "proj" Listable
            ([Sample.text_file "b.md" "hello"]
             ++ [Sample.text_file "README.md" "read me"]))
         Sample.quiet_world).1 = inr paths.
Proof.
  apply (skipped_directory_changes_nothing DEFAULT_CONFIG Sample.proj [] "proj"
           "venv" Listable).
  left. simpl. repeat constructor.
Defined.

(** ** More about the directory tree *)

Lemma generate_directory_structure_dir cfg directory x entries prefix :
  generate_directory_structure cfg directory (Dir x Listable entries) prefix
  = draw_loop cfg prefix (length (sorted sort_key entries)) 0
      ((λ n, (n, generate_directory_structure cfg (directory // node_name n) n))
         <$> sorted sort_key entries) "".
Proof.
  cbn [generate_directory_structure].
  match goal with
  | |- ?F 0 ?items "" = _ =>
      assert (∀ L index structure,
                F index L structure
                = draw_loop cfg prefix (length items) index L structure) as Hgen
  end.
  { induction L as [|[item subtree] L IH]; intros index structure; [done|].
    simpl. destruct (bool_decide (node_name item ∈ exclude_folders cfg));
      [apply IH|].
    destruct (is_dir item); [|apply IH].
    destruct (subtree _); [done|apply IH]. }
  by rewrite Hgen, sorted_attach, length_fmap.
Qed.

Lemma tree_lines_dir cfg directory x entries prefix :
  tree_lines cfg directory (Dir x Listable entries) prefix
  = lines_loop cfg directory prefix (length (sorted sort_key entries)) 0
      ((λ n, (n, tree_lines cfg (directory // node_name n) n))
         <$> sorted sort_key entries).
Proof.
  cbn [tree_lines].
  match goal with
  | |- ?F 0 ?items = _ =>
      assert (∀ L index,
                F index L
                = lines_loop cfg directory prefix (length items) index L) as Hgen
  end.
  { induction L as [|[item subtree] L IH]; intros index; [done|].
    simpl. destruct (bool_decide (node_name item ∈ exclude_folders cfg));
      [apply IH|].
    f_equal. f_equal. apply IH. }
  by rewrite Hgen, sorted_attach, length_fmap.
Qed.

Lemma elem_of_sorted {A} (key : A → bool * string) (l : list A) x :
  x ∈ sorted key l ↔ x ∈ l.
Proof. by rewrite sorted_perm. Qed.

(** An entry that is not excluded has its line in the loop's output, and
    with it the lines of its subtree. *)
Lemma lines_loop_has cfg directory prefix len L n : ∀ index,
  n ∈ L → node_name n ∉ exclude_folders cfg →
  ∃ b : bool,
    let out :=
      lines_loop cfg directory prefix len index
        ((λ n, (n, tree_lines cfg (directory // node_name n) n)) <$> L) in
    {| line_prefix := prefix; line_last := b;
       line_item := directory // node_name n |} ∈ out
    ∧ (is_dir n = true →
       ∀ l, l ∈ tree_lines cfg (directory // node_name n) n
                  (prefix +:+ (if b then "    " else "│   ")) →
            l ∈ out).
Proof.
  induction L as [|m L IH]; intros index Hn Hex; [by apply elem_of_nil in Hn|].
  rewrite fmap_cons. cbn [lines_loop].
  apply elem_of_cons in Hn as [->|Hn].
  - rewrite bool_decide_false by done.
    exists (bool_decide (index = len - 1)). cbn zeta. split; [left|].
    intros ->. intros l Hl. right. apply elem_of_app. by left.
  - destruct (IH (S index) Hn Hex) as (b & Hown & Hsub).
    exists b. cbn zeta in *.
    destruct (bool_decide (node_name m ∈ exclude_folders cfg)); [done|].
    split.
    + right. apply elem_of_app. by right.
    + intros Hd l Hl. right. apply elem_of_app. right. by apply Hsub.
Qed.

(** Every line of the loop's output is the line of an entry that is not
    excluded, or a line of its subtree. *)
Lemma lines_loop_from cfg directory prefix len L l : ∀ index,
  l ∈ lines_loop cfg directory prefix len index
        ((λ n, (n, tree_lines cfg (directory // node_name n) n)) <$> L) →
  ∃ n, n ∈ L ∧ (node_name n ∉ exclude_folders cfg)
       ∧ (line_item l = (directory // node_name n)
          ∨ is_dir n = true
            ∧ ∃ prefix', l ∈ tree_lines cfg (directory // node_name n) n prefix').
Proof.
  induction L as [|m L IH]; intros index; [by intros ?%elem_of_nil|].
  rewrite fmap_cons. cbn [lines_loop].
  destruct (bool_decide (node_name m ∈ exclude_folders cfg)) eqn:Hex.
  { intros (n & ? & ?)%IH. exists n. split; [by right|done]. }
  apply bool_decide_eq_false in Hex.
  intros [->|[Hl|Hl]%elem_of_app]%elem_of_cons.
  - exists m. split; [left|]. split; [done|by left].
  - exists m. split; [left|]. split; [done|]. right.
    destruct (is_dir m); [eauto|by apply elem_of_nil in Hl].
  - apply IH in Hl as (n & ? & ?). exists n. split; [by right|done].
Qed.

Lemma tree_lines_below cfg d : ∀ directory prefix l,
  l ∈ tree_lines cfg directory d prefix →
  ∃ y rest, line_item l = under directory (y :: rest).
Proof.
  induction d as [x f|x a entries IH|x] using node_ind_deep;
    intros directory prefix l; [by intros ?%elem_of_nil| |by intros ?%elem_of_nil].
  destruct a; [|by intros ?%elem_of_nil..].
  rewrite tree_lines_dir.
  intros (n & Hn%elem_of_sorted & _ & [->|(_ & prefix' & Hl)])%lines_loop_from.
  - by exists (node_name n), [].
  - rewrite Forall_forall in IH. apply (IH n Hn) in Hl as (y & rest & ->).
    exists (node_name n), (y :: rest). by rewrite join_as_under, under_under.
Qed.

(** The tree has a line for an entry exactly when the entry can be
    reached through directories that can be listed and none of its
    components is excluded. *)
Lemma tree_lines_shown cfg rel : ∀ d directory prefix,
  unique_names d = true → rel ≠ [] →
  (∃ l, l ∈ tree_lines cfg directory d prefix
        ∧ line_item l = under directory rel)
  ↔ is_Some (reach d rel) ∧ ∀ c, c ∈ rel → c ∉ exclude_folders cfg.
Proof.
  induction rel as [|x rel IH]; intros d directory prefix Hu Hne; [done|].
  split.
  - intros (l & Hl & Hitem).
    destruct d as [|y [] entries|]; try by apply elem_of_nil in Hl.
    apply unique_names_dir in Hu as [Hnd Hun].
    rewrite tree_lines_dir in Hl.
    apply lines_loop_from in Hl
      as (n & Hn%elem_of_sorted & Hex & [Hown|(Hd & prefix' & Hl)]).
    + rewrite Hitem, join_as_under in Hown.
      apply under_inj in Hown as [= -> ->].
      cbn [reach]. rewrite (find_name_unique _ _ n) by done.
      split; [done|]. by intros c ->%list_elem_of_singleton.
    + pose proof (tree_lines_below _ _ _ _ _ Hl) as (z & rest & Hz).
      rewrite Hitem, join_as_under, under_under in Hz.
      apply under_inj in Hz as [= -> ->].
      cbn [reach]. rewrite (find_name_unique _ _ n) by done.
      destruct (IH n (directory // node_name n) prefix' (Hun n Hn)) as [Hto _];
        [done|].
      destruct Hto as [Hr Hall].
      { exists l. split; [done|].
        by rewrite Hitem, join_as_under, under_under. }
      split; [done|].
      intros c [->|Hc]%elem_of_cons; [done|by apply Hall].
  - intros [Hr Hall].
    destruct d as [|y [] entries|]; try by destruct Hr.
    cbn [reach] in Hr.
    destruct (List.find _ entries) as [child|] eqn:Hfind; [|by destruct Hr].
    apply find_name_spec in Hfind as [<- Hin].
    apply unique_names_dir in Hu as [Hnd Hun].
    assert (node_name child ∉ exclude_folders cfg) as Hex by (apply Hall; left).
    destruct (lines_loop_has cfg directory prefix
                (length (sorted sort_key entries)) (sorted sort_key entries)
                child 0) as (b & Hown & Hsub); [by apply elem_of_sorted|done|].
    cbn zeta in Hown, Hsub. rewrite <- (tree_lines_dir cfg directory y entries prefix) in Hown, Hsub.
    destruct rel as [|z rel].
    + eexists. split; [exact Hown|done].
    + assert (is_dir child = true) as Hd.
      { cbn [reach] in Hr. by destruct child as [|? [] ?|]; destruct Hr. }
      destruct (IH child (directory // node_name child)
                  (prefix +:+ (if b then "    " else "│   ")) (Hun child Hin))
        as [_ Hfrom]; [done|].
      destruct Hfrom as (l & Hl & Hitem).
      { split; [done|]. intros c Hc. apply Hall. by right. }
      exists l. split; [by apply Hsub|].
      by rewrite Hitem, join_as_under, under_under.
Qed.

(** X5.  When the tree is drawn, it has a line for an entry exactly when
    the entry can be reached from the root through directories and none
    of the components of its path is in [exclude_folders]; neither
    [include_folders] nor [supported_types] has a part in it. *)
Theorem tree_shows_what_is_not_excluded cfg directory d prefix text rel :
  unique_names d = true →
  rel ≠ [] →
  generate_directory_structure cfg directory d prefix = inr text →
  text = lines_text (tree_lines cfg directory d prefix)
  ∧ ((∃ l, l ∈ tree_lines cfg directory d prefix
           ∧ line_item l = under directory rel)
     ↔ is_Some (reach d rel) ∧ ∀ c, c ∈ rel → c ∉ exclude_folders cfg).
Proof.
  intros Hu Hne Htext. split; [by apply structure_lines|].
  by apply tree_lines_shown.
Qed.

(** The same on the sample project: the socket in src, which no walk
    yields, has its line. *)
Lemma tree_shows_what_is_not_excluded_witness :
  ∃ text,
    text = lines_text (tree_lines (Sample.with_folders ["docs"] ["venv"])
                         Sample.proj Sample.project "")
    ∧ ((∃ l, l ∈ tree_lines (Sample.with_folders ["docs"] ["venv"])
                   Sample.proj Sample.project ""
             ∧ line_item l = under Sample.proj ["src"; "sock"])
       ↔ is_Some (reach Sample.project ["src"; "sock"])
         ∧ ∀ c, c ∈ ["src"; "sock"] →
                c ∉ exclude_folders (Sample.with_folders ["docs"] ["venv"])).
Proof.
  eexists.
  apply (tree_shows_what_is_not_excluded (Sample.with_folders ["docs"] ["venv"])
           Sample.proj Sample.project "" _ ["src"; "sock"]).
  - vm_compute. reflexivity.
  - discriminate.
  - vm_compute. reflexivity.
Defined.

(** ** More about drawing the tree and running *)

Lemma existsb_perm {A} (f : A → bool) l l' :
  l ≡ₚ l' → existsb f l = existsb f l'.
Proof.
  induction 1 as [|x l l' _ IH|x y l|l l' l'' _ IH1 _ IH2]; simpl;
    [done|by rewrite IH| |congruence].
  by destruct (f x), (f y).
Qed.

Lemma draw_loop_blocked cfg directory prefix len L :
  Forall (λ n, ∀ directory prefix,
            (∃ text, generate_directory_structure cfg directory n prefix = inr text)
            ↔ blocked cfg n = false) L →
  ∀ index structure,
    (∃ text,
       draw_loop cfg prefix len index
         ((λ n, (n, generate_directory_structure cfg (directory // node_name n) n))
            <$> L) structure = inr text)
    ↔ existsb (λ n, negb (bool_decide (node_name n ∈ exclude_folders cfg))
                    && is_dir n && blocked cfg n) L = false.
Proof.
  induction 1 as [|n L Hn _ IH]; intros index structure.
  { split; [done|]. intros _. by eexists. }
  rewrite fmap_cons. cbn [draw_loop existsb].
  destruct (bool_decide (node_name n ∈ exclude_folders cfg)); [apply IH|].
  destruct (is_dir n); [|apply IH]. cbn [negb andb].
  specialize (Hn (directory // node_name n)
                (prefix +:+ (if bool_decide (index = len - 1)
                             then "    " else "│   "))).
  destruct (generate_directory_structure cfg _ n _) as [e|below].
  - destruct (blocked cfg n).
    + split; [by intros [? ?]|done].
    + destruct Hn as [_ Hn]. by destruct Hn.
  - destruct (blocked cfg n).
    + destruct Hn as [Hn _]. discriminate Hn. by eexists.
    + apply IH.
Qed.

Lemma drawn_iff_not_blocked cfg d : ∀ directory prefix,
  (∃ text, generate_directory_structure cfg directory d prefix = inr text)
  ↔ blocked cfg d = false.
Proof.
  induction d as [x f|x a entries IH|x] using node_ind_deep;
    intros directory prefix; [by split; [intros [? ?]|]| |by split; [intros [? ?]|]].
  destruct a; [|by split; [intros [? ?]|]..].
  rewrite generate_directory_structure_dir. cbn [blocked].
  rewrite <- (existsb_perm _ _ _ (sorted_perm sort_key entries)).
  apply draw_loop_blocked. by rewrite sorted_perm.
Qed.

(** X6.  The tree is drawn exactly when every directory it shows, the
    root among them, can be listed: one directory that cannot, anywhere
    below the root and not under an excluded name, makes the whole call
    raise, whatever the files are and whatever is included. *)
Theorem tree_is_drawn_iff_all_shown_directories_list cfg directory d prefix :
  (∃ text, generate_directory_structure cfg directory d prefix = inr text)
  ↔ blocked cfg d = false.
Proof. apply drawn_iff_not_blocked. Qed.

Lemma returns_computes {A} dir (m : M A) r :
  computes m r → returns dir m (λ _, r).
Proof. intros Hm w. apply Hm. Qed.

Lemma returns_bind {A B} dir (m : M A) (f : A → M B) a r :
  computes m (inr a) → returns dir (f a) r → returns dir (m ≫= f) r.
Proof.
  intros Hm Hf w. destruct (Hm w) as [Hv (_ & _ & Hmk)].
  unfold mbind, M_bind. destruct (m w) as [[e|a'] w']; simplify_eq/=.
  rewrite <- Hmk. apply Hf.
Qed.

Section RunMore.
Context `{Runtime}.

Lemma run_report_returns cfg fs source report_type :
  returns (results_dir cfg) (run_report cfg fs source report_type)
          (run_value cfg fs source report_type).
Proof.
  unfold run_report, run_value.
  destruct (lookup_path fs source) as [[x f|x a entries|x]|];
    try solve [apply (returns_computes _ _ (inr ())); run].
  eapply returns_bind; [auto with computes|].
  eapply returns_bind; [apply compile_directory_value|].
  cbn zeta.
  destruct (bool_decide (compiled cfg fs source source ≠ []));
    [|apply (returns_computes _ _ (inr ())); run].
  eapply returns_bind; [auto with computes|].
  eapply returns_bind; [auto with computes|].
  pose proof (generate_report_value cfg fs source (compiled cfg fs source source)
                (path_name source) report_type) as Hgen.
  destruct (report_value cfg fs source _ _ _) as [e|report].
  { apply (returns_computes _ _ (inl e)). by apply computes_bind_raise. }
  eapply returns_bind; [done|].
  eapply returns_bind; [auto with computes|].
  eapply returns_bind; [auto with computes|].
  intros w. apply save_report_returns.
Qed.

Lemma run_report_value cfg fs source report_type w :
  (run_report cfg fs source report_type w).1
  = run_value cfg fs source report_type (mkdir_error w (results_dir cfg)).
Proof. apply run_report_returns. Qed.

Lemma run_report_written cfg fs source report_type w :
  run_output cfg fs source report_type = [] →
  written (run_report cfg fs source report_type w).2 = written w.
Proof.
  intros Hout. destruct (run_report_writes cfg fs source report_type w) as [-> _].
  rewrite Hout. by destruct (can_save w _ _).
Qed.

(** X7.  The walk passes over a directory that cannot be listed, but the
    tree of the report does not: when files were found and the report
    type is configured, one such directory that the tree shows makes
    [run_report] raise, and no report is written for the files that were
    found. *)
Theorem unlistable_directory_aborts_the_run cfg fs source d report_type w :
  lookup_path fs source = Some d →
  is_dir d = true →
  compiled cfg fs source source ≠ [] →
  is_falsy (report_types cfg !! report_type) = false →
  blocked cfg d = true →
  ∃ e, (run_report cfg fs source report_type w).1 = inl e
       ∧ generate_directory_structure cfg source d "" = inl e
       ∧ written (run_report cfg fs source report_type w).2 = written w.
Proof.
  intros Hd Hdir Hres Hrt Hb.
  destruct (generate_directory_structure cfg source d "") as [e|text] eqn:Hdraw.
  2: { assert (blocked cfg d = false); [|congruence].
       apply (drawn_iff_not_blocked cfg d source ""). by exists text. }
  exists e.
  assert (report_value cfg fs source (compiled cfg fs source source)
            (path_name source) report_type = inl e) as Hrep.
  { unfold report_value, structure_at. by rewrite Hrt, Hd, Hdraw. }
  destruct d as [|x a entries|]; try done.
  split; [|split; [done|]].
  - rewrite run_report_value. unfold run_value.
    by rewrite Hd, bool_decide_true, Hrep.
  - apply run_report_written. unfold run_output.
    by rewrite Hd, bool_decide_true, Hrep.
Qed.


End RunMore.

(** A project with a file and a directory that cannot be listed: the run
    raises [PermissionError] for the directory. *)
Lemma unlistable_directory_aborts_the_run_witness :
  ∃ e, (run_report (H := Sample.runtime) DEFAULT_CONFIG More.locked_fs
          Sample.proj "1" Sample.quiet_world).1 = inl e
       ∧ generate_directory_structure DEFAULT_CONFIG Sample.proj
           More.locked_project "" = inl e
       ∧ written (run_report (H := Sample.runtime) DEFAULT_CONFIG
                    More.locked_fs Sample.proj "1" Sample.quiet_world).2
         = written Sample.quiet_world.
Proof.
  apply (unlistable_directory_aborts_the_run (H := Sample.runtime)
           DEFAULT_CONFIG More.locked_fs Sample.proj More.locked_project "1"
           Sample.quiet_world).
  - vm_compute. reflexivity.
  - reflexivity.
  - vm_compute. discriminate.
  - vm_compute. reflexivity.
  - vm_compute. reflexivity.
Defined.


(** ** The menus *)

Lemma str_nat_inj i j : Text.str_nat i = Text.str_nat j → i = j.
Proof.
  unfold Text.str_nat. intros E.
  apply (f_equal NilZero.uint_of_string) in E.
  assert (∀ n, Nat.to_uint n ≠ Decimal.Nil) as Hnil.
  { intros n Hn. pose proof (f_equal Nat.of_uint Hn) as Hz.
    rewrite DecimalNat.Unsigned.of_to in Hz. simpl in Hz. subst n.
    discriminate Hn. }
  rewrite !NilZero.usu in E by apply Hnil. injection E as E.
  apply (f_equal Nat.of_uint) in E. by rewrite !DecimalNat.Unsigned.of_to in E.
Qed.

Lemma str_nat_not_empty i : Text.str_nat i ≠ "".
Proof.
  unfold Text.str_nat. intros E.
  apply (f_equal NilZero.uint_of_string) in E.
  destruct (NilZero.usu_gen (Nat.to_uint i)) as [Hu|Hu];
    rewrite Hu in E; discriminate E.
Qed.

Lemma numbered_lookup types k :
  numbered types →
  is_Some (types !! k) ↔ ∃ i, (1 ≤ i ≤ size types)%nat ∧ k = Text.str_nat i.
Proof.
  intros Hn. rewrite <- elem_of_dom, Hn, elem_of_list_to_set, list_elem_of_fmap.
  split.
  - intros (i & -> & Hi%elem_of_seq). exists i. split; [lia|done].
  - intros (i & Hi & ->). exists i. split; [done|]. apply elem_of_seq. lia.
Qed.

Lemma numbered_next types :
  numbered types → types !! Text.str_nat (size types + 1) = None.
Proof.
  intros Hn. apply eq_None_not_Some.
  intros (i & Hi & Heq%str_nat_inj)%numbered_lookup; [lia|done].
Qed.

Lemma numbered_round types e :
  numbered types → is_delete e = false → numbered (modify_round types e).
Proof.
  intros Hn He. destruct e as [new_name new_types|k new_name new_types|k];
    [| |done]; cbn [modify_round].
  - pose proof (numbered_next types Hn) as Hnext. unfold numbered in *.
    rewrite dom_insert_L, map_size_insert_None by done.
    rewrite Hn. replace (S (size types)) with (size types + 1) by lia.
    rewrite seq_app, fmap_app, list_to_set_app_L. simpl.
    by rewrite (right_id_L ∅ (∪)), (comm_L (∪)), Nat.add_1_r.
  - destruct (types !! k) as [rc|] eqn:Hk; [|done]. unfold numbered in *.
    rewrite dom_insert_L, map_size_insert_Some by done.
    rewrite <- Hn. apply elem_of_dom_2 in Hk.
    apply subseteq_union_1_L. by apply singleton_subseteq_l.
Qed.

(** X9.  Adding and modifying report types keeps them numbered from 1
    without a gap, which is what the main menu relies on: rounds of
    [modify_report_types] without a deletion leave the keys of
    [report_types] the numerals 1 to their number. *)
Theorem rounds_without_deletion_keep_the_numbering types rounds :
  numbered types →
  forallb (λ e, negb (is_delete e)) rounds = true →
  numbered (modify_report_types types rounds).
Proof.
  unfold modify_report_types. revert types.
  induction rounds as [|e rounds IH]; intros types Hn; [done|]. simpl.
  intros [He%negb_true_iff Hall]%andb_true_iff.
  apply IH; [|done]. by apply numbered_round.
Qed.

(** The report types of the default configuration, a third one added
    and the second one renamed. *)
Lemma rounds_without_deletion_keep_the_numbering_witness :
  numbered (modify_report_types (report_types DEFAULT_CONFIG)
              [AddType "Docs" "md,txt"; ModifyType "2" "Code" ""]).
Proof.
  apply (rounds_without_deletion_keep_the_numbering
           (report_types DEFAULT_CONFIG)
           [AddType "Docs" "md,txt"; ModifyType "2" "Code" ""]).
  - vm_compute. reflexivity.
  - reflexivity.
Defined.

Lemma main_choice_report cfg i :
  (1 ≤ i ≤ size (report_types cfg))%nat →
  main_choice cfg (Text.str_nat i) = RunReport (Text.str_nat i).
Proof.
  intros Hi. unfold main_choice.
  rewrite !bool_decide_false; [done|..].
  - intros ?%str_nat_inj. lia.
  - intros ?%str_nat_inj. lia.
  - apply str_nat_not_empty.
  - intros ?%str_nat_inj. lia.
Qed.

Lemma main_choice_settings cfg :
  main_choice cfg (Text.str_nat (size (report_types cfg) + 1)) = Settings.
Proof.
  unfold main_choice.
  rewrite (bool_decide_false (_ = Text.str_nat (_ + 2)))
    by (intros ?%str_nat_inj; lia).
  rewrite (bool_decide_false (_ = "")) by apply str_nat_not_empty.
  by rewrite bool_decide_true.
Qed.

Lemma main_choice_exit cfg :
  main_choice cfg (Text.str_nat (size (report_types cfg) + 2)) = Exit.
Proof. unfold main_choice. by rewrite bool_decide_true. Qed.

Lemma main_choice_api cfg :
  main_choice cfg (Text.str_nat (size (report_types cfg) + 3)) = StartApi.
Proof.
  unfold main_choice.
  rewrite (bool_decide_false (_ = Text.str_nat (_ + 2)))
    by (intros ?%str_nat_inj; lia).
  rewrite (bool_decide_false (_ = "")) by apply str_nat_not_empty.
  rewrite (bool_decide_false (_ = Text.str_nat (_ + 1)))
    by (intros ?%str_nat_inj; lia).
  by rewrite bool_decide_true.
Qed.

Lemma menu_choices_elem cfg i :
  (1 ≤ i ≤ size (report_types cfg) + 3)%nat →
  Text.str_nat i ∈ menu_choices cfg.
Proof.
  intros Hi. unfold menu_choices. apply list_elem_of_fmap.
  exists i. split; [done|]. apply elem_of_seq. lia.
Qed.

(** X10.  When the report types are numbered from 1 without a gap, every
    line of the main menu leads where it says: its number is a choice
    the prompt accepts, and [main] runs the report type, opens the
    settings, starts the server or exits as the line announces. *)
Theorem numbered_menu_leads_where_it_says cfg line :
  numbered (report_types cfg) →
  line ∈ menu_lines cfg →
  line.1 ∈ menu_choices cfg ∧ main_choice cfg line.1 = line.2.
Proof.
  intros Hn. unfold menu_lines.
  intros [Hl|Hl]%elem_of_app.
  - apply list_elem_of_fmap in Hl as ([k rc] & -> & Hk%elem_of_map_to_list).
    cbn [fst snd].
    destruct (proj1 (numbered_lookup _ k Hn)) as (i & Hi & ->); [by eexists|].
    split; [apply menu_choices_elem; lia|by apply main_choice_report].
  - replace (size (report_types cfg) + 1 + 1) with (size (report_types cfg) + 2)
      in Hl by lia.
    replace (size (report_types cfg) + 2 + 1) with (size (report_types cfg) + 3)
      in Hl by lia.
    apply elem_of_cons in Hl as [->|Hl];
      [|apply elem_of_cons in Hl as [->|Hl];
        [|apply list_elem_of_singleton in Hl as ->]]; cbn [fst snd].
    + split; [apply menu_choices_elem; lia|apply main_choice_settings].
    + split; [apply menu_choices_elem; lia|apply main_choice_api].
    + split; [apply menu_choices_elem; lia|apply main_choice_exit].
Qed.

(** The second report type of the default configuration. *)
Lemma numbered_menu_leads_where_it_says_witness :
  "2" ∈ menu_choices DEFAULT_CONFIG
  ∧ main_choice DEFAULT_CONFIG "2" = RunReport "2".
Proof.
  apply (numbered_menu_leads_where_it_says DEFAULT_CONFIG ("2", RunReport "2")).
  - vm_compute. reflexivity.
  - apply (list_elem_of_lookup_2 _ 1). vm_compute. reflexivity.
Defined.

Lemma numbered_deleted types k :
  numbered types → is_Some (types !! k) → k ≠ Text.str_nat (size types) →
  ∃ i, (1 ≤ i < size types)%nat ∧ k = Text.str_nat i
       ∧ size (delete k types) = size types - 1
       ∧ is_Some (delete k types !! Text.str_nat (size types)).
Proof.
  intros Hn Hk Hlast.
  destruct (proj1 (numbered_lookup _ k Hn) Hk) as (i & Hi & ->).
  assert (i ≠ size types) by (by intros ->).
  exists i. split; [lia|]. split; [done|]. split.
  - rewrite map_size_delete_Some by done. lia.
  - rewrite lookup_delete_ne by done.
    apply (numbered_lookup _ _ Hn). exists (size types). split; [lia|done].
Qed.

(** X11.  Deleting a report type other than the last one puts the menu
    out of step with the configuration: the last report type is still
    configured and listed, but its number now opens the settings, and
    the number of the deleted type is still accepted and runs a report
    of a type that is no longer there. *)
Theorem deleting_a_type_hides_the_last_one cfg k :
  numbered (report_types cfg) →
  is_Some (report_types cfg !! k) →
  k ≠ Text.str_nat (size (report_types cfg)) →
  let cfg' := display_settings_menu cfg [ReportTypes [DeleteType k]] in
  let last := Text.str_nat (size (report_types cfg)) in
  (last, RunReport last) ∈ menu_lines cfg'
  ∧ main_choice cfg' last = Settings
  ∧ report_types cfg' !! k = None
  ∧ k ∈ menu_choices cfg'
  ∧ main_choice cfg' k = RunReport k.
Proof.
  intros Hn Hk Hlast cfg' last.
  destruct (numbered_deleted _ k Hn Hk Hlast) as (i & Hi & -> & Hsize & Hstill).
  assert (report_types cfg' = delete (Text.str_nat i) (report_types cfg)) as Ht.
  { subst cfg'. cbn. by destruct Hk as [rc ->]. }
  assert (size (report_types cfg') + 1 = size (report_types cfg)) as Hs
    by (rewrite Ht, Hsize; lia).
  split; [|split; [|split; [|split]]].
  - unfold menu_lines. apply elem_of_app. left. rewrite Ht.
    destruct Hstill as [rc Hrc]. apply list_elem_of_fmap.
    exists (last, rc). split; [done|]. by apply elem_of_map_to_list.
  - subst last. rewrite <- Hs. apply main_choice_settings.
  - rewrite Ht. apply lookup_delete_eq.
  - apply menu_choices_elem. lia.
  - apply main_choice_report. lia.
Qed.

(** The first of the two report types of the default configuration
    deleted: "2" opens the settings and "1" runs a report. *)
Lemma deleting_a_type_hides_the_last_one_witness :
  let cfg' := display_settings_menu DEFAULT_CONFIG [ReportTypes [DeleteType "1"]] in
  ("2", RunReport "2") ∈ menu_lines cfg'
  ∧ main_choice cfg' "2" = Settings
  ∧ report_types cfg' !! "1" = None
  ∧ "1" ∈ menu_choices cfg'
  ∧ main_choice cfg' "1" = RunReport "1".
Proof.
  apply (deleting_a_type_hides_the_last_one DEFAULT_CONFIG "1").
  - vm_compute. reflexivity.
  - vm_compute. eexists. reflexivity.
  - vm_compute. discriminate.
Defined.

(** X12.  A report type added after such a deletion takes the number of
    the last report type and replaces it: the deleted type and the last
    one are both gone, and the new one is all that came in. *)
Theorem adding_after_a_deletion_replaces_the_last_type
    types k new_name new_types :
  numbered types →
  is_Some (types !! k) →
  k ≠ Text.str_nat (size types) →
  let types' :=
    modify_report_types types [DeleteType k; AddType new_name new_types] in
  types' !! Text.str_nat (size types)
  = Some {| name := Some new_name; file_types := Some (split_commas new_types) |}
  ∧ types' !! k = None
  ∧ size types' = size types - 1.
Proof.
  intros Hn Hk Hlast types'.
  destruct (numbered_deleted _ k Hn Hk Hlast) as (i & Hi & -> & Hsize & Hstill).
  assert (types' = <[Text.str_nat (size types) :=
                       {| name := Some new_name;
                          file_types := Some (split_commas new_types) |}]>
                     (delete (Text.str_nat i) types)) as ->.
  { subst types'. cbn. destruct Hk as [rc ->]. rewrite Hsize.
    by replace (size types - 1 + 1) with (size types) by lia. }
  split; [apply lookup_insert_eq|]. split.
  - rewrite lookup_insert_ne by done. apply lookup_delete_eq.
  - by rewrite map_size_insert_Some.
Qed.

(** The default configuration with a third report type: the first
    deleted and another added, which replaces the third. *)
Lemma adding_after_a_deletion_replaces_the_last_type_witness :
  let types :=
    modify_report_types (report_types DEFAULT_CONFIG) [AddType "Docs" "md"] in
  let types' :=
    modify_report_types types [DeleteType "1"; AddType "Text" "txt"] in
  types' !! Text.str_nat (size types)
  = Some {| name := Some "Text"; file_types := Some (split_commas "txt") |}
  ∧ types' !! "1" = None
  ∧ size types' = size types - 1.
Proof.
  apply (adding_after_a_deletion_replaces_the_last_type
           (modify_report_types (report_types DEFAULT_CONFIG) [AddType "Docs" "md"])
           "1" "Text" "txt").
  - vm_compute. reflexivity.
  - vm_compute. eexists. reflexivity.
  - vm_compute. discriminate.
Defined.

(** ** The settings and the walk *)

(** X13.  The prompt for the include folders says to leave the answer
    empty for all folders, but the empty answer is stored as the list of
    the empty string, not as the empty list: the walk then yields no
    file at all, since no entry has the empty name. *)
Theorem empty_include_answer_finds_nothing cfg base d w :
  descend d [""] = None →
  include_folders (display_settings_menu cfg [IncludeFolders ""]) = [""]
  ∧ (scan_directory (display_settings_menu cfg [IncludeFolders ""])
       base base d w).1 = inr [].
Proof.
  intros Hnone. split; [done|].
  set (cfg' := display_settings_menu cfg [IncludeFolders ""]).
  destruct (scan_directory_value cfg' base base d w) as [-> _]. f_equal.
  destruct d as [|x [] entries|]; try done.
  destruct (scan_paths cfg' base base (Dir x Listable entries)) as [|p paths] eqn:Hp;
    [done|exfalso].
  assert (p ∈ scan_paths cfg' base base (Dir x Listable entries)) as Hin
    by (rewrite Hp; left).
  apply elem_of_scan_dir in Hin as (n & Hn & Hin).
  assert (included cfg' base (base // node_name n) = true) as Hi.
  { apply scan_entry_elem in Hin as [(_ & ? & _)|(_ & Hq & _ & Hi)]; [done|].
    by rewrite Hq in Hi. }
  apply included_spec in Hi as (rel & Hrel & _ & [?|(y & Hy & Hin')]); [done|].
  rewrite join_as_under, relative_to_under in Hrel. injection Hrel as <-.
  apply list_elem_of_singleton in Hy as ->.
  apply list_elem_of_singleton in Hin'.
  simpl in Hnone.
  destruct (List.find _ entries) as [child|] eqn:Hfind; [done|].
  apply list_elem_of_In in Hn.
  apply (find_none _ _ Hfind) in Hn. by rewrite bool_decide_true in Hn.
Qed.

(** The sample project, after the include folders were left empty. *)
Lemma empty_include_answer_finds_nothing_witness :
  include_folders (display_settings_menu DEFAULT_CONFIG [IncludeFolders ""]) = [""]
  ∧ (scan_directory
       (display_settings_menu DEFAULT_CONFIG [IncludeFolders ""])
       Sample.proj Sample.proj Sample.project Sample.quiet_world).1 = inr [].
Proof.
  apply (empty_include_answer_finds_nothing DEFAULT_CONFIG
           Sample.proj Sample.project Sample.quiet_world).
  vm_compute. reflexivity.
Defined.

(** ** The endpoint *)

Section EndpointFacts.
Context `{Runtime}.
Variable run_report_url : string → string → M unit.

Lemma api_analyze_local cfg fs source report_type w :
  is_url source = false → source ≠ "" → report_type ≠ "" →
  api_analyze run_report_url cfg fs (Some source) (Some report_type) w
  = (match (run_report cfg fs (Path_of source) report_type w).1 with
     | inr _ => inr (MessageBody "Report generated successfully.", 200)
     | inl e => inr (ErrorBody (str_exn e), 500)
     end,
     (run_report cfg fs (Path_of source) report_type w).2).
Proof.
  intros Hurl Hs Hr. unfold api_analyze, run_report_text.
  rewrite !bool_decide_false, Hurl by done.
  unfold try_except, mbind, M_bind. cbn [orb].
  by destruct (run_report cfg fs (Path_of source) report_type w) as [[e|[]] w'].
Qed.

(** X14.  The endpoint answers 500 with the text of the exception when
    the project holds a directory that cannot be listed and that the
    tree shows: the files that the walk found are analysed, but no
    report is written for them. *)
Theorem endpoint_fails_on_an_unlistable_directory
    cfg fs source d report_type w :
  is_url source = false →
  source ≠ "" →
  report_type ≠ "" →
  lookup_path fs (Path_of source) = Some d →
  is_dir d = true →
  compiled cfg fs (Path_of source) (Path_of source) ≠ [] →
  is_falsy (report_types cfg !! report_type) = false →
  blocked cfg d = true →
  ∃ e,
    generate_directory_structure cfg (Path_of source) d "" = inl e
    ∧ (api_analyze run_report_url cfg fs (Some source) (Some report_type) w).1
      = inr (ErrorBody (str_exn e), 500)
    ∧ written (api_analyze run_report_url cfg fs (Some source)
                 (Some report_type) w).2
      = written w.
Proof.
  intros Hurl Hs Hr Hd Hdir Hres Hrt Hb.
  rewrite api_analyze_local by done. cbn [fst snd].
  destruct (generate_directory_structure cfg (Path_of source) d "")
    as [e|text] eqn:Hdraw.
  2: { assert (blocked cfg d = false); [|congruence].
       apply (drawn_iff_not_blocked cfg d (Path_of source) ""). by exists text. }
  exists e. split; [done|].
  assert (report_value cfg fs (Path_of source)
            (compiled cfg fs (Path_of source) (Path_of source))
            (path_name (Path_of source)) report_type = inl e) as Hrep.
  { unfold report_value, structure_at. by rewrite Hrt, Hd, Hdraw. }
  destruct d as [|x a entries|]; try done.
  split.
  - rewrite run_report_value. unfold run_value.
    by rewrite Hd, bool_decide_true, Hrep.
  - apply run_report_written. unfold run_output.
    by rewrite Hd, bool_decide_true, Hrep.
Qed.


End EndpointFacts.

(** A request for the project with a directory that cannot be listed. *)
Lemma endpoint_fails_on_an_unlistable_directory_witness :
  ∃ e,
    generate_directory_structure DEFAULT_CONFIG (Path_of "repos/proj")
      More.locked_project "" = inl e
    ∧ (api_analyze (H := Sample.runtime) (λ _ _, mret ()) DEFAULT_CONFIG
         More.locked_fs (Some "repos/proj") (Some "1") Sample.quiet_world).1
      = inr (ErrorBody (str_exn e), 500)
    ∧ written (api_analyze (H := Sample.runtime) (λ _ _, mret ()) DEFAULT_CONFIG
                 More.locked_fs (Some "repos/proj") (Some "1")
                 Sample.quiet_world).2
      = written Sample.quiet_world.
Proof.
  apply (endpoint_fails_on_an_unlistable_directory (H := Sample.runtime)
           (λ _ _, mret ()) DEFAULT_CONFIG More.locked_fs "repos/proj"
           More.locked_project "1" Sample.quiet_world).
  - reflexivity.
  - discriminate.
  - discriminate.
  - vm_compute. reflexivity.
  - reflexivity.
  - vm_compute. discriminate.
  - vm_compute. reflexivity.
  - vm_compute. reflexivity.
Defined.


(** ** More about the report *)

Section ReportMore.
Context `{Runtime}.

Lemma Counter_loop (keys : list string) k : ∀ counts : gmap string nat,
  default 0 (foldl (λ counts k, <[k := S (default 0 (counts !! k))]> counts)
               counts keys !! k)
  = default 0 (counts !! k) + length (List.filter (λ x, bool_decide (x = k)) keys).
Proof.
  induction keys as [|x keys IH]; intros counts; simpl; [lia|].
  rewrite IH. destruct (decide (x = k)) as [->|Hx].
  - rewrite lookup_insert_eq, bool_decide_true by done. simpl. lia.
  - by rewrite lookup_insert_ne, bool_decide_false by done.
Qed.

Lemma Counter_of_language results ft :
  default 0 (Counter (language <$> results) !! ft)
  = length (of_language ft results).
Proof.
  unfold Counter. rewrite Counter_loop, lookup_empty. simpl.
  unfold of_language. induction results as [|r results IH]; [done|].
  rewrite fmap_cons. cbn [List.filter].
  destruct (bool_decide (language r = ft)); simpl; by rewrite IH.
Qed.

Lemma length_number_from k total l : length (number_from k total l) = length l.
Proof. revert k. induction l as [|r l IH]; intros k; simpl; [done|]. by rewrite IH. Qed.

Lemma ordinal_number_from k total l :
  ordinal <$> number_from k total l = seq k (length l).
Proof. revert k. induction l as [|r l IH]; intros k; simpl; [done|]. by rewrite IH. Qed.

Lemma subjects_number_from k total l : subject <$> number_from k total l = l.
Proof. revert k. induction l as [|r l IH]; intros k; simpl; [done|]. by rewrite IH. Qed.

Lemma of_total_number_from k total l :
  Forall (λ h, of_total h = total) (number_from k total l).
Proof.
  revert k. induction l as [|r l IH]; intros k; simpl; constructor; [done|apply IH].
Qed.

Lemma generate_report_document
    cfg fs base results directory_name report_type tree_text w :
  is_falsy (report_types cfg !! report_type) = false →
  structure_at cfg fs base = inr tree_text →
  (generate_report cfg fs base results directory_name report_type w).1
  = inr (render (document cfg fs base results directory_name
                   (configured_types cfg report_type) tree_text)).
Proof.
  intros Hkey Htree.
  destruct (generate_report_value cfg fs base results directory_name
              report_type w) as [-> _].
  unfold report_value. by rewrite Hkey, Htree.
Qed.

(** X16.  The overview and the sections of a report agree: there is one
    count and one section for each file type of the report type, in
    their order, and the count the overview gives for a type is the
    number of files its section lists. *)
Theorem overview_counts_are_section_sizes
    cfg fs base results directory_name report_type tree_text w :
  is_falsy (report_types cfg !! report_type) = false →
  structure_at cfg fs base = inr tree_text →
  let doc := document cfg fs base results directory_name
               (configured_types cfg report_type) tree_text in
  (generate_report cfg fs base results directory_name report_type w).1
  = inr (render doc)
  ∧ tag <$> sections doc = configured_types cfg report_type
  ∧ type_counts doc = (λ s, (tag s, length (headers s))) <$> sections doc.
Proof.
  intros Hkey Htree doc.
  split; [by apply generate_report_document|].
  unfold doc, document. cbn [sections type_counts].
  rewrite <- !list_fmap_compose. split.
  - rewrite <- (list_fmap_id (configured_types cfg report_type)) at 2.
    by apply list_fmap_ext.
  - apply list_fmap_ext. intros i ft _. cbn.
    by rewrite length_number_from, Counter_of_language.
Qed.

(** X17.  In each section the files are those of its language among the
    results, in the order of the results, numbered from 1, each "of" the
    number of files of the section. *)
Theorem section_files_are_numbered_in_order
    cfg fs base results directory_name report_type tree_text w :
  is_falsy (report_types cfg !! report_type) = false →
  structure_at cfg fs base = inr tree_text →
  let doc := document cfg fs base results directory_name
               (configured_types cfg report_type) tree_text in
  (generate_report cfg fs base results directory_name report_type w).1
  = inr (render doc)
  ∧ ∀ s, s ∈ sections doc →
      subject <$> headers s
      = List.filter (λ r, bool_decide (language r = tag s)) results
      ∧ ordinal <$> headers s = seq 1 (length (headers s))
      ∧ Forall (λ h, of_total h = length (headers s)) (headers s).
Proof.
  intros Hkey Htree doc.
  split; [by apply generate_report_document|].
  intros s Hs. unfold doc, document in Hs. cbn [sections] in Hs.
  apply list_elem_of_fmap in Hs as (ft & -> & _).
  unfold section_of. cbn [headers tag].
  rewrite subjects_number_from, ordinal_number_from, length_number_from.
  split; [done|]. split; [done|]. apply of_total_number_from.
Qed.

End ReportMore.

(** The report of type 2 on the sample project. *)
Lemma overview_counts_are_section_sizes_witness :
  ∃ tree_text,
    let results := compiled (H := Sample.runtime) DEFAULT_CONFIG Sample.fs
                     Sample.proj Sample.proj in
    let doc := document (H := Sample.runtime) DEFAULT_CONFIG Sample.fs Sample.proj
                 results "proj" (configured_types DEFAULT_CONFIG "2") tree_text in
    (generate_report (H := Sample.runtime) DEFAULT_CONFIG Sample.fs Sample.proj
       results "proj" "2" Sample.quiet_world).1
    = inr (render doc)
    ∧ tag <$> sections doc = configured_types DEFAULT_CONFIG "2"
    ∧ type_counts doc = (λ s, (tag s, length (headers s))) <$> sections doc.
Proof.
  eexists.
  apply (overview_counts_are_section_sizes (H := Sample.runtime) DEFAULT_CONFIG
           Sample.fs Sample.proj
           (compiled (H := Sample.runtime) DEFAULT_CONFIG Sample.fs
              Sample.proj Sample.proj)
           "proj" "2" _ Sample.quiet_world).
  - vm_compute. reflexivity.
  - vm_compute. reflexivity.
Defined.

Lemma section_files_are_numbered_in_order_witness :
  ∃ tree_text,
    let results := compiled (H := Sample.runtime) DEFAULT_CONFIG Sample.fs
                     Sample.proj Sample.proj in
    let doc := document (H := Sample.runtime) DEFAULT_CONFIG Sample.fs Sample.proj
                 results "proj" (configured_types DEFAULT_CONFIG "1") tree_text in
    (generate_report (H := Sample.runtime) DEFAULT_CONFIG Sample.fs Sample.proj
       results "proj" "1" Sample.quiet_world).1
    = inr (render doc)
    ∧ ∀ s, s ∈ sections doc →
        subject <$> headers s
        = List.filter (λ r, bool_decide (language r = tag s)) results
        ∧ ordinal <$> headers s = seq 1 (length (headers s))
        ∧ Forall (λ h, of_total h = length (headers s)) (headers s).
Proof.
  eexists.
  apply (section_files_are_numbered_in_order (H := Sample.runtime) DEFAULT_CONFIG
           Sample.fs Sample.proj
           (compiled (H := Sample.runtime) DEFAULT_CONFIG Sample.fs
              Sample.proj Sample.proj)
           "proj" "1" _ Sample.quiet_world).
  - vm_compute. reflexivity.
  - vm_compute. reflexivity.
Defined.

(** ** More about the analysis *)

Lemma rfind_none c s : ∀ i, rfind c s i = None → c ∉ s.
Proof.
  induction s as [|x s IH]; intros i; simpl; [by intros _ ?%elem_of_nil|].
  destruct (rfind c s (S i)) eqn:Hr; [done|].
  destruct (decide (x = c)); [done|]. intros _ [?|?]%elem_of_cons; [done|].
  by eapply IH.
Qed.

Lemma rfind_spec c s : ∀ i j,
  rfind c s i = Some j →
  ∃ k, j = i + k ∧ s !! k = Some c ∧ c ∉ drop (S k) s.
Proof.
  induction s as [|x s IH]; intros i j; simpl; [done|].
  destruct (rfind c s (S i)) as [j'|] eqn:Hr.
  - intros [= <-]. destruct (IH _ _ Hr) as (k & -> & Hk & Hafter).
    exists (S k). split; [lia|done].
  - destruct (decide (x = c)) as [->|]; [|done]. intros [= <-].
    exists 0. split; [lia|]. split; [done|]. by eapply rfind_none.
Qed.

Lemma of_chars_nil l : Text.of_chars l = "" → l = [].
Proof. by destruct l. Qed.

(** A suffix is empty, or a dot followed by at least one character and
    no further dot. *)
Lemma name_suffix_shape x :
  name_suffix x = ""
  ∨ ∃ rest, name_suffix x = String "." rest
            ∧ rest ≠ "" ∧ ("."%char ∉ Text.chars rest).
Proof.
  unfold name_suffix.
  destruct (rfind "." (Text.chars x) 0) as [i|] eqn:Hr; [|by left].
  destruct ((0 <? i) && (i <? length (Text.chars x) - 1)) eqn:Hi; [|by left].
  right. apply rfind_spec in Hr as (k & -> & Hk & Hafter). simpl in *.
  apply andb_true_iff in Hi as [_ Hi%Nat.ltb_lt].
  rewrite (drop_S _ _ _ Hk). exists (Text.of_chars (drop (S k) (Text.chars x))).
  split; [done|]. split.
  - intros Hnil%of_chars_nil. apply (f_equal length) in Hnil.
    rewrite length_drop in Hnil. simpl in Hnil. lia.
  - unfold Text.chars at 1, Text.of_chars.
    by rewrite list_ascii_of_string_of_list_ascii.
Qed.

Lemma scan_paths_suffix cfg base d : ∀ directory p,
  p ∈ scan_paths cfg base directory d → suffix p ∈ supported_types cfg.
Proof.
  induction d as [x f|x a entries IH|x] using node_ind_deep;
    intros directory p; simpl; [by intros ?%elem_of_nil| |by intros ?%elem_of_nil].
  destruct a; [|by intros ?%elem_of_nil..].
  intros (n & Hn & Hp)%(elem_of_scan_dir _ _ _ x).
  apply scan_entry_elem in Hp as [(_ & _ & Hp)|(_ & _ & Hsup & _)]; [|done].
  rewrite Forall_forall in IH. by apply (IH n Hn) in Hp.
Qed.

Lemma split_on_length sep s :
  length (Text.split_on sep s) = S (length (List.filter (λ c, bool_decide (c = sep)) s)).
Proof.
  induction s as [|c s IH]; [done|]. simpl.
  destruct (decide (c = sep)) as [->|Hc].
  - rewrite bool_decide_true by done. simpl. by rewrite IH.
  - rewrite bool_decide_false by done.
    destruct (Text.split_on sep s); simpl in *; [done|lia].
Qed.

Section AnalysisMore.
Context `{Runtime}.

Lemma compiled_record cfg fs base directory r :
  r ∈ compiled cfg fs base directory →
  ∃ p, p ∈ scanned cfg fs base directory
       ∧ file_text cfg fs p ≠ ""
       ∧ r = record_of p (file_text cfg fs p).
Proof.
  unfold compiled. intros (p & Hp & Ha)%list_elem_of_omap.
  unfold analysis in Ha. destruct (decide (file_text cfg fs p = "")); [done|].
  exists p. split; [done|]. split; [done|congruence].
Qed.

(** X18.  The language of a record is the extension of its file without
    the dot, and the extension is a supported type.  The language is
    empty only when the empty string is a supported type; otherwise it
    has no dot in it and is a supported type once the dot is put back.
    So a supported type that neither is empty nor starts with a dot
    matches no file, and a file type with a dot in it gets no file in
    any report. *)
Theorem language_is_a_supported_extension cfg fs base directory w results r :
  (compile_directory cfg fs base directory w).1 = inr results →
  r ∈ results →
  content r ≠ ""
  ∧ (language r = "" ∧ "" ∈ supported_types cfg
     ∨ language r ≠ ""
       ∧ ("."%char ∉ Text.chars (language r))
       ∧ String "." (language r) ∈ supported_types cfg).
Proof.
  intros Hrun Hr.
  destruct (compile_directory_value cfg fs base directory w) as [Hv _].
  rewrite Hv in Hrun. injection Hrun as <-.
  apply compiled_record in Hr as (p & Hp & Htext & ->).
  split; [done|]. cbn [language record_of].
  assert (suffix p ∈ supported_types cfg) as Hsup.
  { unfold scanned in Hp. destruct (lookup_path fs directory) as [d|];
      [by eapply scan_paths_suffix|by apply elem_of_nil in Hp]. }
  unfold suffix in *.
  destruct (name_suffix_shape (path_name p)) as [He|(rest & He & Hne & Hdot)];
    rewrite He in *; [by left|by right].
Qed.

(** X19.  The line count of a record is one more than the number of line
    feeds of the content, so a file that ends in a line feed counts a
    last, empty line; the comment lines are among the lines counted. *)
Theorem lines_are_line_feeds_plus_one cfg fs base directory w results r :
  (compile_directory cfg fs base directory w).1 = inr results →
  r ∈ results →
  lines r
  = S (length (List.filter (λ c, bool_decide (c = ascii_of_nat 10))
                 (Text.chars (content r))))
  ∧ comments r ≤ lines r
  ∧ 0 < characters r.
Proof.
  intros Hrun Hr.
  destruct (compile_directory_value cfg fs base directory w) as [Hv _].
  rewrite Hv in Hrun. injection Hrun as <-.
  apply compiled_record in Hr as (p & Hp & Htext & ->).
  cbn [lines comments characters content record_of].
  split; [apply split_on_length|]. split.
  - apply List.filter_length_le.
  - destruct (file_text cfg fs p); [done|simpl; lia].
Qed.

End AnalysisMore.

(** The record of src/a.py in the sample project. *)
Lemma language_is_a_supported_extension_witness :
  let r := record_of (H := Sample.runtime)
             (under Sample.proj ["src"; "a.py"]) Sample.a_py in
  content r ≠ ""
  ∧ (language r = "" ∧ "" ∈ supported_types DEFAULT_CONFIG
     ∨ language r ≠ ""
       ∧ ("."%char ∉ Text.chars (language r))
       ∧ String "." (language r) ∈ supported_types DEFAULT_CONFIG).
Proof.
  apply (language_is_a_supported_extension (H := Sample.runtime) DEFAULT_CONFIG
           Sample.fs Sample.proj Sample.proj Sample.quiet_world
           (compiled (H := Sample.runtime) DEFAULT_CONFIG Sample.fs
              Sample.proj Sample.proj)).
  - vm_compute. reflexivity.
  - apply (list_elem_of_lookup_2 _ 1). vm_compute. reflexivity.
Defined.

Lemma lines_are_line_feeds_plus_one_witness :
  let r := record_of (H := Sample.runtime)
             (under Sample.proj ["src"; "a.py"]) Sample.a_py in
  lines r
  = S (length (List.filter (λ c, bool_decide (c = ascii_of_nat 10))
                 (Text.chars (content r))))
  ∧ comments r ≤ lines r
  ∧ 0 < characters r.
Proof.
  apply (lines_are_line_feeds_plus_one (H := Sample.runtime) DEFAULT_CONFIG
           Sample.fs Sample.proj Sample.proj Sample.quiet_world
           (compiled (H := Sample.runtime) DEFAULT_CONFIG Sample.fs
              Sample.proj Sample.proj)).
  - vm_compute. reflexivity.
  - apply (list_elem_of_lookup_2 _ 1). vm_compute. reflexivity.
Defined.

(** ** The order of the tree *)

















(** ** The walk, the analysis and the tree together *)

Section Together.
Context `{Runtime}.

(** X21.  [compile_directory] never raises and writes nothing; its
    records are those [analyze_file] gives for the paths of the walk, in
    the order of the walk, the files without a record left out. *)
Theorem records_follow_the_walk cfg fs base directory w :
  ∃ paths,
    (scan_path cfg fs base directory w).1 = inr paths
    ∧ (compile_directory cfg fs base directory w).1
      = inr (omap (λ p, match (analyze_file cfg fs p w).1 with
                        | inr (Some r) => Some r
                        | _ => None
                        end) paths)
    ∧ written (compile_directory cfg fs base directory w).2 = written w.
Proof.
  exists (scanned cfg fs base directory).
  destruct (scan_path_value cfg fs base directory w) as [-> _].
  destruct (compile_directory_value cfg fs base directory w) as [-> [-> _]].
  split; [done|]. split; [|done]. f_equal. unfold compiled.
  apply list_omap_ext. apply Forall2_same_length_lookup_2; [done|].
  intros i p q Hp Hq. assert (p = q) as <- by congruence.
  destruct (analyze_file_value cfg fs p w) as [-> _].
  by destruct (analysis cfg fs p).
Qed.

End Together.

(** X22.  Every file the walk yields has its line in the tree of the
    same directory: the tree leaves out what is excluded and nothing
    else, so it shows every analysed file. *)
Theorem every_scanned_file_is_in_the_tree cfg base d w paths p prefix text :
  unique_names d = true →
  (scan_directory cfg base base d w).1 = inr paths →
  p ∈ paths →
  generate_directory_structure cfg base d prefix = inr text →
  text = lines_text (tree_lines cfg base d prefix)
  ∧ ∃ l, l ∈ tree_lines cfg base d prefix ∧ line_item l = p.
Proof.
  intros Hu Hrun Hp Htext. split; [by apply structure_lines|].
  destruct (scan_directory_value cfg base base d w) as [Hv _].
  rewrite Hv in Hrun. injection Hrun as <-.
  pose proof (scan_paths_included _ _ _ _ _ Hp) as Hi.
  rewrite <- (under_nil base) in Hp at 2.
  apply scan_paths_files in Hp as (rel & x & f & Hne & Hq & Hr & _); [|done].
  rewrite app_nil_l in Hq. subst p.
  apply included_spec in Hi as (rel' & Hrel & Hex & _).
  rewrite relative_to_under in Hrel. injection Hrel as <-. simpl in Hex.
  apply tree_lines_shown; [done..|]. split; [by rewrite Hr|].
  intros c Hc Hexc. by apply (Hex c).
Qed.

(** The source file of the sample project. *)
Lemma every_scanned_file_is_in_the_tree_witness :
  ∃ text,
    text = lines_text (tree_lines DEFAULT_CONFIG Sample.proj Sample.project "")
    ∧ ∃ l, l ∈ tree_lines DEFAULT_CONFIG Sample.proj Sample.project ""
           ∧ line_item l = under Sample.proj ["src"; "a.py"].
Proof.
  eexists.
  apply (every_scanned_file_is_in_the_tree DEFAULT_CONFIG Sample.proj
           Sample.project Sample.quiet_world
           (scan_paths DEFAULT_CONFIG Sample.proj Sample.proj Sample.project)
           (under Sample.proj ["src"; "a.py"]) "").
  - vm_compute. reflexivity.
  - vm_compute. reflexivity.
  - apply (list_elem_of_lookup_2 _ 1). vm_compute. reflexivity.
  - vm_compute. reflexivity.
Defined.
